(** * An explicit-free-list allocator (mm.c), embedded and verified

    The allocator of [mm.c] keeps boundary-tagged blocks in a growable heap
    and threads the free ones on a circular doubly linked list anchored at a
    root pseudo-block.  This file embeds the C code over a byte-addressed
    memory, with 64-bit wrap-around written out, and proves properties of the
    public operations [malloc], [free], [realloc], [calloc] and of the heap
    checker [mm_checkheap]. *)

From Stdlib Require Import ZArith List Lia Bool.
Import ListNotations.
Local Open Scope Z_scope.

(** ** Machine words and pointers *)

Module Word.

(** [size_t], [word_t] and pointers are 64-bit unsigned. *)
Definition modulus : Z := 2 ^ 64.
Definition w64 (x : Z) : Z := x mod modulus.

Definition padd (p n : Z) : Z := w64 (p + n).
Definition psub (p n : Z) : Z := w64 (p - n).
Definition wmul (x y : Z) : Z := w64 (x * y).

Definition NULL : Z := 0.

End Word.
Import Word.

(** ** Byte-addressed memory *)

Module Mem.

(** One byte per address.  Only the low eight bits of a cell are ever read. *)
Definition memory := Z -> Z.

(** Little-endian load of [n] bytes at [a]. *)
Fixpoint load_le (m : memory) (a : Z) (n : nat) : Z :=
  match n with
  | O => 0
  | S k => (m a) mod 256 + 256 * load_le m (a + 1) k
  end.

Definition upd (m : memory) (a b : Z) : memory :=
  fun x => if x =? a then b else m x.

(** Little-endian store of the low [n] bytes of [v] at [a]. *)
Fixpoint store_le (m : memory) (a : Z) (n : nat) (v : Z) : memory :=
  match n with
  | O => m
  | S k => store_le (upd m a (v mod 256)) (a + 1) k (v / 256)
  end.

Definition load64 (m : memory) (a : Z) : Z := load_le m a 8.
Definition store64 (m : memory) (a v : Z) : memory := store_le m a 8 v.

(** The effect of [memcpy(dst, src, n)] and [memset(dst, c, n)] on memory. *)
Definition copy_bytes (m : memory) (dst src n : Z) : memory :=
  fun x => if (dst <=? x) && (x <? dst + n) then m (src + (x - dst)) else m x.

Definition fill_bytes (m : memory) (dst c n : Z) : memory :=
  fun x => if (dst <=? x) && (x <? dst + n) then c mod 256 else m x.

End Mem.
Import Mem.

(** ** Allocator state and the execution monad *)

(** The globals of [mm.c] ([free_root], [prologue], [counter_global])
    together with the heap region that memlib manages: the bytes, the first
    heap address, the current top (one past the last heap byte) and the
    highest top the region can grow to. *)
Record state := mkState {
  mem : memory;
  heap_lo : Z;
  heap_brk : Z;
  heap_max : Z;
  free_root : Z;
  prologue : Z;
  counter_global : Z
}.

Definition set_mem (s : state) (m : memory) : state :=
  mkState m (heap_lo s) (heap_brk s) (heap_max s) (free_root s) (prologue s)
          (counter_global s).
Definition set_brk (s : state) (b : Z) : state :=
  mkState (mem s) (heap_lo s) b (heap_max s) (free_root s) (prologue s)
          (counter_global s).
Definition set_free_root (s : state) (r : Z) : state :=
  mkState (mem s) (heap_lo s) (heap_brk s) (heap_max s) r (prologue s)
          (counter_global s).
Definition set_prologue (s : state) (p : Z) : state :=
  mkState (mem s) (heap_lo s) (heap_brk s) (heap_max s) (free_root s) p
          (counter_global s).
Definition set_counter (s : state) (c : Z) : state :=
  mkState (mem s) (heap_lo s) (heap_brk s) (heap_max s) (free_root s)
          (prologue s) c.

(** Ways in which a run ends without a result: a load or store outside the
    heap region, an integer division by zero, or a loop that outlives the
    fuel it was given. *)
Inductive fault : Type :=
| BadAccess (addr : Z)
| DivideByZero
| OutOfFuel.

Inductive result (A : Type) : Type :=
| Ok (a : A) (s : state)
| Err (f : fault).
Arguments Ok {A} a s.
Arguments Err {A} f.

Definition M (A : Type) : Type := state -> result A.

Definition ret {A} (a : A) : M A := fun s => Ok a s.
Definition bind {A B} (c : M A) (k : A -> M B) : M B :=
  fun s => match c s with
           | Ok a s' => k a s'
           | Err f => Err f
           end.
Definition fail {A} (f : fault) : M A := fun _ => Err f.
Definition gets {A} (f : state -> A) : M A := fun s => Ok (f s) s.
Definition modify (f : state -> state) : M unit := fun s => Ok tt (f s).

Notation "x <- c1 ;; c2" := (bind c1 (fun x => c2))
  (at level 61, c1 at next level, right associativity).
Notation "c1 ;; c2" := (bind c1 (fun _ => c2))
  (at level 61, right associativity).

(** Unsigned division, which C leaves undefined for a zero divisor. *)
Definition udiv (x y : Z) : M Z :=
  if y =? 0 then fail DivideByZero else ret (x / y).

(** A word access is inside the heap when all its eight bytes are. *)
Definition in_bounds (s : state) (a : Z) : bool :=
  (heap_lo s <=? a) && (a + 8 <=? heap_brk s).

Definition load (a : Z) : M Z :=
  fun s => if in_bounds s a then Ok (load64 (mem s) a) s
           else Err (BadAccess a).

Definition store (a v : Z) : M unit :=
  fun s => if in_bounds s a then Ok tt (set_mem s (store64 (mem s) a v))
           else Err (BadAccess a).

(** ** The memlib interface *)

Definition SBRK_FAILED : Z := w64 (-1).

(** Modelled from the spec: [mem_sbrk] of memlib ([grow_heap]) is not among
    the sources.  It extends the heap by [incr] bytes and returns the old
    top, or fails with the sentinel [(void * )-1] and changes nothing when
    the region is exhausted. *)
Definition mem_sbrk (incr : Z) : M Z :=
  fun s => if heap_brk s + incr <=? heap_max s
           then Ok (heap_brk s) (set_brk s (heap_brk s + incr))
           else Ok SBRK_FAILED s.

(** Modelled from the spec: [mem_heap_lo] of memlib ([heap_low]), the first
    heap byte. *)
Definition mem_heap_lo : M Z := gets heap_lo.

(** Modelled from the spec: [mem_heap_hi] of memlib ([heap_high]), the last
    heap byte. *)
Definition mem_heap_hi : M Z := gets (fun s => w64 (heap_brk s - 1)).

Definition range_in_heap (s : state) (p n : Z) : bool :=
  (n =? 0) || ((heap_lo s <=? p) && (p + n <=? heap_brk s)).

(** Modelled from the spec: the byte-copy primitive [memcpy]. *)
Definition memcpy (dst src n : Z) : M unit :=
  fun s => if range_in_heap s dst n then
             if range_in_heap s src n
             then Ok tt (set_mem s (copy_bytes (mem s) dst src n))
             else Err (BadAccess src)
           else Err (BadAccess dst).

(** Modelled from the spec: the zero-fill primitive [memset]. *)
Definition memset (dst c n : Z) : M unit :=
  fun s => if range_in_heap s dst n
           then Ok tt (set_mem s (fill_bytes (mem s) dst c n))
           else Err (BadAccess dst).

(** ** Constants of mm.c *)

Definition ALIGNMENT : Z := 16.
Definition wsize : Z := 8.
Definition dsize : Z := 2 * wsize.
Definition min_block_size : Z := 2 * dsize.
Definition chunksize : Z := Z.shiftl 1 12.
Definition alloc_mask : Z := 1.
Definition size_mask : Z := w64 (Z.lnot 15).

(** [offsetof(block_t, content)], the offsets of the two list pointers in
    [prev_next_ptrs], and [sizeof(block_t)]. *)
Definition content_offset : Z := 8.
Definition prev_offset : Z := 8.
Definition next_offset : Z := 16.
Definition sizeof_block : Z := 24.

(** ** Low-level helpers *)

Definition pack (size : Z) (is_allocated : bool) : Z :=
  if is_allocated then Z.lor size alloc_mask else size.

(** [n] is [dsize] at every call site, so the division is total. *)
Definition round_up (size n : Z) : Z :=
  wmul n (padd size (psub n 1) / n).

Definition max (x y : Z) : Z := if x >? y then x else y.

Definition extract_size (word : Z) : Z := Z.land word size_mask.
Definition extract_alloc (word : Z) : bool :=
  negb (Z.land word alloc_mask =? 0).

Definition align (x : Z) : Z :=
  wmul ALIGNMENT (psub (padd x ALIGNMENT) 1 / ALIGNMENT).
Definition aligned (p : Z) : bool := align p =? p.

Definition in_heap (p : Z) : M bool :=
  hi <- mem_heap_hi ;;
  lo <- mem_heap_lo ;;
  ret ((p <=? hi) && (p >=? lo)).

(** ** Block accessors *)

Definition header_to_payload (block : Z) : Z := padd block content_offset.
Definition payload_to_header (bp : Z) : Z := psub bp content_offset.

Definition get_size (block : Z) : M Z :=
  w <- load block ;; ret (extract_size w).
Definition get_alloc (block : Z) : M bool :=
  w <- load block ;; ret (extract_alloc w).

Definition find_prev_footer (block : Z) : Z := psub block wsize.

Definition get_payload_size (block : Z) : M Z :=
  asize <- get_size block ;; ret (psub asize dsize).

Definition get_next_block (curr : Z) : M Z :=
  s <- get_size curr ;; ret (padd curr s).

Definition get_prev_block (curr : Z) : M Z :=
  w <- load (find_prev_footer curr) ;;
  ret (psub curr (extract_size w)).

Definition get_next_free (curr : Z) : M Z := load (padd curr next_offset).
Definition get_prev_free (curr : Z) : M Z := load (padd curr prev_offset).
Definition set_next_free (curr next : Z) : M unit :=
  store (padd curr next_offset) next.
Definition set_prev_free (curr prev : Z) : M unit :=
  store (padd curr prev_offset) prev.

Definition write_block (block size : Z) (is_allocated : bool) : M unit :=
  store block (pack size is_allocated) ;;
  root <- gets free_root ;;
  if block =? root then ret tt
  else
    s <- get_size block ;;
    let footerp := psub (padd (header_to_payload block) s) dsize in
    store footerp (pack size is_allocated).

(** ** Free-list operations *)

Definition remove_from_list (target : Z) : M unit :=
  tmp_prev <- get_prev_free target ;;
  tmp_next <- get_next_free target ;;
  set_next_free tmp_prev tmp_next ;;
  set_prev_free tmp_next tmp_prev ;;
  modify (fun s => set_counter s (counter_global s - 1)).

Definition add_to_list (new : Z) : M unit :=
  root <- gets free_root ;;
  old_tail <- get_prev_free root ;;
  set_next_free old_tail new ;;
  set_next_free new root ;;
  set_prev_free root new ;;
  set_prev_free new old_tail ;;
  modify (fun s => set_counter s (counter_global s + 1)).

(** The loop of [find_fit]: it stops at the first block of size 0, which
    is how it recognises the root. *)
Fixpoint find_fit_loop (fuel : nat) (asize block : Z) : M Z :=
  match fuel with
  | O => fail OutOfFuel
  | S fuel' =>
      sz <- get_size block ;;
      if sz >? 0 then
        size <- get_size block ;;
        if asize <=? size then ret block
        else
          next <- get_next_free block ;;
          find_fit_loop fuel' asize next
      else ret NULL
  end.

Definition find_fit (fuel : nat) (asize : Z) : M Z :=
  root <- gets free_root ;;
  first <- get_next_free root ;;
  find_fit_loop fuel asize first.

(** ** Heap extension, placement, coalescing *)

Definition extend_heap (size : Z) : M Z :=
  let size := round_up size dsize in
  bp <- mem_sbrk size ;;
  if bp =? SBRK_FAILED then ret NULL
  else
    write_block bp size false ;;
    add_to_list bp ;;
    ret bp.

Definition place (block asize : Z) : M unit :=
  block_size <- get_size block ;;
  if psub block_size asize >=? min_block_size then
    remove_from_list block ;;
    write_block block asize true ;;
    new_block <- get_next_block block ;;
    if new_block =? NULL then ret tt
    else
      write_block new_block (psub block_size asize) false ;;
      add_to_list new_block
  else
    remove_from_list block ;;
    write_block block block_size true.

(** The four cases of [coalesce], once the neighbours are known. *)
Definition coalesce_cases (block next_block prev_block : Z)
    (prev_alloc next_alloc : bool) (size : Z) : M Z :=
  if prev_alloc && next_alloc then
    add_to_list block ;;
    ret block
  else if prev_alloc && negb next_alloc then
    remove_from_list next_block ;;
    nsize <- get_size next_block ;;
    let size := padd size nsize in
    write_block block size false ;;
    add_to_list block ;;
    ret block
  else if negb prev_alloc && next_alloc then
    remove_from_list prev_block ;;
    psize <- get_size prev_block ;;
    let size := padd size psize in
    write_block prev_block size false ;;
    add_to_list prev_block ;;
    ret prev_block
  else
    remove_from_list prev_block ;;
    remove_from_list next_block ;;
    nsize <- get_size next_block ;;
    psize <- get_size prev_block ;;
    let size := padd size (padd nsize psize) in
    write_block prev_block size false ;;
    add_to_list prev_block ;;
    ret prev_block.

Definition coalesce (block : Z) : M Z :=
  next_block <- get_next_block block ;;
  prev_block <- get_prev_block block ;;
  prev_in <- in_heap prev_block ;;
  prev_alloc <-
    (if prev_in && negb (prev_block =? NULL) then
       w <- load (find_prev_footer block) ;; ret (extract_alloc w)
     else ret true) ;;
  next_in <- in_heap next_block ;;
  next_alloc <-
    (if next_in && negb (next_block =? NULL) then get_alloc next_block
     else ret true) ;;
  size <- get_size block ;;
  coalesce_cases block next_block prev_block prev_alloc next_alloc size.

(** ** Public operations *)

Definition mm_init : M bool :=
  start <- mem_sbrk (wmul 5 wsize) ;;
  if start =? SBRK_FAILED then ret false
  else
    store start (pack 0 true) ;;
    store (padd start (1 * wsize)) (pack 0 true) ;;
    store (padd start (4 * wsize)) (pack 0 true) ;;
    modify (fun s => set_prologue s start) ;;
    modify (fun s => set_free_root s (padd start (1 * wsize))) ;;
    root <- gets free_root ;;
    set_prev_free root root ;;
    set_next_free root root ;;
    b <- extend_heap chunksize ;;
    if b =? NULL then ret false else ret true.

(** [malloc] once the heap is known to be initialised. *)
Definition malloc_sized (fuel : nat) (size : Z) : M Z :=
  if size <=? 0 then ret NULL
  else
    let asize := round_up (padd size dsize) dsize in
    block <- find_fit fuel asize ;;
    if block =? NULL then
      let extendsize := max asize chunksize in
      block <- extend_heap extendsize ;;
      if block =? NULL then ret NULL
      else
        place block asize ;;
        ret (header_to_payload block)
    else
      place block asize ;;
      ret (header_to_payload block).

Definition malloc (fuel : nat) (size : Z) : M Z :=
  root <- gets free_root ;;
  (if root =? NULL then _ <- mm_init ;; ret tt else ret tt) ;;
  malloc_sized fuel size.

Definition free (ptr : Z) : M unit :=
  let block := payload_to_header ptr in
  size <- get_size block ;;
  write_block block size false ;;
  _ <- coalesce block ;;
  ret tt.

Definition realloc (fuel : nat) (ptr size : Z) : M Z :=
  let block := payload_to_header ptr in
  if size =? 0 then
    free ptr ;;
    ret NULL
  else if ptr =? NULL then malloc fuel size
  else
    newptr <- malloc fuel size ;;
    if newptr =? NULL then ret NULL
    else
      copysize <- get_payload_size block ;;
      let copysize := if size <? copysize then size else copysize in
      memcpy newptr ptr copysize ;;
      free ptr ;;
      ret newptr.

Definition calloc (fuel : nat) (elements size : Z) : M Z :=
  let asize := wmul elements size in
  q <- udiv asize elements ;;
  if negb (q =? size) then ret NULL
  else
    bp <- malloc fuel asize ;;
    if bp =? NULL then ret NULL
    else
      memset bp 0 asize ;;
      ret bp.

(** ** The heap checker *)

(** One iteration of the block walk of [mm_checkheap]: [inl false] when the
    walk reports a violation and returns, [inr next] when it moves on. *)
Definition checkheap_block (curr next : Z) : M (bool + Z) :=
  hdr <- load curr ;;
  ftr <- load (find_prev_footer next) ;;
  allocated <- get_alloc curr ;;
  if negb (hdr =? ftr) then ret (inl false)
  else if allocated && negb (aligned (header_to_payload curr)) then
    ret (inl false)
  else
    size <- get_size curr ;;
    if size <? min_block_size then ret (inl false)
    else if negb (size mod dsize =? 0) then ret (inl false)
    else
      curr_alloc <- get_alloc curr ;;
      next_alloc <- get_alloc next ;;
      if negb curr_alloc || negb next_alloc then ret (inl false)
      else ret (inr next).

Fixpoint checkheap_blocks (fuel : nat) (hi curr : Z) : M bool :=
  match fuel with
  | O => fail OutOfFuel
  | S fuel' =>
      next <- get_next_block curr ;;
      if padd next (1 * sizeof_block) <? hi then
        r <- checkheap_block curr next ;;
        match r with
        | inl b => ret b
        | inr next => checkheap_blocks fuel' hi next
        end
      else ret true
  end.

Fixpoint checkheap_free (fuel : nat) (lo hi tmp : Z) : M bool :=
  match fuel with
  | O => fail OutOfFuel
  | S fuel' =>
      sz <- get_size tmp ;;
      if sz >? 0 then
        if (tmp <? lo) || (tmp >? hi) then ret false
        else
          next <- get_next_free tmp ;;
          checkheap_free fuel' lo hi next
      else ret true
  end.

(** [prologue] is a [word_t *], so [prologue + 5 * wsize] advances by
    [5 * wsize] words. *)
Definition mm_checkheap (fuel : nat) : M bool :=
  lo <- mem_heap_lo ;;
  hi <- mem_heap_hi ;;
  p <- gets prologue ;;
  let curr := padd p (wmul (wmul 5 wsize) wsize) in
  if curr =? NULL then ret true
  else
    ok <- checkheap_blocks fuel hi curr ;;
    if negb ok then ret false
    else
      root <- gets free_root ;;
      first <- get_next_free root ;;
      checkheap_free fuel lo hi first.

(** ** The logical view of the heap *)

(** A block of the physical chain: its address, its size and its
    allocated flag. *)
Definition block : Type := (Z * Z * bool)%type.

Definition blk_addr (b : block) : Z := fst (fst b).
Definition blk_size (b : block) : Z := snd (fst b).
Definition blk_alloc (b : block) : bool := snd b.

(** [seg m a bl e]: the bytes from [a] up to [e] are tiled by the blocks
    [bl], in address order; each has a header and, in its last word, a
    footer that both hold [pack size alloc]. *)
Fixpoint seg (m : memory) (a : Z) (bl : list block) (e : Z) : Prop :=
  match bl with
  | [] => a = e
  | (b, sz, al) :: rest =>
      b = a /\ 32 <= sz /\ sz mod 16 = 0 /\
      load64 m a = pack sz al /\
      load64 m (a + sz - 8) = pack sz al /\
      seg m (a + sz) rest e
  end.

(** The two list pointers of the node at [x]. *)
Definition nxt (m : memory) (x : Z) : Z := load64 m (x + 16).
Definition prv (m : memory) (x : Z) : Z := load64 m (x + 8).

(** [dllf nx pv root x l]: following [nx] from [x] visits [l] and then
    [root], and [pv] leads back at every step. *)
Fixpoint dllf (nx pv : Z -> Z) (root x : Z) (l : list Z) : Prop :=
  match l with
  | [] => nx x = root /\ pv root = x
  | y :: l' => nx x = y /\ pv y = x /\ dllf nx pv root y l'
  end.

Definition dll (m : memory) (root x : Z) (l : list Z) : Prop :=
  dllf (nxt m) (prv m) root x l.

Definition fupd (f : Z -> Z) (k v : Z) : Z -> Z :=
  fun x => if x =? k then v else f x.

(** What a block sees past either end of the chain: size 0, allocated.
    The root's footer plays this part before the first block. *)
Definition edge : block := (0, 0, true).

Definition last_block (pre : list block) : block := last pre edge.
Definition first_block (post : list block) : block := hd edge post.

(** The bytes a stretch of blocks takes up. *)
Definition total_size (X : list block) : Z :=
  fold_right (fun b acc => blk_size b + acc) 0 X.

(** No two neighbours in the chain are both free. *)
Fixpoint naf (bl : list block) : Prop :=
  match bl with
  | [] => True
  | b :: rest =>
      match rest with
      | [] => True
      | b' :: _ => blk_alloc b = true \/ blk_alloc b' = true
      end /\ naf rest
  end.

(** The same, said without recursion. *)
Definition no_adjacent_free (bl : list block) : Prop :=
  forall pre b1 b2 post,
    bl = pre ++ b1 :: b2 :: post ->
    blk_alloc b1 = true \/ blk_alloc b2 = true.

(** [base s bl]: the region starts with the prologue word and the root
    pseudo-block (header, two list pointers, footer), and the rest, up to
    the top, is the chain [bl]. *)
Record base (s : state) (bl : list block) : Prop := mkBase {
  b_lo_pos : 0 < heap_lo s;
  b_lo_al : heap_lo s mod 16 = 0;
  b_max : heap_brk s <= heap_max s /\ heap_max s < 2 ^ 64;
  b_root : free_root s = heap_lo s + 8;
  b_prologue : prologue s = heap_lo s;
  b_pro : load64 (mem s) (heap_lo s) = 1;
  b_rhd : load64 (mem s) (heap_lo s + 8) = 1;
  b_rft : load64 (mem s) (heap_lo s + 32) = 1;
  b_seg : seg (mem s) (heap_lo s + 40) bl (heap_brk s)
}.

(** [heap s bl fl]: the structure every operation relies on: [base], and a
    free list that reads [fl] from the root's successor onwards, each node
    a free block of the chain. *)
Record heap (s : state) (bl : list block) (fl : list Z) : Prop := mkHeap {
  h_base : base s bl;
  h_dll : dll (mem s) (heap_lo s + 8) (heap_lo s + 8) fl;
  h_nodup : NoDup fl;
  h_sound : forall a, In a fl -> exists sz, In (a, sz, false) bl
}.

(** The nodes that can be on the list: the root and the blocks of the
    chain; and the addresses of their list pointers. *)
Definition node (s : state) (bl : list block) (x : Z) : Prop :=
  x = heap_lo s + 8 \/ exists sz al, In (x, sz, al) bl.

Definition cell (s : state) (bl : list block) (y : Z) : Prop :=
  exists x, node s bl x /\ (y = x + 8 \/ y = x + 16).

(** The last node of the list [x :: l]. *)
Fixpoint tail_of (x : Z) (l : list Z) : Z :=
  match l with
  | [] => x
  | y :: l' => tail_of y l'
  end.

(** The nodes [nodes] keep clear of the bytes from [b] to [e]. *)
Definition outside (nodes : list Z) (b e : Z) : Prop :=
  forall x, In x nodes -> x + 32 <= b \/ e <= x.

(** States that differ in memory and in the counter only. *)
Definition same_region (s s' : state) : Prop :=
  heap_lo s' = heap_lo s /\ heap_brk s' = heap_brk s /\
  heap_max s' = heap_max s /\ free_root s' = free_root s /\
  prologue s' = prologue s.

(** The invariants that hold between public operations: the structure, a
    free list that misses no free block, and no two adjacent free blocks. *)
Record WF (s : state) (bl : list block) (fl : list Z) : Prop := mkWF {
  wf_heap : heap s bl fl;
  wf_complete : forall a sz, In (a, sz, false) bl -> In a fl;
  wf_naf : naf bl
}.

(** What memlib guarantees of its region at all times. *)
Definition region_ok (s : state) : Prop :=
  0 < heap_lo s /\ heap_lo s <= heap_brk s /\
  heap_brk s <= heap_max s /\ heap_max s < 2 ^ 64.

(** The state before the first call: memlib has set up an empty region and
    [mm_init] has not run. *)
Definition fresh (s : state) : Prop :=
  free_root s = NULL /\ heap_brk s = heap_lo s /\
  0 < heap_lo s /\ heap_lo s mod 16 = 0 /\
  heap_lo s <= heap_max s /\ heap_max s < 2 ^ 64.

(** The size field of the header at [a]. *)
Definition size_at (s : state) (a : Z) : Z := extract_size (load64 (mem s) a).

(** The first node of [l] whose block holds [asize] bytes, or [NULL]. *)
Definition first_fit (s : state) (asize : Z) (l : list Z) : Z :=
  match find (fun a => asize <=? size_at s a) l with
  | Some a => a
  | None => NULL
  end.

(** The chain and the list after [place b asize] on the free block
    [(b, bs)] between [pre] and [post]. *)
Definition place_bl (pre : list block) (b bs : Z) (post : list block)
    (asize : Z) : list block :=
  if 32 <=? bs - asize
  then pre ++ (b, asize, true) :: (b + asize, bs - asize, false) :: post
  else pre ++ (b, bs, true) :: post.

Definition place_fl (fl : list Z) (b bs asize : Z) : list Z :=
  if 32 <=? bs - asize
  then remove Z.eq_dec b fl ++ [b + asize]
  else remove Z.eq_dec b fl.

(** The public operations, as calls. *)
Inductive op : Type :=
| OpMalloc (size : Z)
| OpFree (ptr : Z)
| OpRealloc (ptr size : Z)
| OpCalloc (elements size : Z).

Definition run_op (fuel : nat) (o : op) : M Z :=
  match o with
  | OpMalloc size => malloc fuel size
  | OpFree ptr => free ptr ;; ret NULL
  | OpRealloc ptr size => realloc fuel ptr size
  | OpCalloc elements size => calloc fuel elements size
  end.

(** [ptr] is the payload of an allocated block. *)
Definition allocated_ptr (bl : list block) (ptr : Z) : Prop :=
  exists sz, In (ptr - 8, sz, true) bl.

(** Request sizes whose adjusted size does not wrap around. *)
Definition size_ok (size : Z) : Prop := 0 <= size <= 2 ^ 64 - 32.

(** The calls the allocator's contract allows: sizes that do not wrap,
    pointers that are allocated, and no call that divides by zero or frees
    the null pointer. *)
Definition op_ok (bl : list block) (o : op) : Prop :=
  match o with
  | OpMalloc size => size_ok size
  | OpFree ptr => allocated_ptr bl ptr
  | OpRealloc ptr size =>
      size_ok size /\ (allocated_ptr bl ptr \/ (ptr = NULL /\ 0 < size))
  | OpCalloc elements size =>
      0 < elements < 2 ^ 64 /\ 0 <= size < 2 ^ 64 /\
      (elements * size <= 2 ^ 64 - 32 \/ 2 ^ 64 <= elements * size)
  end.

(** What holds whenever a public operation is called. *)
Definition inv (s : state) : Prop := fresh s \/ exists bl fl, WF s bl fl.

(** A call that the contract allows in state [s], with fuel for the scan
    of the free list: on a well-formed heap, or as the first call on a
    region with room for the root. *)
Definition callable (s : state) (fuel : nat) (o : op) : Prop :=
  (exists bl fl, WF s bl fl /\ op_ok bl o /\ (length fl < fuel)%nat) \/
  (fresh s /\ heap_lo s + 40 <= heap_max s /\ op_ok [] o /\ (1 < fuel)%nat).

(** ** What an operation leaves alone *)

(** The bytes of the allocated blocks of [bl], tags included, are in [s']
    what they were in [s]. *)
Definition keeps_allocated (s s' : state) (bl : list block) : Prop :=
  forall c csz x,
    In (c, csz, true) bl -> c <= x < c + csz -> mem s' x = mem s x.

(** [counter_global] set against the length of the free list. *)
Definition slack (s : state) (fl : list Z) : Z :=
  counter_global s - Z.of_nat (length fl).

(** Code that only reads: when it returns, the state is the one it was
    given. *)
Definition reads_only {A} (c : M A) : Prop :=
  forall s r s', c s = Ok r s' -> s' = s.

(** ** Two readings of the specification that the code does not follow *)

(** Extension that coalesces: when the last block of the chain is free and
    too small, the new block is merged into it, and the request is placed
    in the merged block, which starts where that last block starts. *)
Definition extension_coalesces_with_predecessor : Prop :=
  forall s pre p psz fl fuel size r s',
    WF s (pre ++ [(p, psz, false)]) fl ->
    0 < size <= 2 ^ 64 - 32 -> (length fl < fuel)%nat ->
    first_fit s (round_up (padd size dsize) dsize) fl = NULL ->
    malloc fuel size s = Ok r s' -> r <> NULL ->
    r = p + 8.

(** A block carries a footer when its last word repeats its header and
    lies outside its payload. *)
Definition has_footer (s : state) (b sz : Z) : Prop :=
  load64 (mem s) (b + sz - wsize) = load64 (mem s) b /\
  get_payload_size b s = Ok (sz - dsize) s.

Definition allocated_blocks_carry_no_footer : Prop :=
  forall s bl fl b sz,
    WF s bl fl -> In (b, sz, true) bl -> ~ has_footer s b sz.

(** ** Example heaps *)

Definition is_ok {A} (r : result A) : bool :=
  match r with Ok _ _ => true | Err _ => false end.
Definition value_of {A} (r : result A) (d : A) : A :=
  match r with Ok a _ => a | Err _ => d end.
Definition state_of {A} (r : result A) (d : state) : state :=
  match r with Ok _ s => s | Err _ => d end.

(** The state [c] leaves behind when it is run on [s]. *)
Definition then_run {A} (s : state) (c : M A) : state := state_of (c s) s.

(** A region of [cap] zero bytes at [lo] that memlib has just set up. *)
Definition empty_region (lo cap : Z) : state :=
  mkState (fun _ => 0) lo lo (lo + cap) NULL NULL 0.

Definition ex_fresh : state := empty_region 4096 65536.
Definition ex_init : state := then_run ex_fresh mm_init.

(** Three blocks A, B, C of 32 bytes at 4136, 4168, 4200 and a free
    remainder at 4232. *)
Definition ex_abc : state :=
  then_run (then_run (then_run ex_init (malloc 2 16)) (malloc 2 16))
           (malloc 2 16).

(** A freed: the list reads remainder, A. *)
Definition ex_free_a : state := then_run ex_abc (free 4144).

(** C freed as well and merged with the remainder: the list reads A, C. *)
Definition ex_free_ac : state := then_run ex_free_a (free 4208).

(** B marked free, as [free] does before it calls [coalesce]. *)
Definition ex_b_marked : state := then_run ex_free_ac (write_block 4168 32 false).

(** A first call that zero-fills 4000 bytes. *)
Definition ex_zeroed : state := then_run ex_fresh (calloc 2 1 4000).

(** A region with room for the root and one chunk only, and one block
    allocated in it. *)
Definition ex_tight : state := empty_region 4096 4136.
Definition ex_tight_a : state := then_run ex_tight (malloc 2 16).

(** * Properties *)

(** Linear arithmetic with the divisions and remainders spelled out. *)
Ltac mlia := Z.to_euclidean_division_equations; lia.

(** ** Words *)

Lemma modulus_eq : modulus = 18446744073709551616.
Proof. reflexivity. Qed.

Lemma w64_small x : 0 <= x < 18446744073709551616 -> w64 x = x.
Proof. intros H. unfold w64. rewrite modulus_eq. apply Z.mod_small; lia. Qed.

Lemma w64_range x : 0 <= w64 x < 18446744073709551616.
Proof. unfold w64. rewrite modulus_eq. apply Z.mod_pos_bound. lia. Qed.

Lemma padd_small p n : 0 <= p + n < 18446744073709551616 -> padd p n = p + n.
Proof. apply w64_small. Qed.

Lemma psub_small p n : 0 <= p - n < 18446744073709551616 -> psub p n = p - n.
Proof. apply w64_small. Qed.

Lemma wmul_small p n : 0 <= p * n < 18446744073709551616 -> wmul p n = p * n.
Proof. apply w64_small. Qed.

Lemma size_mask_eq : size_mask = Z.shiftl (Z.ones 60) 4.
Proof. reflexivity. Qed.

Lemma extract_size_spec w :
  0 <= w < 18446744073709551616 -> extract_size w = w - w mod 16.
Proof.
  intros Hw. unfold extract_size. rewrite size_mask_eq.
  replace (w - w mod 16) with (Z.shiftl (Z.shiftr w 4) 4).
  2:{ rewrite Z.shiftl_mul_pow2, Z.shiftr_div_pow2 by lia.
      change (2 ^ 4) with 16. pose proof (Z.div_mod w 16). lia. }
  apply Z.bits_inj'. intros n Hn.
  rewrite Z.land_spec.
  destruct (Z.ltb_spec n 4).
  - rewrite !Z.shiftl_spec_low by lia. apply andb_false_r.
  - rewrite !Z.shiftl_spec by lia. rewrite Z.shiftr_spec by lia.
    replace (n - 4 + 4) with n by lia.
    destruct (Z.ltb_spec (n - 4) 60).
    + rewrite Z.ones_spec_low by lia. apply andb_true_r.
    + rewrite Z.ones_spec_high by lia. rewrite andb_false_r.
      symmetry. destruct (Z.eq_dec w 0) as [->|Hz]; [apply Z.bits_0|].
      apply Z.bits_above_log2; [lia|].
      assert (Z.log2 w < 64); [|lia].
      apply Z.log2_lt_pow2; lia.
Qed.

Lemma land_1 w : Z.land w 1 = w mod 2.
Proof. change 1 with (Z.ones 1). rewrite Z.land_ones by lia. reflexivity. Qed.

Lemma extract_alloc_spec w : extract_alloc w = (w mod 2 =? 1).
Proof.
  unfold extract_alloc, alloc_mask. rewrite land_1.
  pose proof (Z.mod_pos_bound w 2).
  destruct (Z.eqb_spec (w mod 2) 0), (Z.eqb_spec (w mod 2) 1); simpl; lia.
Qed.

Lemma pack_eq sz al : sz mod 2 = 0 -> pack sz al = sz + Z.b2z al.
Proof.
  intros H. unfold pack, alloc_mask. destruct al; simpl; [|lia].
  assert (Z.land sz 1 = 0) by (rewrite land_1; exact H).
  rewrite <- Z.lxor_lor by assumption.
  symmetry. apply Z.add_nocarry_lxor. assumption.
Qed.

Lemma mod16_even sz : sz mod 16 = 0 -> sz mod 2 = 0.
Proof. intros H. mlia. Qed.

Lemma extract_size_pack sz al :
  0 <= sz < 18446744073709551616 -> sz mod 16 = 0 ->
  extract_size (pack sz al) = sz.
Proof.
  intros Hs Hm. rewrite pack_eq by (apply mod16_even; exact Hm).
  destruct al; cbn [Z.b2z]; rewrite extract_size_spec; mlia.
Qed.

Lemma extract_alloc_pack sz al :
  sz mod 16 = 0 -> extract_alloc (pack sz al) = al.
Proof.
  intros Hm. pose proof (mod16_even _ Hm) as He.
  rewrite pack_eq by exact He. rewrite extract_alloc_spec.
  destruct al; cbn [Z.b2z]; [apply Z.eqb_eq|apply Z.eqb_neq]; mlia.
Qed.

Lemma pack_range sz al :
  0 <= sz < 18446744073709551616 -> sz mod 16 = 0 ->
  0 <= pack sz al < 18446744073709551616.
Proof.
  intros Hs Hm. rewrite pack_eq by (apply mod16_even; exact Hm).
  destruct al; cbn [Z.b2z]; mlia.
Qed.

Lemma round_up_spec x :
  0 <= x -> x + 15 < 18446744073709551616 ->
  round_up x dsize = 16 * ((x + 15) / 16).
Proof.
  intros H0 H1. unfold round_up, dsize, wsize.
  change (2 * 8) with 16. change (psub 16 1) with 15.
  rewrite padd_small by lia. apply wmul_small. mlia.
Qed.

Lemma round_up_bounds x :
  0 <= x -> x + 15 < 18446744073709551616 ->
  x <= round_up x dsize < x + 16 /\ round_up x dsize mod 16 = 0.
Proof. intros H0 H1. rewrite round_up_spec by lia. mlia. Qed.

(** ** Bytes and words of memory *)

Lemma store_le_other n : forall m a v x,
  x < a \/ a + Z.of_nat n <= x -> store_le m a n v x = m x.
Proof.
  induction n as [|n IH]; intros m a v x H; simpl; [reflexivity|].
  rewrite IH by lia. unfold upd.
  destruct (Z.eqb_spec x a); [lia|reflexivity].
Qed.

Lemma load_le_ext n : forall m m' a,
  (forall x, a <= x < a + Z.of_nat n -> m x = m' x) ->
  load_le m a n = load_le m' a n.
Proof.
  induction n as [|n IH]; intros m m' a H; simpl; [reflexivity|].
  rewrite (H a) by lia. rewrite (IH m m' (a + 1)); [reflexivity|].
  intros x Hx. apply H. lia.
Qed.

Lemma load_le_range n : forall m a, 0 <= load_le m a n < 256 ^ Z.of_nat n.
Proof.
  induction n as [|n IH]; intros m a.
  - simpl. lia.
  - rewrite Nat2Z.inj_succ, Z.pow_succ_r by lia. cbn [load_le].
    specialize (IH m (a + 1)). pose proof (Z.mod_pos_bound (m a) 256). lia.
Qed.

Lemma load_store_le_same n : forall m a v,
  load_le (store_le m a n v) a n = v mod 256 ^ Z.of_nat n.
Proof.
  induction n as [|n IH]; intros m a v.
  - simpl. symmetry. apply Z.mod_1_r.
  - rewrite Nat2Z.inj_succ, Z.pow_succ_r by lia. cbn [load_le store_le].
    rewrite IH. rewrite store_le_other by lia.
    unfold upd. rewrite Z.eqb_refl.
    rewrite Z.mod_mod by lia.
    symmetry. apply Z.rem_mul_r; [lia|].
    apply Z.pow_pos_nonneg; lia.
Qed.

Lemma load64_range m a : 0 <= load64 m a < 18446744073709551616.
Proof. exact (load_le_range 8 m a). Qed.

Lemma load64_store64_same m a v :
  0 <= v < 18446744073709551616 -> load64 (store64 m a v) a = v.
Proof.
  intros Hv. unfold load64, store64. rewrite load_store_le_same.
  apply Z.mod_small. exact Hv.
Qed.

Lemma load64_store64_other m a v b :
  b + 8 <= a \/ a + 8 <= b -> load64 (store64 m a v) b = load64 m b.
Proof.
  intros H. unfold load64, store64. apply load_le_ext.
  intros x Hx. apply store_le_other. simpl in *. lia.
Qed.

Lemma load64_copy_other m dst src n b :
  b + 8 <= dst \/ dst + n <= b ->
  load64 (copy_bytes m dst src n) b = load64 m b.
Proof.
  intros H. unfold load64. apply load_le_ext. intros x Hx. unfold copy_bytes.
  destruct (Z.leb_spec dst x), (Z.ltb_spec x (dst + n)); simpl in *;
    try reflexivity; lia.
Qed.

Lemma load64_fill_other m dst c n b :
  b + 8 <= dst \/ dst + n <= b ->
  load64 (fill_bytes m dst c n) b = load64 m b.
Proof.
  intros H. unfold load64. apply load_le_ext. intros x Hx. unfold fill_bytes.
  destruct (Z.leb_spec dst x), (Z.ltb_spec x (dst + n)); simpl in *;
    try reflexivity; lia.
Qed.

(** ** Running monadic code *)

Lemma bind_inv {A B} (c : M A) (k : A -> M B) s r s' :
  bind c k s = Ok r s' -> exists a s1, c s = Ok a s1 /\ k a s1 = Ok r s'.
Proof.
  unfold bind. destruct (c s) as [a s1|f]; [|discriminate].
  intros H. exists a, s1. split; [reflexivity|exact H].
Qed.

Lemma bind_ok {A B} (c : M A) (k : A -> M B) s a s1 :
  c s = Ok a s1 -> bind c k s = k a s1.
Proof. intros H. unfold bind. rewrite H. reflexivity. Qed.

Lemma ret_inv {A} (a r : A) s s' : ret a s = Ok r s' -> r = a /\ s' = s.
Proof. unfold ret. intros H. inversion H. auto. Qed.

Lemma gets_inv {A} (f : state -> A) r s s' :
  gets f s = Ok r s' -> r = f s /\ s' = s.
Proof. unfold gets. intros H. inversion H. auto. Qed.

Lemma load_inv a s v s' :
  load a s = Ok v s' -> s' = s /\ v = load64 (mem s) a /\ in_bounds s a = true.
Proof.
  unfold load. destruct (in_bounds s a); [|discriminate].
  intros H. inversion H. auto.
Qed.

Lemma load_ok a s : in_bounds s a = true -> load a s = Ok (load64 (mem s) a) s.
Proof. intros H. unfold load. rewrite H. reflexivity. Qed.

Lemma store_ok a v s :
  in_bounds s a = true -> store a v s = Ok tt (set_mem s (store64 (mem s) a v)).
Proof. intros H. unfold store. rewrite H. reflexivity. Qed.

Lemma store_inv a v s u s' :
  store a v s = Ok u s' ->
  s' = set_mem s (store64 (mem s) a v) /\ in_bounds s a = true.
Proof.
  unfold store. destruct (in_bounds s a); [|discriminate].
  intros H. inversion H. auto.
Qed.

Lemma in_bounds_iff s a :
  in_bounds s a = true <-> heap_lo s <= a /\ a + 8 <= heap_brk s.
Proof. unfold in_bounds. rewrite andb_true_iff, !Z.leb_le. tauto. Qed.

Lemma get_size_inv b s v s' :
  get_size b s = Ok v s' ->
  s' = s /\ v = extract_size (load64 (mem s) b) /\ in_bounds s b = true.
Proof.
  unfold get_size. intros H. apply bind_inv in H. destruct H as (w & s1 & H1 & H2).
  apply load_inv in H1. destruct H1 as (-> & -> & Hb).
  apply ret_inv in H2. destruct H2 as (-> & ->). auto.
Qed.

(** [find_fit] only reads. *)
Lemma find_fit_loop_inv fuel : forall asize b s r s',
  find_fit_loop fuel asize b s = Ok r s' ->
  s' = s /\ (r = NULL \/ in_bounds s r = true).
Proof.
  induction fuel as [|fuel IH]; intros asize b s r s' H; [discriminate|].
  cbn [find_fit_loop] in H.
  apply bind_inv in H. destruct H as (sz & s1 & H1 & H).
  apply get_size_inv in H1. destruct H1 as (-> & -> & Hb).
  destruct (_ >? 0).
  - apply bind_inv in H. destruct H as (sz & s1 & H1 & H).
    apply get_size_inv in H1. destruct H1 as (-> & -> & _).
    destruct (asize <=? _).
    + apply ret_inv in H. destruct H as (-> & ->). auto.
    + apply bind_inv in H. destruct H as (nx & s1 & H1 & H).
      apply load_inv in H1. destruct H1 as (-> & -> & _).
      apply IH in H. exact H.
  - apply ret_inv in H. destruct H as (-> & ->). auto.
Qed.

Lemma find_fit_inv fuel asize s r s' :
  find_fit fuel asize s = Ok r s' ->
  s' = s /\ (r = NULL \/ in_bounds s r = true).
Proof.
  unfold find_fit. intros H.
  apply bind_inv in H. destruct H as (root & s1 & H1 & H).
  apply gets_inv in H1. destruct H1 as (-> & ->).
  apply bind_inv in H. destruct H as (nx & s1 & H1 & H).
  apply load_inv in H1. destruct H1 as (-> & -> & _).
  apply find_fit_loop_inv in H. exact H.
Qed.

(** The overflow guard of [calloc]. *)
Lemma calloc_overflow fuel count size s :
  0 < count < 2 ^ 64 -> 0 <= size < 2 ^ 64 -> 2 ^ 64 <= count * size ->
  calloc fuel count size s = Ok NULL s.
Proof.
  intros Hc Hs Ho. unfold calloc, udiv.
  destruct (Z.eqb_spec count 0) as [|_]; [lia|].
  unfold bind, ret.
  assert (Hne : wmul count size / count <> size).
  { unfold wmul, w64. rewrite modulus_eq.
    change (2 ^ 64) with 18446744073709551616 in *.
    assert (H1 : (count * size) mod 18446744073709551616
                 <= count * size - 18446744073709551616).
    { pose proof (Z.div_mod (count * size) 18446744073709551616).
      assert (1 <= count * size / 18446744073709551616)
        by (apply Z.div_le_lower_bound; lia).
      lia. }
    assert ((count * size) mod 18446744073709551616 / count < size).
    { apply Z.div_lt_upper_bound; [lia|]. nia. }
    lia. }
  destruct (Z.eqb_spec (wmul count size / count) size); [contradiction|reflexivity].
Qed.

(** ** The block chain *)

Lemma seg_le m : forall l a e, seg m a l e -> a <= e.
Proof.
  induction l as [|[[b sz] al] l IH]; intros a e H; cbn [seg] in H.
  - lia.
  - destruct H as (_ & Hs & _ & _ & _ & H). apply IH in H. lia.
Qed.

Lemma seg_app m : forall l1 l2 a e,
  seg m a (l1 ++ l2) e <-> exists c, seg m a l1 c /\ seg m c l2 e.
Proof.
  induction l1 as [|[[b sz] al] l1 IH]; intros l2 a e; cbn [seg app].
  - split.
    + intros H. exists a. auto.
    + intros (c & -> & H). exact H.
  - split.
    + intros (Hb & Hs & Hm & Hh & Hf & H). apply IH in H.
      destruct H as (c & H1 & H2). exists c. auto 10.
    + intros (c & (Hb & Hs & Hm & Hh & Hf & H1) & H2).
      repeat (split; [assumption|]). apply IH. exists c. auto.
Qed.

Lemma seg_frame m m' : forall l a e,
  (forall y, a <= y -> y + 8 <= e -> load64 m' y = load64 m y) ->
  seg m a l e -> seg m' a l e.
Proof.
  induction l as [|[[b sz] al] l IH]; intros a e Hfr H; cbn [seg] in *.
  - exact H.
  - destruct H as (Hb & Hs & Hm & Hh & Hf & H).
    pose proof (seg_le _ _ _ _ H) as Hle.
    repeat split; try assumption.
    + rewrite Hfr by lia. exact Hh.
    + rewrite Hfr by lia. exact Hf.
    + apply IH; [|exact H]. intros y Hy1 Hy2. apply Hfr; lia.
Qed.

Lemma seg_in m : forall l a e x sz al,
  seg m a l e -> In (x, sz, al) l ->
  a <= x /\ x + sz <= e /\ 32 <= sz /\ sz mod 16 = 0 /\
  load64 m x = pack sz al /\ load64 m (x + sz - 8) = pack sz al.
Proof.
  induction l as [|[[b sz'] al'] l IH]; intros a e x sz al H Hin; [destruct Hin|].
  cbn [seg] in H. destruct H as (Hb & Hs & Hm & Hh & Hf & H).
  pose proof (seg_le _ _ _ _ H) as Hle.
  destruct Hin as [Heq|Hin].
  - inversion Heq; subst. repeat split; try assumption; lia.
  - destruct (IH _ _ _ _ _ H Hin) as (? & ? & ? & ? & ? & ?).
    repeat split; try assumption; lia.
Qed.

Lemma seg_split_in m l a e x sz al :
  seg m a l e -> In (x, sz, al) l ->
  exists l1 l2, l = l1 ++ (x, sz, al) :: l2 /\
                seg m a l1 x /\ seg m (x + sz) l2 e.
Proof.
  intros H Hin. destruct (in_split _ _ Hin) as (l1 & l2 & ->).
  exists l1, l2. split; [reflexivity|].
  apply seg_app in H. destruct H as (c & H1 & H2).
  cbn [seg] in H2. destruct H2 as (-> & _ & _ & _ & _ & H2). auto.
Qed.

(** Two blocks of a chain at the same address are the same block, and two
    at different addresses do not overlap. *)
Lemma seg_disjoint m l a e x sz al y sz' al' :
  seg m a l e -> In (x, sz, al) l -> In (y, sz', al') l ->
  (x = y /\ sz = sz' /\ al = al') \/ x + sz <= y \/ y + sz' <= x.
Proof.
  intros H Hx Hy.
  destruct (seg_split_in _ _ _ _ _ _ _ H Hx) as (l1 & l2 & -> & H1 & H2).
  apply in_app_or in Hy. destruct Hy as [Hy|[Hy|Hy]].
  - right. right. eapply seg_in in Hy; [|exact H1]. lia.
  - left. inversion Hy. auto.
  - right. left. eapply seg_in in Hy; [|exact H2]. lia.
Qed.

Lemma seg_store_outside m l a e y v :
  y + 8 <= a \/ e <= y ->
  seg m a l e -> seg (store64 m y v) a l e.
Proof.
  intros Hy. apply seg_frame. intros z Hz1 Hz2.
  apply load64_store64_other. lia.
Qed.

(** A store strictly between the header and the footer of a block leaves
    the chain as it is. *)
Lemma seg_store_interior m l a e x sz al y v :
  seg m a l e -> In (x, sz, al) l ->
  x + 8 <= y -> y + 8 <= x + sz - 8 ->
  seg (store64 m y v) a l e.
Proof.
  intros H Hin Hy1 Hy2.
  destruct (seg_split_in _ _ _ _ _ _ _ H Hin) as (l1 & l2 & -> & H1 & H2).
  apply seg_in with (x := x) (sz := sz) (al := al) in H; [|apply in_elt].
  destruct H as (_ & _ & Hs & Hm & Hh & Hf).
  apply seg_app. exists x. split.
  - apply seg_store_outside; [lia|exact H1].
  - cbn [seg]. repeat split; try assumption.
    + rewrite load64_store64_other by lia. exact Hh.
    + rewrite load64_store64_other by lia. exact Hf.
    + apply seg_store_outside; [lia|exact H2].
Qed.

Lemma seg_aligned m : forall l a e x sz al,
  seg m a l e -> a mod 16 = 8 -> In (x, sz, al) l -> x mod 16 = 8.
Proof.
  induction l as [|[[b sz'] al'] l IH]; intros a e x sz al H Ha Hin; [destruct Hin|].
  cbn [seg] in H. destruct H as (Hb & Hs & Hm & Hh & Hf & H).
  destruct Hin as [Heq|Hin].
  - inversion Heq; subst. exact Ha.
  - eapply IH; [exact H| |exact Hin]. mlia.
Qed.

Lemma seg_end_aligned m : forall l a e,
  seg m a l e -> a mod 16 = 8 -> e mod 16 = 8.
Proof.
  induction l as [|[[b sz'] al'] l IH]; intros a e H Ha; cbn [seg] in H.
  - subst. exact Ha.
  - destruct H as (Hb & Hs & Hm & Hh & Hf & H).
    eapply IH; [exact H|]. mlia.
Qed.

(** ** The doubly linked list, over two pointer maps *)

Lemma fupd_same f k v : fupd f k v k = v.
Proof. unfold fupd. rewrite Z.eqb_refl. reflexivity. Qed.

Lemma fupd_other f k v x : x <> k -> fupd f k v x = f x.
Proof. intros H. unfold fupd. destruct (Z.eqb_spec x k); [contradiction|reflexivity]. Qed.

Lemma tail_of_in : forall l x, In (tail_of x l) (x :: l).
Proof.
  induction l as [|y l IH]; intros x; cbn [tail_of].
  - left. reflexivity.
  - right. apply IH.
Qed.

Lemma dllf_ext nx pv nx' pv' root : forall l x,
  (forall y, In y (x :: l) -> nx' y = nx y) ->
  (forall y, In y (root :: l) -> pv' y = pv y) ->
  dllf nx pv root x l -> dllf nx' pv' root x l.
Proof.
  induction l as [|z l IH]; intros x Hn Hp H; cbn [dllf] in *.
  - destruct H as (H1 & H2). rewrite Hn, Hp by (simpl; auto). auto.
  - destruct H as (H1 & H2 & H3).
    rewrite Hn, Hp by (simpl; auto). repeat split; try assumption.
    apply IH; [| |exact H3].
    + intros y Hy. apply Hn. simpl in *. tauto.
    + intros y Hy. apply Hp. simpl in *. tauto.
Qed.

(** Appending [new] behind the last node, with the four pointer updates of
    [add_to_list]. *)
Lemma dllf_add nx pv root new : forall l x,
  dllf nx pv root x l -> NoDup (x :: l) -> ~ In root l ->
  ~ In new (x :: l) -> new <> root ->
  dllf (fupd (fupd nx (tail_of x l) new) new root)
       (fupd (fupd pv root new) new (tail_of x l)) root x (l ++ [new]).
Proof.
  induction l as [|y l IH]; intros x H Hnd Hr Hnew Hnr; cbn [dllf tail_of app] in *.
  - destruct H as (H1 & H2).
    assert (x <> new) by (intros ->; apply Hnew; left; reflexivity).
    rewrite (fupd_other _ new root x) by assumption.
    rewrite !fupd_same.
    rewrite (fupd_other _ new x root) by congruence.
    rewrite fupd_same. auto.
  - destruct H as (H1 & H2 & H3).
    apply NoDup_cons_iff in Hnd; destruct Hnd as [Hx Hnd'].
    assert (x <> new) by (intros ->; apply Hnew; left; reflexivity).
    assert (y <> new) by (intros ->; apply Hnew; right; left; reflexivity).
    assert (y <> root) by (intros ->; apply Hr; left; reflexivity).
    assert (x <> tail_of y l).
    { intros ->. apply Hx. apply tail_of_in. }
    rewrite !(fupd_other _ _ _ x) by assumption.
    rewrite !(fupd_other _ _ _ y) by assumption.
    repeat split; try assumption.
    apply IH; try assumption.
    + intros Hin. apply Hr. right. exact Hin.
    + intros Hin. apply Hnew. right. exact Hin.
Qed.

(** Unlinking [t], with the two pointer updates of [remove_from_list]. *)
Lemma dllf_remove nx pv root t l2 : forall l1 x,
  dllf nx pv root x (l1 ++ t :: l2) -> NoDup (x :: l1 ++ t :: l2) ->
  ~ In root (l1 ++ t :: l2) ->
  pv t = tail_of x l1 /\ nx t = hd root l2 /\
  dllf (fupd nx (pv t) (nx t)) (fupd pv (nx t) (pv t)) root x (l1 ++ l2).
Proof.
  induction l1 as [|y l1 IH]; intros x H Hnd Hr; cbn [dllf tail_of app] in *.
  - destruct H as (H1 & H2 & H3).
    apply NoDup_cons_iff in Hnd; destruct Hnd as [Hx Hnd'].
    apply NoDup_cons_iff in Hnd'; destruct Hnd' as [Ht Hnd''].
    assert (Hnt : nx t = hd root l2).
    { destruct l2; cbn [dllf hd] in *; tauto. }
    repeat split; try assumption.
    rewrite H2.
    destruct l2 as [|z l2]; cbn [dllf hd] in *.
    + destruct H3 as (H3 & H4). rewrite H3, !fupd_same. auto.
    + destruct H3 as (H3 & H4 & H5). rewrite H3, !fupd_same.
      repeat split; try reflexivity.
      apply NoDup_cons_iff in Hnd''; destruct Hnd'' as [Hz Hnd3].
      apply dllf_ext with (nx := nx) (pv := pv); [| |exact H5].
      * intros y Hy. apply fupd_other. intros ->. apply Hx. right. exact Hy.
      * intros y Hy. apply fupd_other. intros ->. destruct Hy as [Hy|Hy].
        -- apply Hr. right. left. symmetry. exact Hy.
        -- apply Hz. exact Hy.
  - destruct H as (H1 & H2 & H3).
    apply NoDup_cons_iff in Hnd; destruct Hnd as [Hx Hnd'].
    destruct (IH y H3 Hnd') as (Hp & Hn & Hd).
    { intros Hin. apply Hr. right. exact Hin. }
    repeat split; try assumption.
    + rewrite fupd_other; [exact H1|].
      rewrite Hp. intros ->. apply Hx.
      pose proof (tail_of_in l1 y) as Hin.
      destruct Hin as [Hin|Hin].
      * left. exact Hin.
      * right. apply in_or_app. left. exact Hin.
    + rewrite fupd_other; [exact H2|].
      rewrite Hn. intros ->.
      destruct l2 as [|z l2]; cbn [hd] in *.
      * apply Hr. left. reflexivity.
      * apply NoDup_cons_iff in Hnd'; destruct Hnd' as [Hy Hnd''].
        apply Hy. apply in_or_app. right. right. left. reflexivity.
Qed.

(** ** List pointers in memory *)

Lemma nxt_store_nxt m k v x :
  0 <= v < 18446744073709551616 ->
  x = k \/ x + 16 <= k \/ k + 16 <= x ->
  nxt (store64 m (k + 16) v) x = fupd (nxt m) k v x.
Proof.
  intros Hv Hs. unfold nxt, fupd. destruct (Z.eqb_spec x k) as [->|Hne].
  - apply load64_store64_same. exact Hv.
  - apply load64_store64_other. lia.
Qed.

Lemma prv_store_nxt m k v x :
  x = k \/ x + 16 <= k \/ k + 16 <= x ->
  prv (store64 m (k + 16) v) x = prv m x.
Proof. intros Hs. unfold prv. apply load64_store64_other. lia. Qed.

Lemma prv_store_prv m k v x :
  0 <= v < 18446744073709551616 ->
  x = k \/ x + 16 <= k \/ k + 16 <= x ->
  prv (store64 m (k + 8) v) x = fupd (prv m) k v x.
Proof.
  intros Hv Hs. unfold prv, fupd. destruct (Z.eqb_spec x k) as [->|Hne].
  - apply load64_store64_same. exact Hv.
  - apply load64_store64_other. lia.
Qed.

Lemma nxt_store_prv m k v x :
  x = k \/ x + 16 <= k \/ k + 16 <= x ->
  nxt (store64 m (k + 8) v) x = nxt m x.
Proof. intros Hs. unfold nxt. apply load64_store64_other. lia. Qed.

(** ** Nodes and their cells *)

Lemma base_brk s bl : base s bl -> heap_lo s + 40 <= heap_brk s.
Proof. intros H. apply seg_le with (m := mem s) (l := bl). apply H. Qed.

Lemma node_range s bl x :
  base s bl -> node s bl x -> heap_lo s + 8 <= x /\ x + 32 <= heap_brk s.
Proof.
  intros Hb [->|(sz & al & Hin)].
  - pose proof (base_brk _ _ Hb). lia.
  - eapply seg_in in Hin; [|apply Hb]. lia.
Qed.

Lemma node_spaced s bl x y :
  base s bl -> node s bl x -> node s bl y ->
  x = y \/ x + 32 <= y \/ y + 32 <= x.
Proof.
  intros Hb [->|(sz & al & Hx)] [->|(sz' & al' & Hy)].
  - auto.
  - eapply seg_in in Hy; [|apply Hb]. lia.
  - eapply seg_in in Hx; [|apply Hb]. lia.
  - pose proof (seg_disjoint _ _ _ _ _ _ _ _ _ _ (b_seg _ _ Hb) Hx Hy) as Hd.
    eapply seg_in in Hx; [|apply Hb]. eapply seg_in in Hy; [|apply Hb]. lia.
Qed.

Lemma base_set_counter s bl c : base s bl -> base (set_counter s c) bl.
Proof. intros [? ? ? ? ? ? ? ? ?]. constructor; assumption. Qed.

(** Writing a list pointer leaves the chain and the root's tags alone. *)
Lemma base_store_cell s bl y v :
  base s bl -> cell s bl y -> base (set_mem s (store64 (mem s) y v)) bl.
Proof.
  intros Hb (x & Hx & Hy).
  pose proof (base_brk _ _ Hb) as Hbrk.
  destruct Hb as [H1 H2 H3 H4 H5 H6 H7 H8 H9].
  constructor; cbn [set_mem mem heap_lo heap_brk heap_max free_root prologue];
    try assumption.
  - rewrite load64_store64_other; [assumption|].
    destruct Hx as [->|(sz & al & Hin)]; [lia|].
    eapply seg_in in Hin; [|exact H9]. lia.
  - rewrite load64_store64_other; [assumption|].
    destruct Hx as [->|(sz & al & Hin)]; [lia|].
    eapply seg_in in Hin; [|exact H9]. lia.
  - rewrite load64_store64_other; [assumption|].
    destruct Hx as [->|(sz & al & Hin)]; [lia|].
    eapply seg_in in Hin; [|exact H9]. lia.
  - destruct Hx as [->|(sz & al & Hin)].
    + apply seg_store_outside; [lia|assumption].
    + eapply seg_store_interior; [exact H9|exact Hin| |].
      * lia.
      * eapply seg_in in Hin; [|exact H9]. lia.
Qed.

(** ** The free list inside a heap *)

Lemma heap_node s bl fl x : heap s bl fl -> In x (heap_lo s + 8 :: fl) -> node s bl x.
Proof.
  intros H [<-|Hin]; [left; reflexivity|].
  right. destruct (h_sound _ _ _ H _ Hin) as (sz & Hsz). eauto.
Qed.

Lemma heap_root_notin s bl fl : heap s bl fl -> ~ In (heap_lo s + 8) fl.
Proof.
  intros H Hin. destruct (h_sound _ _ _ H _ Hin) as (sz & Hsz).
  eapply seg_in in Hsz; [|apply H]. lia.
Qed.

Lemma heap_nodup_root s bl fl : heap s bl fl -> NoDup (heap_lo s + 8 :: fl).
Proof.
  intros H. constructor; [apply (heap_root_notin _ _ _ H)|apply H].
Qed.

Lemma heap_set_counter s bl fl c : heap s bl fl -> heap (set_counter s c) bl fl.
Proof.
  intros [Hb Hd Hn Hs]. constructor; try assumption.
  apply base_set_counter. exact Hb.
Qed.

Lemma spaced16 x y : x = y \/ x + 32 <= y \/ y + 32 <= x ->
  x = y \/ x + 16 <= y \/ y + 16 <= x.
Proof. lia. Qed.

Lemma hd_in (root : Z) l : In (hd root l) (root :: l).
Proof. destruct l; simpl; auto. Qed.

(** The list pointers of the root and of a listed block lie outside every
    allocated block. *)
Lemma free_cell_outside s bl fl p c csz x :
  heap s bl fl -> In p (heap_lo s + 8 :: fl) -> In (c, csz, true) bl ->
  c <= x < c + csz -> x < p + 8 \/ p + 24 <= x.
Proof.
  intros H Hp Hc Hx. pose proof (h_base _ _ _ H) as Hb.
  pose proof (seg_in _ _ _ _ _ _ _ (b_seg _ _ Hb) Hc) as Bc.
  destruct Hp as [<-|Hp]; [lia|].
  destruct (h_sound _ _ _ H _ Hp) as (sz & Hin).
  pose proof (seg_in _ _ _ _ _ _ _ (b_seg _ _ Hb) Hin) as Bp.
  destruct (seg_disjoint _ _ _ _ _ _ _ _ _ _ (b_seg _ _ Hb) Hin Hc)
    as [(_ & _ & E)|Hd]; [discriminate|lia].
Qed.

Lemma remove_from_list_full s bl l1 t l2 :
  heap s bl (l1 ++ t :: l2) ->
  exists s', remove_from_list t s = Ok tt s' /\
             heap s' bl (l1 ++ l2) /\ same_region s s' /\
             keeps_allocated s s' bl /\
             slack s' (l1 ++ l2) = slack s (l1 ++ t :: l2).
Proof.
  intros H. pose proof (h_base _ _ _ H) as Hb.
  set (root := heap_lo s + 8) in *.
  pose proof (heap_nodup_root _ _ _ H) as Hnd. fold root in Hnd.
  pose proof (heap_root_notin _ _ _ H) as Hrn. fold root in Hrn.
  destruct (dllf_remove _ _ _ _ _ _ _ (h_dll _ _ _ H) Hnd Hrn) as (Hp & Hn & Hd).
  assert (Hnode : forall x, In x (root :: l1 ++ t :: l2) -> node s bl x).
  { intros x Hx. eapply heap_node; eauto. }
  assert (Ht : node s bl t).
  { apply Hnode. right. apply in_elt. }
  assert (Hpi : In (prv (mem s) t) (root :: l1 ++ t :: l2)).
  { rewrite Hp. pose proof (tail_of_in l1 root) as Hi.
    destruct Hi as [Hi|Hi]; [left; exact Hi|right; apply in_or_app; left; exact Hi]. }
  assert (Hni : In (nxt (mem s) t) (root :: l1 ++ t :: l2)).
  { rewrite Hn. pose proof (hd_in root l2) as Hi.
    destruct Hi as [Hi|Hi]; [left; exact Hi|right; apply in_or_app; right; right; exact Hi]. }
  assert (Hpn : node s bl (prv (mem s) t)) by (apply Hnode; exact Hpi).
  assert (Hnn : node s bl (nxt (mem s) t)) by (apply Hnode; exact Hni).
  pose proof (node_range _ _ _ Hb Ht) as Rt.
  pose proof (node_range _ _ _ Hb Hpn) as Rp.
  pose proof (node_range _ _ _ Hb Hnn) as Rn.
  pose proof (b_max _ _ Hb) as Hmax.
  pose proof (b_lo_pos _ _ Hb) as Hlo.
  set (p := prv (mem s) t) in *. set (n := nxt (mem s) t) in *.
  set (m1 := store64 (mem s) (p + 16) n).
  set (m2 := store64 m1 (n + 8) p).
  exists (set_counter (set_mem (set_mem s m1) m2) (counter_global s - 1)).
  split; [|split; [|split; [|split]]].
  - unfold remove_from_list, get_prev_free, get_next_free, set_next_free,
      set_prev_free, prev_offset, next_offset.
    rewrite !(padd_small t) by lia.
    erewrite bind_ok by (apply load_ok; apply in_bounds_iff; lia).
    erewrite bind_ok by (apply load_ok; apply in_bounds_iff; lia).
    fold (prv (mem s) t). fold (nxt (mem s) t). fold p. fold n.
    rewrite (padd_small p), (padd_small n) by lia.
    erewrite bind_ok by (apply store_ok; apply in_bounds_iff; lia).
    erewrite bind_ok
      by (apply store_ok; apply in_bounds_iff; cbn [set_mem heap_lo heap_brk]; lia).
    reflexivity.
  - apply heap_set_counter.
    assert (Hb1 : base (set_mem s m1) bl).
    { apply base_store_cell; [exact Hb|]. exists p. auto. }
    assert (Hb2 : base (set_mem (set_mem s m1) m2) bl).
    { apply (base_store_cell (set_mem s m1) bl (n + 8) p); [exact Hb1|].
      exists n. split; [exact Hnn|auto]. }
    constructor.
    + exact Hb2.
    + cbn [set_mem mem heap_lo]. fold root. unfold dll.
      eapply dllf_ext; [| |exact Hd].
      * intros x Hx. unfold m2, m1.
        assert (Hxn : node s bl x).
        { apply Hnode. destruct Hx as [Hx|Hx]; [left; exact Hx|].
          right. apply in_app_or in Hx. apply in_or_app. simpl. tauto. }
        rewrite nxt_store_prv by (apply spaced16; eapply node_spaced; eauto).
        rewrite nxt_store_nxt; [reflexivity|apply load64_range|].
        apply spaced16; eapply node_spaced; eauto.
      * intros x Hx. unfold m2, m1.
        assert (Hxn : node s bl x).
        { apply Hnode. destruct Hx as [Hx|Hx]; [left; exact Hx|].
          right. apply in_app_or in Hx. apply in_or_app. simpl. tauto. }
        rewrite prv_store_prv;
          [|apply load64_range|apply spaced16; eapply node_spaced; eauto].
        unfold fupd. destruct (x =? n); [reflexivity|].
        apply prv_store_nxt. apply spaced16; eapply node_spaced; eauto.
    + apply NoDup_remove_1 with (a := t). apply H.
    + intros a Ha. apply (h_sound _ _ _ H).
      apply in_app_or in Ha. apply in_or_app. simpl. tauto.
  - repeat split.
  - intros c csz x Hc Hx. cbn [set_counter set_mem mem]. unfold m2, m1, store64.
    pose proof (free_cell_outside _ _ _ _ _ _ _ H Hpi Hc Hx) as Op.
    pose proof (free_cell_outside _ _ _ _ _ _ _ H Hni Hc Hx) as On.
    fold p in Op. fold n in On.
    rewrite !store_le_other by (simpl; lia). reflexivity.
  - unfold slack. cbn [set_counter counter_global].
    rewrite !length_app. cbn [length]. lia.
Qed.

Ltac inb :=
  apply in_bounds_iff;
  cbn [set_mem set_counter set_brk set_free_root set_prologue heap_lo heap_brk];
  lia.

Lemma dllf_tail nx pv root : forall l x,
  dllf nx pv root x l -> pv root = tail_of x l.
Proof.
  induction l as [|y l IH]; intros x H; cbn [dllf tail_of] in *.
  - tauto.
  - apply IH. tauto.
Qed.

Lemma fupd_congr f g k v x : f x = g x -> fupd f k v x = fupd g k v x.
Proof. intros H. unfold fupd. rewrite H. reflexivity. Qed.

(** So do those of a free block that is not on the list. *)
Lemma unlisted_cell_outside s bl p psz c csz x :
  base s bl -> In (p, psz, false) bl -> In (c, csz, true) bl ->
  c <= x < c + csz -> x < p + 8 \/ p + 24 <= x.
Proof.
  intros Hb Hin Hc Hx.
  pose proof (seg_in _ _ _ _ _ _ _ (b_seg _ _ Hb) Hin) as Bp.
  destruct (seg_disjoint _ _ _ _ _ _ _ _ _ _ (b_seg _ _ Hb) Hin Hc)
    as [(_ & _ & E)|Hd]; [discriminate|lia].
Qed.

Lemma add_to_list_full s bl fl new :
  heap s bl fl -> (exists sz, In (new, sz, false) bl) -> ~ In new fl ->
  exists s', add_to_list new s = Ok tt s' /\
             heap s' bl (fl ++ [new]) /\ same_region s s' /\
             keeps_allocated s s' bl /\
             slack s' (fl ++ [new]) = slack s fl.
Proof.
  intros H (nsz & Hnew) Hnin. pose proof (h_base _ _ _ H) as Hb.
  set (root := heap_lo s + 8) in *.
  pose proof (heap_nodup_root _ _ _ H) as Hnd. fold root in Hnd.
  pose proof (heap_root_notin _ _ _ H) as Hrn. fold root in Hrn.
  pose proof (dllf_tail _ _ _ _ _ (h_dll _ _ _ H)) as Htl. fold root in Htl.
  assert (Hnode : forall x, In x (root :: fl) -> node s bl x).
  { intros x Hx. eapply heap_node; eauto. }
  assert (Hr : node s bl root) by (left; reflexivity).
  assert (Hn : node s bl new) by (right; eauto).
  assert (Ht : node s bl (tail_of root fl)).
  { apply Hnode. apply tail_of_in. }
  pose proof (node_range _ _ _ Hb Hr) as Rr.
  pose proof (node_range _ _ _ Hb Hn) as Rn.
  pose proof (node_range _ _ _ Hb Ht) as Rt.
  pose proof (b_max _ _ Hb) as Hmax.
  pose proof (b_lo_pos _ _ Hb) as Hlo.
  assert (Hnr : new <> root).
  { eapply seg_in in Hnew; [|apply Hb]. unfold root. lia. }
  set (tl := tail_of root fl) in *.
  set (m1 := store64 (mem s) (tl + 16) new).
  set (m2 := store64 m1 (new + 16) root).
  set (m3 := store64 m2 (root + 8) new).
  set (m4 := store64 m3 (new + 8) tl).
  exists (set_counter (set_mem (set_mem (set_mem (set_mem s m1) m2) m3) m4)
                      (counter_global s + 1)).
  split; [|split; [|split; [|split]]].
  - unfold add_to_list, get_prev_free, set_next_free, set_prev_free,
      prev_offset, next_offset.
    erewrite bind_ok by reflexivity.
    rewrite (b_root _ _ Hb). fold root.
    rewrite !(padd_small root), !(padd_small new) by lia.
    erewrite bind_ok by (apply load_ok; inb).
    fold (prv (mem s) root). rewrite Htl. fold tl.
    rewrite (padd_small tl) by lia.
    erewrite bind_ok by (apply store_ok; inb).
    erewrite bind_ok by (apply store_ok; inb).
    erewrite bind_ok by (apply store_ok; inb).
    erewrite bind_ok by (apply store_ok; inb).
    reflexivity.
  - apply heap_set_counter.
    assert (Hb1 : base (set_mem s m1) bl).
    { apply base_store_cell; [exact Hb|]. exists tl. auto. }
    assert (Hb2 : base (set_mem (set_mem s m1) m2) bl).
    { apply (base_store_cell (set_mem s m1)); [exact Hb1|]. exists new. auto. }
    assert (Hb3 : base (set_mem (set_mem (set_mem s m1) m2) m3) bl).
    { apply (base_store_cell (set_mem (set_mem s m1) m2)); [exact Hb2|].
      exists root. auto. }
    assert (Hb4 : base (set_mem (set_mem (set_mem (set_mem s m1) m2) m3) m4) bl).
    { apply (base_store_cell (set_mem (set_mem (set_mem s m1) m2) m3));
        [exact Hb3|]. exists new. auto. }
    assert (Hnode' : forall x, In x (root :: fl ++ [new]) -> node s bl x).
    { intros x [Hx|Hx]; [apply Hnode; left; exact Hx|].
      apply in_app_or in Hx. destruct Hx as [Hx|[<-|[]]]; [|exact Hn].
      apply Hnode. right. exact Hx. }
    assert (Hnew_r : 0 <= new < 18446744073709551616) by lia.
    assert (Hroot_r : 0 <= root < 18446744073709551616) by lia.
    assert (Htl_r : 0 <= tl < 18446744073709551616) by lia.
    constructor.
    + exact Hb4.
    + cbn [set_mem mem heap_lo]. fold root. unfold dll.
      eapply dllf_ext;
        [| |apply (dllf_add _ _ root new _ _ (h_dll _ _ _ H) Hnd Hrn)].
      * intros x Hx. unfold m4, m3, m2, m1.
        assert (Hxn : node s bl x) by (apply Hnode'; exact Hx).
        rewrite !nxt_store_prv by (apply spaced16; eapply node_spaced; eauto).
        rewrite nxt_store_nxt;
          [|exact Hroot_r|apply spaced16; eapply node_spaced; eauto].
        apply fupd_congr.
        fold tl. apply nxt_store_nxt; [exact Hnew_r|].
        apply spaced16; eapply node_spaced; eauto.
      * intros x Hx. unfold m4, m3, m2, m1.
        assert (Hxn : node s bl x).
        { apply Hnode'. destruct Hx as [Hx|Hx]; [left|right]; exact Hx. }
        rewrite prv_store_prv;
          [|exact Htl_r|apply spaced16; eapply node_spaced; eauto].
        fold tl. apply fupd_congr.
        rewrite prv_store_prv;
          [|exact Hnew_r|apply spaced16; eapply node_spaced; eauto].
        apply fupd_congr.
        rewrite !prv_store_nxt by (apply spaced16; eapply node_spaced; eauto).
        reflexivity.
      * intros [Hx|Hx]; [apply Hnr; symmetry; exact Hx|contradiction].
      * exact Hnr.
    + apply NoDup_app; [apply H|repeat constructor; simpl; tauto|].
      intros x Hx [<-|[]]. contradiction.
    + intros a Ha. apply in_app_or in Ha. destruct Ha as [Ha|[<-|[]]].
      * apply (h_sound _ _ _ H). exact Ha.
      * eauto.
  - repeat split.
  - intros c csz x Hc Hx. cbn [set_counter set_mem mem].
    unfold m4, m3, m2, m1, store64.
    pose proof (free_cell_outside _ _ _ _ _ _ _ H (tail_of_in fl root) Hc Hx)
      as Ot.
    pose proof (free_cell_outside _ _ _ _ _ _ _ H (or_introl eq_refl) Hc Hx)
      as Or.
    pose proof (unlisted_cell_outside _ _ _ _ _ _ _ Hb Hnew Hc Hx) as On.
    fold root in Ot, Or. fold tl in Ot.
    rewrite !store_le_other by (simpl; lia). reflexivity.
  - unfold slack. cbn [set_counter counter_global].
    rewrite length_app. cbn [length]. lia.
Qed.

Lemma add_to_list_spec s bl fl new :
  heap s bl fl -> (exists sz, In (new, sz, false) bl) -> ~ In new fl ->
  exists s', add_to_list new s = Ok tt s' /\
             heap s' bl (fl ++ [new]) /\ same_region s s'.
Proof.
  intros H Hn Hnin.
  destruct (add_to_list_full _ _ _ _ H Hn Hnin) as (s' & E & H' & R & _).
  eauto.
Qed.


(** ** Writing boundary tags *)

Lemma w64_idem_sub x n : w64 (w64 x - n) = w64 (x - n).
Proof. unfold w64. apply Zminus_mod_idemp_l. Qed.

Lemma w64_idem_add x n : w64 (w64 x + n) = w64 (x + n).
Proof. unfold w64. apply Zplus_mod_idemp_l. Qed.

Lemma footer_addr b sz :
  psub (padd (header_to_payload b) sz) dsize = w64 (b + sz - 8).
Proof.
  unfold psub, padd, header_to_payload, padd, content_offset, dsize, wsize.
  rewrite w64_idem_add, w64_idem_sub. f_equal. lia.
Qed.

Lemma write_block_ok s b sz al :
  b <> free_root s ->
  heap_lo s <= b -> 16 <= sz -> b + sz <= heap_brk s ->
  0 <= heap_lo s -> heap_brk s < 2 ^ 64 -> sz mod 16 = 0 ->
  write_block b sz al s =
  Ok tt (set_mem s (store64 (store64 (mem s) b (pack sz al))
                            (b + sz - 8) (pack sz al))).
Proof.
  intros Hr H1 H2 H3 H4 H5 H6. unfold write_block.
  erewrite bind_ok by (apply store_ok; inb).
  erewrite bind_ok by reflexivity.
  cbn [set_mem free_root].
  destruct (Z.eqb_spec b (free_root s)) as [|_]; [contradiction|].
  unfold get_size.
  erewrite bind_ok by (erewrite bind_ok by (apply load_ok; inb); reflexivity).
  cbn [set_mem mem].
  rewrite load64_store64_same by (apply pack_range; lia).
  rewrite extract_size_pack by lia.
  rewrite footer_addr. rewrite w64_small by lia.
  rewrite store_ok by inb. reflexivity.
Qed.

Lemma seg_write_one m b sz al :
  32 <= sz -> sz mod 16 = 0 -> 0 <= sz < 2 ^ 64 ->
  seg (store64 (store64 m b (pack sz al)) (b + sz - 8) (pack sz al))
      b [(b, sz, al)] (b + sz).
Proof.
  intros H1 H2 H3. cbn [seg]. repeat split; try assumption.
  - rewrite load64_store64_other by lia.
    apply load64_store64_same. apply pack_range; lia.
  - apply load64_store64_same. apply pack_range; lia.
Qed.

(** A state with the same region and the same first five words has the
    same root and prologue. *)
Lemma base_frame s s' bl bl' :
  base s bl -> same_region s s' ->
  (forall y, heap_lo s <= y -> y + 8 <= heap_lo s + 40 ->
             load64 (mem s') y = load64 (mem s) y) ->
  seg (mem s') (heap_lo s + 40) bl' (heap_brk s) ->
  base s' bl'.
Proof.
  intros [H1 H2 H3 H4 H5 H6 H7 H8 H9] (E1 & E2 & E3 & E4 & E5) Hfr Hseg.
  constructor; rewrite ?E1, ?E2, ?E3, ?E4, ?E5; try assumption.
  - rewrite Hfr by lia. assumption.
  - rewrite Hfr by lia. assumption.
  - rewrite Hfr by lia. assumption.
Qed.

Lemma heap_frame s s' bl bl' fl :
  heap s bl fl -> base s' bl' -> heap_lo s' = heap_lo s ->
  (forall x, In x (heap_lo s + 8 :: fl) ->
             nxt (mem s') x = nxt (mem s) x /\ prv (mem s') x = prv (mem s) x) ->
  (forall a, In a fl -> exists sz, In (a, sz, false) bl') ->
  heap s' bl' fl.
Proof.
  intros [Hb Hd Hn Hs] Hb' Elo Hfr Hsound.
  constructor; try assumption.
  rewrite Elo. unfold dll. eapply dllf_ext; [| |exact Hd].
  - intros y Hy. apply Hfr. exact Hy.
  - intros y Hy. apply Hfr. exact Hy.
Qed.

(** The nodes of the list that are blocks of [pre] or [post] keep clear of
    what lies between the two. *)
Lemma heap_outside s bl fl pre post b e :
  heap s bl fl ->
  seg (mem s) (heap_lo s + 40) pre b -> seg (mem s) e post (heap_brk s) ->
  (forall a, In a fl -> exists sz, In (a, sz, false) (pre ++ post)) ->
  outside (heap_lo s + 8 :: fl) b e.
Proof.
  intros H H1 H2 Hs x [<-|Hx].
  - apply seg_le in H1. lia.
  - destruct (Hs x Hx) as (sz & Hin). apply in_app_or in Hin.
    destruct Hin as [Hin|Hin].
    + eapply seg_in in Hin; [|exact H1]. lia.
    + eapply seg_in in Hin; [|exact H2]. lia.
Qed.

Lemma seg_size m : forall l a e,
  seg m a l e -> (e - a) mod 16 = 0 /\ (l <> [] -> 32 <= e - a).
Proof.
  induction l as [|[[b sz] al] l IH]; intros a e H; cbn [seg] in H.
  - subst. split; [|congruence]. replace (e - e) with 0 by lia. reflexivity.
  - destruct H as (Hb & Hs & Hm & Hh & Hf & H).
    pose proof (seg_le _ _ _ _ H). apply IH in H. destruct H as (H & _).
    split; [mlia|lia].
Qed.

(** Rewriting the bytes from [b] to [e] into the chain [X'], with every
    node of the list outside of them. *)
Lemma heap_region_rewrite s m' pre X X' post fl b e :
  heap s (pre ++ X ++ post) fl ->
  seg (mem s) (heap_lo s + 40) pre b -> seg (mem s) e post (heap_brk s) ->
  (forall a, In a fl -> exists sz, In (a, sz, false) (pre ++ post)) ->
  (forall y, y + 8 <= b \/ e <= y -> load64 m' y = load64 (mem s) y) ->
  seg m' b X' e ->
  heap (set_mem s m') (pre ++ X' ++ post) fl.
Proof.
  intros H Hpre Hpost Hs Hfr HX'.
  pose proof (seg_le _ _ _ _ Hpre) as L1.
  pose proof (seg_le _ _ _ _ HX') as L2.
  assert (Hb' : base (set_mem s m') (pre ++ X' ++ post)).
  { eapply base_frame; [apply H|repeat split| |].
    - intros y Hy1 Hy2. cbn [set_mem mem]. apply Hfr. lia.
    - cbn [set_mem mem]. apply seg_app. exists b. split.
      + eapply seg_frame; [|exact Hpre]. intros y Hy1 Hy2. apply Hfr. lia.
      + apply seg_app. exists e. split; [exact HX'|].
        eapply seg_frame; [|exact Hpost]. intros y Hy1 Hy2. apply Hfr. lia. }
  eapply heap_frame; [exact H|exact Hb'|reflexivity| |].
  - intros x Hx. cbn [set_mem mem].
    pose proof (heap_outside _ _ _ _ _ _ _ H Hpre Hpost Hs x Hx) as Ho.
    unfold nxt, prv. rewrite !Hfr by lia. auto.
  - intros a Ha. destruct (Hs a Ha) as (sz & Hin). exists sz.
    apply in_app_or in Hin. apply in_or_app.
    destruct Hin as [Hin|Hin]; [left; exact Hin|].
    right. apply in_or_app. right. exact Hin.
Qed.

Lemma heap_bounds s bl fl :
  heap s bl fl ->
  0 < heap_lo s /\ heap_lo s + 40 <= heap_brk s /\ heap_brk s < 2 ^ 64.
Proof.
  intros H. pose proof (h_base _ _ _ H) as Hb.
  pose proof (b_lo_pos _ _ Hb). pose proof (b_max _ _ Hb).
  pose proof (base_brk _ _ Hb). lia.
Qed.

(** [write_block] over a stretch [X] of whole blocks turns it into one. *)
Lemma heap_write_full s pre X post fl b e al :
  heap s (pre ++ X ++ post) fl ->
  seg (mem s) (heap_lo s + 40) pre b -> seg (mem s) b X e ->
  seg (mem s) e post (heap_brk s) -> X <> [] ->
  (forall a, In a fl -> exists sz, In (a, sz, false) (pre ++ post)) ->
  exists s', write_block b (e - b) al s = Ok tt s' /\
             heap s' (pre ++ (b, e - b, al) :: post) fl /\ same_region s s' /\
             keeps_allocated s s' (pre ++ post) /\ slack s' fl = slack s fl.
Proof.
  intros H Hpre HX Hpost Hne Hs.
  pose proof (heap_bounds _ _ _ H) as (B1 & B2 & B3).
  pose proof (seg_le _ _ _ _ Hpre) as L1.
  pose proof (seg_le _ _ _ _ Hpost) as L3.
  destruct (seg_size _ _ _ _ HX) as (Hm & Hsz). specialize (Hsz Hne).
  assert (He : e = b + (e - b)) by lia.
  set (sz := e - b) in *. clearbody sz. subst e.
  eexists. split; [|split; [|split; [|split]]].
  - apply write_block_ok; try lia.
    rewrite (b_root _ _ (h_base _ _ _ H)). lia.
  - apply (heap_region_rewrite s _ pre X [(b, sz, al)] post fl b (b + sz));
      try assumption.
    + intros y Hy. rewrite !load64_store64_other by lia. reflexivity.
    + apply seg_write_one; lia.
  - repeat split.
  - intros c csz x Hc Hx. cbn [set_mem mem]. unfold store64.
    assert (Ho : c + csz <= b \/ b + sz <= c).
    { apply in_app_or in Hc. destruct Hc as [Hc|Hc].
      - eapply seg_in in Hc; [|exact Hpre]. lia.
      - eapply seg_in in Hc; [|exact Hpost]. lia. }
    rewrite !store_le_other by (simpl; lia). reflexivity.
  - reflexivity.
Qed.

(** Two [write_block]s that split the block at [b] in two. *)
Lemma heap_split s pre post fl b bs asize :
  heap s (pre ++ [(b, bs, false)] ++ post) fl -> ~ In b fl ->
  32 <= asize -> asize mod 16 = 0 -> 32 <= bs - asize ->
  let w1 := pack asize true in
  let w2 := pack (bs - asize) false in
  let m' := store64 (store64 (store64 (store64 (mem s) b w1)
                       (b + asize - 8) w1) (b + asize) w2) (b + bs - 8) w2 in
  heap (set_mem s m')
       (pre ++ [(b, asize, true); (b + asize, bs - asize, false)] ++ post) fl.
Proof.
  intros H Hnin Ha1 Ha2 Hrem w1 w2 m'.
  pose proof (heap_bounds _ _ _ H) as (B1 & B2 & B3).
  pose proof (b_seg _ _ (h_base _ _ _ H)) as Hseg.
  apply seg_app in Hseg. destruct Hseg as (b' & Hpre & Hseg).
  apply seg_app in Hseg. destruct Hseg as (e & HX & Hpost).
  cbn [seg] in HX. destruct HX as (<- & Hbs & Hbm & _ & _ & <-).
  pose proof (seg_le _ _ _ _ Hpre) as L1.
  pose proof (seg_le _ _ _ _ Hpost) as L3.
  apply (heap_region_rewrite s m' pre [(b, bs, false)] _ post fl b (b + bs));
    try assumption.
  - intros a Ha. destruct (h_sound _ _ _ H a Ha) as (sz & Hin). exists sz.
    apply in_app_or in Hin. apply in_or_app.
    destruct Hin as [Hin|[Hin|Hin]]; [left; exact Hin| |right; exact Hin].
    inversion Hin; subst. contradiction.
  - intros y Hy. unfold m'. rewrite !load64_store64_other by lia. reflexivity.
  - assert (R1 : 0 <= pack asize true < 18446744073709551616)
      by (apply pack_range; lia).
    assert (R2 : 0 <= pack (bs - asize) false < 18446744073709551616)
      by (apply pack_range; [lia|mlia]).
    unfold m', w1, w2. cbn [seg]. repeat split; try assumption; try lia.
    + rewrite !load64_store64_other by lia. apply load64_store64_same. exact R1.
    + rewrite !load64_store64_other by lia. apply load64_store64_same. exact R1.
    + mlia.
    + rewrite !load64_store64_other by lia. apply load64_store64_same. exact R2.
    + replace (b + asize + (bs - asize) - 8) with (b + bs - 8) by lia.
      apply load64_store64_same. exact R2.
Qed.

(** ** Reading tags *)

Lemma base_block s bl b sz al :
  base s bl -> In (b, sz, al) bl ->
  heap_lo s + 40 <= b /\ b + sz <= heap_brk s /\ 32 <= sz /\ sz mod 16 = 0 /\
  load64 (mem s) b = pack sz al /\ load64 (mem s) (b + sz - 8) = pack sz al.
Proof. intros Hb Hin. eapply seg_in; [apply Hb|exact Hin]. Qed.

Lemma base_get_size s bl b sz al :
  base s bl -> In (b, sz, al) bl -> get_size b s = Ok sz s.
Proof.
  intros Hb Hin. pose proof (base_block _ _ _ _ _ Hb Hin) as (B1 & B2 & B3 & B4 & B5 & B6).
  pose proof (b_lo_pos _ _ Hb). pose proof (b_max _ _ Hb).
  unfold get_size. erewrite bind_ok by (apply load_ok; inb).
  rewrite B5, extract_size_pack by lia. reflexivity.
Qed.

Lemma base_get_alloc s bl b sz al :
  base s bl -> In (b, sz, al) bl -> get_alloc b s = Ok al s.
Proof.
  intros Hb Hin. pose proof (base_block _ _ _ _ _ Hb Hin) as (B1 & B2 & B3 & B4 & B5 & B6).
  unfold get_alloc. erewrite bind_ok by (apply load_ok; inb).
  rewrite B5, extract_alloc_pack by lia. reflexivity.
Qed.

Lemma same_region_trans s1 s2 s3 :
  same_region s1 s2 -> same_region s2 s3 -> same_region s1 s3.
Proof.
  intros (A1 & A2 & A3 & A4 & A5) (B1 & B2 & B3 & B4 & B5).
  repeat split; congruence.
Qed.

(** ** Removing by address *)

Lemma remove_notin (t : Z) l : ~ In t l -> remove Z.eq_dec t l = l.
Proof. apply notin_remove. Qed.

Lemma remove_split (t : Z) l :
  NoDup l -> In t l ->
  exists l1 l2, l = l1 ++ t :: l2 /\ remove Z.eq_dec t l = l1 ++ l2.
Proof.
  intros Hnd Hin. destruct (in_split _ _ Hin) as (l1 & l2 & ->).
  exists l1, l2. split; [reflexivity|].
  apply NoDup_remove_2 in Hnd.
  rewrite remove_app. cbn [remove].
  destruct (Z.eq_dec t t) as [_|Hne]; [|contradiction].
  rewrite !remove_notin; [reflexivity| |].
  - intros Hi. apply Hnd. apply in_or_app. right. exact Hi.
  - intros Hi. apply Hnd. apply in_or_app. left. exact Hi.
Qed.

Lemma remove_from_list_In_full s bl fl t :
  heap s bl fl -> In t fl ->
  exists s', remove_from_list t s = Ok tt s' /\
             heap s' bl (remove Z.eq_dec t fl) /\ same_region s s' /\
             keeps_allocated s s' bl /\
             slack s' (remove Z.eq_dec t fl) = slack s fl.
Proof.
  intros H Hin.
  destruct (remove_split t fl (h_nodup _ _ _ H) Hin) as (l1 & l2 & E & ->).
  subst fl. apply remove_from_list_full. exact H.
Qed.

(** ** Frames *)

Lemma keeps_allocated_step s s1 s2 bl bl1 :
  keeps_allocated s s1 bl -> keeps_allocated s1 s2 bl1 ->
  (forall c csz, In (c, csz, true) bl -> In (c, csz, true) bl1) ->
  keeps_allocated s s2 bl.
Proof.
  intros K1 K2 Hsub c csz x Hc Hx.
  rewrite (K2 c csz x (Hsub _ _ Hc) Hx). apply (K1 c csz x Hc Hx).
Qed.

Lemma keeps_allocated_sub s s' bl bl' :
  keeps_allocated s s' bl ->
  (forall c csz, In (c, csz, true) bl' -> In (c, csz, true) bl) ->
  keeps_allocated s s' bl'.
Proof. intros K Hsub c csz x Hc Hx. apply (K c csz x (Hsub _ _ Hc) Hx). Qed.

Lemma in_skip {A} (pre X post : list A) x :
  In x (pre ++ post) -> In x (pre ++ X ++ post).
Proof.
  intros H. apply in_app_or in H. apply in_or_app.
  destruct H as [H|H]; [left; exact H|right; apply in_or_app; right; exact H].
Qed.

Lemma in_skip_cons {A} (pre : list A) y post x :
  In x (pre ++ post) -> In x (pre ++ y :: post).
Proof. apply (in_skip pre [y] post). Qed.

Lemma in_skip_two {A} (pre : list A) y z post x :
  In x (pre ++ post) -> In x (pre ++ y :: z :: post).
Proof. apply (in_skip pre [y; z] post). Qed.

(** An allocated block lies clear of the bytes of a stretch it is not part
    of. *)
Lemma alloc_apart m a pre X post e b e' c csz al :
  seg m a pre b -> seg m b X e' -> seg m e' post e ->
  In (c, csz, al) (pre ++ post) -> c + csz <= b \/ e' <= c.
Proof.
  intros Hpre HX Hpost Hc. apply in_app_or in Hc. destruct Hc as [Hc|Hc].
  - eapply seg_in in Hc; [|exact Hpre]. lia.
  - eapply seg_in in Hc; [|exact Hpost]. lia.
Qed.

Lemma place_full s pre post fl b bs asize :
  heap s (pre ++ (b, bs, false) :: post) fl -> In b fl ->
  32 <= asize -> asize mod 16 = 0 -> asize <= bs ->
  exists s', place b asize s = Ok tt s' /\ same_region s s' /\
    (if 32 <=? bs - asize then
      heap s' (pre ++ (b, asize, true) :: (b + asize, bs - asize, false) :: post)
           (remove Z.eq_dec b fl ++ [b + asize])
    else
      heap s' (pre ++ (b, bs, true) :: post) (remove Z.eq_dec b fl)) /\
    keeps_allocated s s' (pre ++ post) /\
    slack s' (place_fl fl b bs asize) = slack s fl.
Proof.
  intros H Hin Ha1 Ha2 Ha3.
  pose proof (heap_bounds _ _ _ H) as (B1 & B2 & B3).
  assert (Hblk : In (b, bs, false) (pre ++ (b, bs, false) :: post)) by apply in_elt.
  pose proof (base_block _ _ _ _ _ (h_base _ _ _ H) Hblk) as (C1 & C2 & C3 & C4 & C5 & C6).
  destruct (remove_from_list_In_full _ _ _ _ H Hin) as (s1 & E1 & H1 & R1 & K1 & S1).
  pose proof R1 as (Rlo & Rbrk & Rmax & Rroot & Rpro).
  assert (Hnin : ~ In b (remove Z.eq_dec b fl)) by apply remove_In.
  pose proof (b_root _ _ (h_base _ _ _ H1)) as Hroot1.
  pose proof (b_seg _ _ (h_base _ _ _ H)) as Hseg0.
  apply seg_app in Hseg0. destruct Hseg0 as (b0 & Hpre0 & Hseg0).
  pose proof Hseg0 as Hseg0'. cbn [seg] in Hseg0'.
  destruct Hseg0' as (<- & _ & _ & _ & _ & Hpost0).
  assert (Hap : forall c csz, In (c, csz, true) (pre ++ post) ->
                              c + csz <= b \/ b + bs <= c).
  { intros c csz Hc. eapply alloc_apart; [exact Hpre0| |exact Hpost0|exact Hc].
    instantiate (1 := [(b, bs, false)]). cbn [seg]. cbn [seg] in Hseg0.
    repeat split; try tauto. }
  unfold place, place_fl.
  erewrite bind_ok by (eapply base_get_size; [apply H|exact Hblk]).
  rewrite psub_small by lia. unfold min_block_size, dsize, wsize.
  change (2 * (2 * 8)) with 32.
  destruct (Z.leb_spec 32 (bs - asize)) as [Hsplit|Hno].
  - destruct (Z.geb_spec (bs - asize) 32) as [_|]; [|lia].
    erewrite bind_ok by exact E1.
    erewrite bind_ok by (apply write_block_ok; lia).
    unfold get_next_block, get_size.
    erewrite bind_ok.
    2:{ erewrite bind_ok.
        2:{ erewrite bind_ok by (apply load_ok; inb). reflexivity. }
        reflexivity. }
    cbn [set_mem mem].
    rewrite load64_store64_other by lia.
    rewrite load64_store64_same by (apply pack_range; lia).
    rewrite extract_size_pack by lia.
    rewrite padd_small by lia.
    destruct (Z.eqb_spec (b + asize) NULL) as [E0|_]; [unfold NULL in E0; lia|].
    erewrite bind_ok.
    2:{ apply write_block_ok; cbn [set_mem free_root heap_lo heap_brk]; try lia.
        mlia. }
    cbn [set_mem mem heap_lo heap_brk heap_max free_root prologue counter_global].
    replace (b + asize + (bs - asize) - 8) with (b + bs - 8) by lia.
    pose proof (heap_split s1 pre post _ b bs asize H1 Hnin Ha1 Ha2 Hsplit) as H3.
    cbv zeta in H3.
    match type of H3 with heap ?s3 ?bl3 ?fl3 =>
      destruct (add_to_list_full s3 bl3 fl3 (b + asize) H3)
        as (s4 & E4 & H4 & R4 & K4 & S4)
    end.
    + exists (bs - asize). apply in_or_app. right. right. left. reflexivity.
    + intros Hi. destruct (h_sound _ _ _ H1 _ Hi) as (sz & Hsz).
      pose proof (seg_disjoint _ _ _ _ _ _ _ _ _ _ (b_seg _ _ (h_base _ _ _ H)) Hsz Hblk).
      pose proof (base_block _ _ _ _ _ (h_base _ _ _ H) Hsz).
      lia.
    + exists s4. split; [exact E4|]. split; [|split; [exact H4|split]].
      * eapply same_region_trans; [exact R1|].
        destruct R4 as (A1 & A2 & A3 & A4 & A5). repeat split; assumption.
      * intros c csz x Hc Hx.
        rewrite (K4 c csz x); [|apply (in_skip pre _ post); exact Hc|exact Hx].
        cbn [set_mem mem]. unfold store64.
        pose proof (Hap c csz Hc) as Ho.
        rewrite !store_le_other by (simpl; lia).
        apply (K1 c csz x); [apply in_skip_cons; exact Hc|exact Hx].
      * rewrite S4. rewrite <- S1. reflexivity.
  - destruct (Z.geb_spec (bs - asize) 32) as [|_]; [lia|].
    erewrite bind_ok by exact E1.
    pose proof (b_seg _ _ (h_base _ _ _ H1)) as Hseg.
    apply seg_app in Hseg. destruct Hseg as (b' & Hpre & Hseg).
    pose proof Hseg as Hseg'. cbn [seg] in Hseg'.
    destruct Hseg' as (<- & _ & _ & _ & _ & Hpost).
    destruct (heap_write_full s1 pre [(b, bs, false)] post _ b (b + bs) true H1 Hpre)
      as (s2 & E2 & H2 & R2 & K2 & S2); try assumption.
    + cbn [seg]. cbn [seg] in Hseg. repeat split; try tauto.
    + discriminate.
    + intros a Ha. destruct (h_sound _ _ _ H1 a Ha) as (sz & Hsz). exists sz.
      apply in_app_or in Hsz. apply in_or_app.
      destruct Hsz as [Hsz|[Hsz|Hsz]]; [left; exact Hsz| |right; exact Hsz].
      inversion Hsz; subst. contradiction.
    + replace (b + bs - b) with bs in * by lia.
      exists s2. split; [exact E2|]. split; [|split; [exact H2|split]].
      * eapply same_region_trans; eassumption.
      * intros c csz x Hc Hx. rewrite (K2 c csz x Hc Hx).
        apply (K1 c csz x); [apply in_skip_cons; exact Hc|exact Hx].
      * rewrite S2. exact S1.
Qed.

(** ** Placement *)


(** ** Coalescing *)

Lemma list_end_cases {A} (l : list A) : l = [] \/ exists l' x, l = l' ++ [x].
Proof.
  destruct l as [|a l]; [left; reflexivity|right].
  destruct (exists_last (l := a :: l)) as (l' & x & E); [discriminate|].
  exists l', x. exact E.
Qed.

Lemma last_block_app pre x : last_block (pre ++ [x]) = x.
Proof. unfold last_block. apply last_last. Qed.

(** The word before a block's header is the footer of its predecessor, or
    the root's footer for the first block. *)
Lemma prev_footer s pre b sz al post :
  base s (pre ++ (b, sz, al) :: post) ->
  let lb := last_block pre in
  load64 (mem s) (b - 8) = pack (blk_size lb) (blk_alloc lb) /\
  0 <= blk_size lb /\ blk_size lb mod 16 = 0 /\
  heap_lo s + 40 <= b - blk_size lb.
Proof.
  intros Hb lb. pose proof (b_seg _ _ Hb) as Hseg.
  apply seg_app in Hseg. destruct Hseg as (b' & Hpre & Hseg).
  cbn [seg] in Hseg. destruct Hseg as (<- & _).
  destruct (list_end_cases pre) as [->|(pre' & [[p psz] pal] & ->)].
  - cbn [seg] in Hpre. subst lb. cbn. rewrite <- Hpre.
    replace (heap_lo s + 40 - 8) with (heap_lo s + 32) by lia.
    split; [apply Hb|]. repeat split; lia.
  - subst lb. rewrite last_block_app. cbn [blk_size blk_alloc fst snd].
    apply seg_app in Hpre. destruct Hpre as (c & Hpre' & Hp).
    cbn [seg] in Hp. destruct Hp as (<- & Hs & Hm & Hh & Hf & <-).
    apply seg_le in Hpre'.
    repeat split; try assumption; lia.
Qed.

Lemma first_block_spec s pre b sz al post :
  base s (pre ++ (b, sz, al) :: post) ->
  (post = [] /\ b + sz = heap_brk s) \/
  (exists nsz nal post', post = (b + sz, nsz, nal) :: post' /\
                         b + sz + nsz <= heap_brk s /\ 32 <= nsz).
Proof.
  intros Hb. pose proof (b_seg _ _ Hb) as Hseg.
  apply seg_app in Hseg. destruct Hseg as (b' & Hpre & Hseg).
  cbn [seg] in Hseg. destruct Hseg as (<- & _ & _ & _ & _ & Hpost).
  destruct post as [|[[n nsz] nal] post'].
  - left. cbn [seg] in Hpost. auto.
  - right. cbn [seg] in Hpost. destruct Hpost as (-> & Hs & _ & _ & _ & Hrest).
    apply seg_le in Hrest. exists nsz, nal, post'. repeat split; [lia|assumption].
Qed.

Lemma in_heap_ok s p :
  0 < heap_brk s <= 2 ^ 64 ->
  in_heap p s = Ok ((p <=? heap_brk s - 1) && (p >=? heap_lo s)) s.
Proof.
  intros H. unfold in_heap, mem_heap_hi, mem_heap_lo.
  erewrite bind_ok by reflexivity. erewrite bind_ok by reflexivity.
  rewrite w64_small by lia. reflexivity.
Qed.

Lemma coalesce_probe s pre post fl b sz :
  heap s (pre ++ (b, sz, false) :: post) fl ->
  coalesce b s =
  coalesce_cases b (b + sz) (b - blk_size (last_block pre))
                 (blk_alloc (last_block pre)) (blk_alloc (first_block post))
                 sz s.
Proof.
  intros H. pose proof (h_base _ _ _ H) as Hb.
  pose proof (heap_bounds _ _ _ H) as (B1 & B2 & B3).
  assert (Hblk : In (b, sz, false) (pre ++ (b, sz, false) :: post)) by apply in_elt.
  pose proof (base_block _ _ _ _ _ Hb Hblk) as (C1 & C2 & C3 & C4 & C5 & C6).
  pose proof (prev_footer _ _ _ _ _ _ Hb) as (P1 & P2 & P3 & P4).
  pose proof (base_get_size _ _ _ _ _ Hb Hblk) as Gs.
  set (lb := last_block pre) in *.
  unfold coalesce, get_next_block, get_prev_block, find_prev_footer, wsize.
  erewrite bind_ok by (erewrite bind_ok by exact Gs; reflexivity).
  rewrite padd_small by lia. rewrite psub_small by lia.
  erewrite bind_ok by (erewrite bind_ok by (apply load_ok; inb); reflexivity).
  rewrite P1. rewrite extract_size_pack by lia.
  rewrite psub_small by lia.
  erewrite bind_ok by (apply in_heap_ok; lia).
  destruct (Z.leb_spec (b - blk_size lb) (heap_brk s - 1)) as [_|]; [|lia].
  destruct (Z.geb_spec (b - blk_size lb) (heap_lo s)) as [_|]; [|lia].
  destruct (Z.eqb_spec (b - blk_size lb) NULL) as [E|_]; [unfold NULL in E; lia|].
  cbn [andb negb].
  erewrite bind_ok by (erewrite bind_ok by (apply load_ok; inb); reflexivity).
  rewrite P1. rewrite extract_alloc_pack by assumption.
  erewrite bind_ok by (apply in_heap_ok; lia).
  destruct (first_block_spec _ _ _ _ _ _ Hb)
    as [(-> & Hend)|(nsz & nal & post' & -> & Hn1 & Hn2)].
  - destruct (Z.leb_spec (b + sz) (heap_brk s - 1)) as [|_]; [lia|].
    cbn [andb]. erewrite bind_ok by reflexivity.
    erewrite bind_ok by exact Gs. reflexivity.
  - destruct (Z.leb_spec (b + sz) (heap_brk s - 1)) as [_|]; [|lia].
    destruct (Z.geb_spec (b + sz) (heap_lo s)) as [_|]; [|lia].
    destruct (Z.eqb_spec (b + sz) NULL) as [E|_]; [unfold NULL in E; lia|].
    cbn [andb negb].
    erewrite bind_ok.
    2:{ eapply base_get_alloc; [exact Hb|]. apply in_or_app. right. right. left. reflexivity. }
    erewrite bind_ok by exact Gs. reflexivity.
Qed.

Lemma seg_total m : forall X a e, seg m a X e -> e = a + total_size X.
Proof.
  induction X as [|[[b sz] al] X IH]; intros a e H; cbn [seg] in H.
  - cbn. lia.
  - destruct H as (_ & _ & _ & _ & _ & H). apply IH in H.
    cbn [total_size fold_right blk_size fst snd] in *. fold (total_size X). lia.
Qed.

Lemma seg_first m X a e :
  seg m a X e -> X <> [] -> blk_addr (first_block X) = a.
Proof.
  destruct X as [|[[b sz] al] X]; intros H Hne; [congruence|].
  cbn [seg] in H. cbn. tauto.
Qed.

Lemma sound_skip (fl : list Z) (pre X post : list block) :
  (forall a, In a fl -> exists sz, In (a, sz, false) (pre ++ X ++ post)) ->
  (forall x sz al, In (x, sz, al) X -> ~ In x fl) ->
  forall a, In a fl -> exists sz, In (a, sz, false) (pre ++ post).
Proof.
  intros Hs Hx a Ha. destruct (Hs a Ha) as (sz & Hin). exists sz.
  apply in_app_or in Hin. apply in_or_app.
  destruct Hin as [Hin|Hin]; [left; exact Hin|].
  apply in_app_or in Hin. destruct Hin as [Hin|Hin]; [|right; exact Hin].
  exfalso. exact (Hx _ _ _ Hin Ha).
Qed.

(** The common end of the merging cases: one free block is written over
    the stretch [X], none of whose blocks is on the list any more, and goes
    to the tail of the list. *)
Lemma merge_full s pre X post fl :
  heap s (pre ++ X ++ post) fl -> X <> [] ->
  (forall x sz al, In (x, sz, al) X -> ~ In x fl) ->
  let b := blk_addr (first_block X) in
  exists s',
    (write_block b (total_size X) false ;; add_to_list b ;; ret b) s = Ok b s' /\
    heap s' (pre ++ (b, total_size X, false) :: post) (fl ++ [b]) /\
    same_region s s' /\
    keeps_allocated s s' (pre ++ post) /\ slack s' (fl ++ [b]) = slack s fl.
Proof.
  intros H Hne Hx b.
  pose proof (b_seg _ _ (h_base _ _ _ H)) as Hseg.
  apply seg_app in Hseg. destruct Hseg as (b' & Hpre & Hseg).
  apply seg_app in Hseg. destruct Hseg as (e & HX & Hpost).
  assert (b' = b) by (symmetry; eapply seg_first; eassumption). subst b'.
  pose proof (seg_total _ _ _ _ HX) as He.
  assert (Hs : forall a, In a fl -> exists sz, In (a, sz, false) (pre ++ post)).
  { apply sound_skip with (X := X); [apply H|exact Hx]. }
  destruct (heap_write_full s pre X post fl b e false H Hpre HX Hpost Hne Hs)
    as (s1 & E1 & H1 & R1 & K1 & S1).
  replace (e - b) with (total_size X) in * by lia.
  destruct (add_to_list_full s1 _ fl b H1) as (s2 & E2 & H2 & R2 & K2 & S2).
  - exists (total_size X). apply in_elt.
  - intros Hin. destruct (Hs b Hin) as (sz & Hsz).
    pose proof (seg_le _ _ _ _ Hpre). 
    destruct (seg_size _ _ _ _ HX) as (_ & Hsz32). specialize (Hsz32 Hne).
    apply in_app_or in Hsz. destruct Hsz as [Hsz|Hsz].
    + eapply seg_in in Hsz; [|exact Hpre]. lia.
    + eapply seg_in in Hsz; [|exact Hpost]. lia.
  - exists s2. split; [|split; [|split; [|split]]].
    + erewrite bind_ok by exact E1. erewrite bind_ok by exact E2. reflexivity.
    + exact H2.
    + eapply same_region_trans; eassumption.
    + eapply keeps_allocated_step; [exact K1|exact K2|].
      intros c csz Hc. apply in_skip_cons. exact Hc.
    + rewrite S2. exact S1.
Qed.

Lemma in_remove_other (x t : Z) l : In x l -> x <> t -> In x (remove Z.eq_dec t l).
Proof. intros. apply in_in_remove; assumption. Qed.

Lemma notin_remove_other (x t : Z) l : ~ In x l -> ~ In x (remove Z.eq_dec t l).
Proof. intros H Hin. apply in_remove in Hin. tauto. Qed.

(** Case 1: both neighbours allocated. *)
Lemma coalesce_case1_full s pre post fl b sz :
  heap s (pre ++ (b, sz, false) :: post) fl -> ~ In b fl ->
  blk_alloc (last_block pre) = true -> blk_alloc (first_block post) = true ->
  exists s', coalesce b s = Ok b s' /\
             heap s' (pre ++ (b, sz, false) :: post) (fl ++ [b]) /\
             same_region s s' /\
             keeps_allocated s s' (pre ++ post) /\
             slack s' (fl ++ [b]) = slack s fl.
Proof.
  intros H Hnin Hp Hn. rewrite (coalesce_probe _ _ _ _ _ _ H), Hp, Hn.
  unfold coalesce_cases. cbn [andb].
  destruct (add_to_list_full s _ fl b H) as (s1 & E1 & H1 & R1 & K1 & S1).
  - exists sz. apply in_elt.
  - exact Hnin.
  - exists s1. split; [|split; [exact H1|split; [exact R1|split; [|exact S1]]]].
    + erewrite bind_ok by exact E1. reflexivity.
    + eapply keeps_allocated_sub; [exact K1|].
      intros c csz Hc. apply in_skip_cons. exact Hc.
Qed.

Lemma coalesce_case1 s pre post fl b sz :
  heap s (pre ++ (b, sz, false) :: post) fl -> ~ In b fl ->
  blk_alloc (last_block pre) = true -> blk_alloc (first_block post) = true ->
  exists s', coalesce b s = Ok b s' /\
             heap s' (pre ++ (b, sz, false) :: post) (fl ++ [b]) /\
             same_region s s'.
Proof.
  intros H Hnin Hp Hn.
  destruct (coalesce_case1_full _ _ _ _ _ _ H Hnin Hp Hn) as (s' & E & H' & R & _).
  eauto.
Qed.

(** Case 2: only the next block is free. *)
Lemma coalesce_case2_full s pre post fl b sz n nsz :
  heap s (pre ++ (b, sz, false) :: (n, nsz, false) :: post) fl ->
  ~ In b fl -> In n fl -> blk_alloc (last_block pre) = true ->
  exists s', coalesce b s = Ok b s' /\
             heap s' (pre ++ (b, sz + nsz, false) :: post)
                  (remove Z.eq_dec n fl ++ [b]) /\
             same_region s s' /\
             keeps_allocated s s' (pre ++ post) /\
             slack s' (remove Z.eq_dec n fl ++ [b]) = slack s fl.
Proof.
  intros H Hnin Hin Hp. rewrite (coalesce_probe _ _ _ _ _ _ H), Hp.
  unfold coalesce_cases. cbn [first_block hd blk_alloc snd andb negb].
  pose proof (heap_bounds _ _ _ H) as (B1 & B2 & B3).
  pose proof (first_block_spec _ _ _ _ _ _ (h_base _ _ _ H))
    as [(Hc & _)|(nsz' & nal & post' & Hc & _)]; [discriminate|].
  inversion Hc; subst n nsz' nal post'. clear Hc.
  assert (Hb_in : In (b, sz, false) (pre ++ (b, sz, false) :: (b + sz, nsz, false) :: post))
    by apply in_elt.
  assert (Hn_in : In (b + sz, nsz, false) (pre ++ (b, sz, false) :: (b + sz, nsz, false) :: post)).
  { apply in_or_app. right. right. left. reflexivity. }
  pose proof (base_block _ _ _ _ _ (h_base _ _ _ H) Hb_in) as (C1 & C2 & C3 & C4 & _).
  pose proof (base_block _ _ _ _ _ (h_base _ _ _ H) Hn_in) as (D1 & D2 & D3 & D4 & _).
  destruct (remove_from_list_In_full _ _ _ _ H Hin) as (s1 & E1 & H1 & R1 & K1 & S1).
  erewrite bind_ok by exact E1.
  erewrite bind_ok by (eapply base_get_size; [apply H1|exact Hn_in]).
  rewrite padd_small by lia.
  destruct (merge_full s1 pre [(b, sz, false); (b + sz, nsz, false)] post _ H1)
    as (s2 & E2 & H2 & R2 & K2 & S2).
  - discriminate.
  - intros x sz' al' [Hx|[Hx|[]]]; inversion Hx; subst.
    + apply notin_remove_other. exact Hnin.
    + apply remove_In.
  - cbn [first_block hd blk_addr fst total_size fold_right blk_size snd] in *.
    replace (sz + (nsz + 0)) with (sz + nsz) in * by lia.
    exists s2. split; [exact E2|]. split; [exact H2|]. split; [|split].
    + eapply same_region_trans; eassumption.
    + intros c csz x Hc Hx. rewrite (K2 c csz x Hc Hx).
      apply (K1 c csz x); [apply in_skip_two; exact Hc|exact Hx].
    + rewrite S2. exact S1.
Qed.

Lemma coalesce_case2 s pre post fl b sz n nsz :
  heap s (pre ++ (b, sz, false) :: (n, nsz, false) :: post) fl ->
  ~ In b fl -> In n fl -> blk_alloc (last_block pre) = true ->
  exists s', coalesce b s = Ok b s' /\
             heap s' (pre ++ (b, sz + nsz, false) :: post)
                  (remove Z.eq_dec n fl ++ [b]) /\
             same_region s s'.
Proof.
  intros H Hnin Hin Hp.
  destruct (coalesce_case2_full _ _ _ _ _ _ _ _ H Hnin Hin Hp)
    as (s' & E & H' & R & _).
  eauto.
Qed.

(** Case 3: only the previous block is free. *)
Lemma coalesce_case3_full s pre post fl p psz b sz :
  heap s (pre ++ (p, psz, false) :: (b, sz, false) :: post) fl ->
  ~ In b fl -> In p fl -> blk_alloc (first_block post) = true ->
  exists s', coalesce b s = Ok p s' /\
             heap s' (pre ++ (p, psz + sz, false) :: post)
                  (remove Z.eq_dec p fl ++ [p]) /\
             same_region s s' /\
             keeps_allocated s s' (pre ++ post) /\
             slack s' (remove Z.eq_dec p fl ++ [p]) = slack s fl.
Proof.
  intros H Hnin Hin Hn.
  assert (H' : heap s ((pre ++ [(p, psz, false)]) ++ (b, sz, false) :: post) fl).
  { rewrite <- app_assoc. exact H. }
  rewrite (coalesce_probe _ _ _ _ _ _ H'), Hn, last_block_app.
  unfold coalesce_cases. cbn [blk_alloc blk_size fst snd andb negb].
  pose proof (heap_bounds _ _ _ H) as (B1 & B2 & B3).
  pose proof (first_block_spec _ _ _ _ _ _ (h_base _ _ _ H))
    as [(Hc & _)|(nsz' & nal & post' & Hc & _)]; [discriminate|].
  inversion Hc; subst b nsz' nal post'. clear Hc.
  assert (Hp_in : In (p, psz, false) (pre ++ (p, psz, false) :: (p + psz, sz, false) :: post))
    by apply in_elt.
  assert (Hb_in : In (p + psz, sz, false) (pre ++ (p, psz, false) :: (p + psz, sz, false) :: post)).
  { apply in_or_app. right. right. left. reflexivity. }
  pose proof (base_block _ _ _ _ _ (h_base _ _ _ H) Hp_in) as (C1 & C2 & C3 & C4 & _).
  pose proof (base_block _ _ _ _ _ (h_base _ _ _ H) Hb_in) as (D1 & D2 & D3 & D4 & _).
  replace (p + psz - psz) with p by lia.
  destruct (remove_from_list_In_full _ _ _ _ H Hin) as (s1 & E1 & H1 & R1 & K1 & S1).
  erewrite bind_ok by exact E1.
  erewrite bind_ok by (eapply base_get_size; [apply H1|exact Hp_in]).
  rewrite padd_small by lia.
  destruct (merge_full s1 pre [(p, psz, false); (p + psz, sz, false)] post _ H1)
    as (s2 & E2 & H2 & R2 & K2 & S2).
  - discriminate.
  - intros x sz' al' [Hx|[Hx|[]]]; inversion Hx; subst.
    + apply remove_In.
    + apply notin_remove_other. exact Hnin.
  - cbn [first_block hd blk_addr fst total_size fold_right blk_size snd] in *.
    replace (psz + (sz + 0)) with (sz + psz) in * by lia.
    replace (psz + sz) with (sz + psz) by lia.
    exists s2. split; [exact E2|]. split; [exact H2|]. split; [|split].
    + eapply same_region_trans; eassumption.
    + intros c csz x Hc Hx. rewrite (K2 c csz x Hc Hx).
      apply (K1 c csz x); [apply in_skip_two; exact Hc|exact Hx].
    + rewrite S2. exact S1.
Qed.

Lemma coalesce_case3 s pre post fl p psz b sz :
  heap s (pre ++ (p, psz, false) :: (b, sz, false) :: post) fl ->
  ~ In b fl -> In p fl -> blk_alloc (first_block post) = true ->
  exists s', coalesce b s = Ok p s' /\
             heap s' (pre ++ (p, psz + sz, false) :: post)
                  (remove Z.eq_dec p fl ++ [p]) /\
             same_region s s'.
Proof.
  intros H Hnin Hin Hn.
  destruct (coalesce_case3_full _ _ _ _ _ _ _ _ H Hnin Hin Hn)
    as (s' & E & H' & R & _).
  eauto.
Qed.

(** Case 4: both neighbours are free. *)
Lemma coalesce_case4_full s pre post fl p psz b sz n nsz :
  heap s (pre ++ (p, psz, false) :: (b, sz, false) :: (n, nsz, false) :: post) fl ->
  ~ In b fl -> In p fl -> In n fl ->
  exists s', coalesce b s = Ok p s' /\
             heap s' (pre ++ (p, psz + sz + nsz, false) :: post)
                  (remove Z.eq_dec n (remove Z.eq_dec p fl) ++ [p]) /\
             same_region s s' /\
             keeps_allocated s s' (pre ++ post) /\
             slack s' (remove Z.eq_dec n (remove Z.eq_dec p fl) ++ [p]) =
             slack s fl.
Proof.
  intros H Hnin Hpin Hnin'.
  assert (H' : heap s ((pre ++ [(p, psz, false)]) ++ (b, sz, false) :: (n, nsz, false) :: post) fl).
  { rewrite <- app_assoc. exact H. }
  rewrite (coalesce_probe _ _ _ _ _ _ H'), last_block_app.
  unfold coalesce_cases. cbn [first_block hd blk_alloc blk_size fst snd andb negb].
  pose proof (heap_bounds _ _ _ H) as (B1 & B2 & B3).
  pose proof (first_block_spec _ _ _ _ _ _ (h_base _ _ _ H))
    as [(Hc & _)|(nsz' & nal & post' & Hc & _)]; [discriminate|].
  inversion Hc; subst b nsz' nal post'. clear Hc.
  pose proof (first_block_spec _ _ _ _ _ _ (h_base _ _ _ H'))
    as [(Hc & _)|(nsz' & nal & post' & Hc & _)]; [discriminate|].
  inversion Hc; subst n nsz' nal post'. clear Hc.
  set (bl := pre ++ (p, psz, false) :: (p + psz, sz, false) :: (p + psz + sz, nsz, false) :: post) in *.
  assert (Hp_in : In (p, psz, false) bl) by apply in_elt.
  assert (Hb_in : In (p + psz, sz, false) bl).
  { apply in_or_app. right. right. left. reflexivity. }
  assert (Hn_in : In (p + psz + sz, nsz, false) bl).
  { apply in_or_app. right. right. right. left. reflexivity. }
  pose proof (base_block _ _ _ _ _ (h_base _ _ _ H) Hp_in) as (C1 & C2 & C3 & C4 & _).
  pose proof (base_block _ _ _ _ _ (h_base _ _ _ H) Hb_in) as (D1 & D2 & D3 & D4 & _).
  pose proof (base_block _ _ _ _ _ (h_base _ _ _ H) Hn_in) as (F1 & F2 & F3 & F4 & _).
  replace (p + psz - psz) with p by lia.
  destruct (remove_from_list_In_full _ _ _ _ H Hpin) as (s1 & E1 & H1 & R1 & K1 & S1).
  erewrite bind_ok by exact E1.
  destruct (remove_from_list_In_full _ _ _ (p + psz + sz) H1)
    as (s2 & E2 & H2 & R2 & K2 & S2).
  { apply in_remove_other; [exact Hnin'|lia]. }
  erewrite bind_ok by exact E2.
  erewrite bind_ok by (eapply base_get_size; [apply H2|exact Hn_in]).
  erewrite bind_ok by (eapply base_get_size; [apply H2|exact Hp_in]).
  rewrite (padd_small nsz psz) by lia. rewrite padd_small by lia.
  destruct (merge_full s2 pre
              [(p, psz, false); (p + psz, sz, false); (p + psz + sz, nsz, false)]
              post _ H2) as (s3 & E3 & H3 & R3 & K3 & S3).
  - discriminate.
  - intros x sz' al' [Hx|[Hx|[Hx|[]]]]; inversion Hx; subst.
    + apply notin_remove_other. apply remove_In.
    + apply notin_remove_other. apply notin_remove_other. exact Hnin.
    + apply remove_In.
  - cbn [first_block hd blk_addr fst total_size fold_right blk_size snd] in *.
    replace (psz + (sz + (nsz + 0))) with (sz + (nsz + psz)) in * by lia.
    replace (psz + sz + nsz) with (sz + (nsz + psz)) by lia.
    exists s3. split; [exact E3|]. split; [exact H3|]. split; [|split].
    + eapply same_region_trans; [|exact R3].
      eapply same_region_trans; eassumption.
    + intros c csz x Hc Hx. rewrite (K3 c csz x Hc Hx).
      assert (Hc' : In (c, csz, true) bl).
      { apply (in_skip pre [_; _; _] post). exact Hc. }
      rewrite (K2 c csz x Hc' Hx). apply (K1 c csz x Hc' Hx).
    + rewrite S3, S2. exact S1.
Qed.

Lemma coalesce_case4 s pre post fl p psz b sz n nsz :
  heap s (pre ++ (p, psz, false) :: (b, sz, false) :: (n, nsz, false) :: post) fl ->
  ~ In b fl -> In p fl -> In n fl ->
  exists s', coalesce b s = Ok p s' /\
             heap s' (pre ++ (p, psz + sz + nsz, false) :: post)
                  (remove Z.eq_dec n (remove Z.eq_dec p fl) ++ [p]) /\
             same_region s s'.
Proof.
  intros H Hnin Hpin Hnin'.
  destruct (coalesce_case4_full _ _ _ _ _ _ _ _ _ _ H Hnin Hpin Hnin')
    as (s' & E & H' & R & _).
  eauto.
Qed.

(** ** Extending the heap *)

Lemma SBRK_FAILED_eq : SBRK_FAILED = 18446744073709551615.
Proof. reflexivity. Qed.

Lemma extend_heap_fail s size :
  heap_max s < heap_brk s + round_up size dsize ->
  extend_heap size s = Ok NULL s.
Proof.
  intros H. unfold extend_heap, mem_sbrk.
  unfold bind at 1.
  destruct (Z.leb_spec (heap_brk s + round_up size dsize) (heap_max s)); [lia|].
  reflexivity.
Qed.

Lemma extend_heap_full s bl fl size :
  heap s bl fl -> 32 <= size -> size + 15 < 2 ^ 64 ->
  heap_brk s + round_up size dsize <= heap_max s ->
  exists s',
    extend_heap size s = Ok (heap_brk s) s' /\
    heap s' (bl ++ [(heap_brk s, round_up size dsize, false)])
         (fl ++ [heap_brk s]) /\
    heap_brk s' = heap_brk s + round_up size dsize /\
    heap_lo s' = heap_lo s /\ heap_max s' = heap_max s /\
    keeps_allocated s s' bl /\ slack s' (fl ++ [heap_brk s]) = slack s fl.
Proof.
  intros H Hs1 Hs2 Hfit.
  pose proof (heap_bounds _ _ _ H) as (B1 & B2 & B3).
  pose proof (h_base _ _ _ H) as Hb.
  pose proof (b_max _ _ Hb) as Hmax.
  pose proof (round_up_bounds size ltac:(lia) ltac:(lia)) as (R1 & R2).
  set (sz := round_up size dsize) in *.
  set (brk := heap_brk s) in *.
  set (w := pack sz false).
  set (m' := store64 (store64 (mem s) brk w) (brk + sz - 8) w).
  set (s2 := set_mem (set_brk s (brk + sz)) m').
  assert (H2 : heap s2 (bl ++ [(brk, sz, false)]) fl).
  { assert (Hb2 : base s2 (bl ++ [(brk, sz, false)])).
    { destruct Hb as [H1 H2 H3 H4 H5 H6 H7 H8 H9].
      constructor;
        cbn [s2 set_mem set_brk mem heap_lo heap_brk heap_max free_root prologue];
        try assumption.
      - lia.
      - unfold m'. rewrite !load64_store64_other by (fold brk in B2; lia). assumption.
      - unfold m'. rewrite !load64_store64_other by (fold brk in B2; lia). assumption.
      - unfold m'. rewrite !load64_store64_other by (fold brk in B2; lia). assumption.
      - apply seg_app. exists brk. split.
        + eapply seg_frame; [|exact H9]. intros y Hy1 Hy2. unfold m'.
          rewrite !load64_store64_other by (fold brk in Hy2; lia). reflexivity.
        + apply seg_write_one; lia. }
    eapply heap_frame; [exact H|exact Hb2|reflexivity| |].
    - intros x Hx. pose proof (heap_node _ _ _ _ H Hx) as Hn.
      pose proof (node_range _ _ _ Hb Hn) as Rn. fold brk in Rn.
      cbn [s2 set_mem mem]. unfold m', nxt, prv.
      rewrite !load64_store64_other by lia. auto.
    - intros a Ha. destruct (h_sound _ _ _ H a Ha) as (sz' & Hin).
      exists sz'. apply in_or_app. left. exact Hin. }
  destruct (add_to_list_full s2 _ fl brk H2) as (s3 & E3 & H3 & R3 & K3 & S3).
  - exists sz. apply in_or_app. right. left. reflexivity.
  - intros Hin. pose proof (heap_node _ _ _ brk H (or_intror Hin)) as Hn.
    pose proof (node_range _ _ _ Hb Hn) as Rn. fold brk in Rn. lia.
  - exists s3. split; [|split; [exact H3|]].
    + unfold extend_heap, mem_sbrk. fold sz. unfold bind at 1. fold brk.
      destruct (Z.leb_spec (brk + sz) (heap_max s)) as [_|]; [|lia].
      rewrite SBRK_FAILED_eq.
      destruct (Z.eqb_spec brk 18446744073709551615) as [|_]; [lia|].
      erewrite bind_ok.
      2:{ apply write_block_ok;
            cbn [set_brk free_root heap_lo heap_brk]; try lia.
          rewrite (b_root _ _ Hb). fold brk in B2. lia. }
      cbn [set_brk mem]. fold w. fold m'.
      erewrite bind_ok by exact E3. reflexivity.
    + destruct R3 as (A1 & A2 & A3 & A4 & A5).
      rewrite A1, A2, A3. cbn. repeat split; try reflexivity.
      * intros c csz x Hc Hx.
        rewrite (K3 c csz x); [|apply in_or_app; left; exact Hc|exact Hx].
        cbn [s2 set_mem mem]. unfold m', store64.
        pose proof (base_block _ _ _ _ _ Hb Hc) as (C1 & C2 & _).
        fold brk in C2.
        rewrite !store_le_other by (simpl; lia). reflexivity.
      * rewrite S3. reflexivity.
Qed.

(** ** Initialisation *)

Lemma mm_init_no_room s :
  fresh s -> heap_max s < heap_lo s + 40 -> mm_init s = Ok false s.
Proof.
  intros (F1 & F2 & F3 & F4 & F5 & F6) H. unfold mm_init, mem_sbrk.
  unfold bind at 1. change (wmul 5 wsize) with 40. rewrite F2.
  destruct (Z.leb_spec (heap_lo s + 40) (heap_max s)); [lia|].
  reflexivity.
Qed.

(** The state in which [mm_init] calls [extend_heap]: root and prologue in
    place, no block, an empty list. *)
Lemma mm_init_prefix s :
  fresh s -> heap_lo s + 40 <= heap_max s ->
  exists s1,
    mm_init s =
      (b <- extend_heap chunksize ;; if b =? NULL then ret false else ret true) s1 /\
    heap s1 [] [] /\ heap_lo s1 = heap_lo s /\ heap_max s1 = heap_max s /\
    heap_brk s1 = heap_lo s + 40 /\ counter_global s1 = counter_global s.
Proof.
  intros (F1 & F2 & F3 & F4 & F5 & F6) H.
  destruct s as [m lo brk mx r p c].
  cbn [free_root heap_brk heap_lo heap_max] in *. subst r brk.
  set (m1 := store64 m lo 1).
  set (m2 := store64 m1 (lo + 8) 1).
  set (m3 := store64 m2 (lo + 32) 1).
  set (m4 := store64 m3 (lo + 16) (lo + 8)).
  set (m5 := store64 m4 (lo + 24) (lo + 8)).
  exists (mkState m5 lo (lo + 40) mx (lo + 8) lo c).
  split; [|split].
  - unfold mm_init, mem_sbrk. unfold bind at 1.
    change (wmul 5 wsize) with 40. cbn [heap_brk heap_max].
    destruct (Z.leb_spec (lo + 40) mx) as [_|]; [|lia].
    rewrite SBRK_FAILED_eq.
    destruct (Z.eqb_spec lo 18446744073709551615) as [|_]; [lia|].
    change (pack 0 true) with 1. change (1 * wsize) with 8. change (4 * wsize) with 32.
    rewrite !(padd_small lo) by lia.
    erewrite bind_ok by (apply store_ok; inb).
    erewrite bind_ok by (apply store_ok; inb).
    erewrite bind_ok by (apply store_ok; inb).
    erewrite bind_ok by reflexivity.
    erewrite bind_ok by reflexivity.
    erewrite bind_ok by reflexivity.
    cbn [set_free_root set_prologue set_mem set_brk free_root mem heap_lo
         heap_brk heap_max prologue counter_global].
    unfold set_prev_free, set_next_free, prev_offset, next_offset.
    rewrite !(padd_small (lo + 8)) by lia.
    replace (lo + 8 + 8) with (lo + 16) by lia.
    replace (lo + 8 + 16) with (lo + 24) by lia.
    erewrite bind_ok by (apply store_ok; inb).
    erewrite bind_ok by (apply store_ok; inb).
    reflexivity.
  - assert (R8 : 0 <= lo + 8 < 18446744073709551616) by lia.
    constructor.
    + constructor; cbn [mem heap_lo heap_brk heap_max free_root prologue];
        try assumption; try reflexivity; try lia.
      * unfold m5, m4, m3, m2, m1. rewrite !load64_store64_other by lia.
        apply load64_store64_same. lia.
      * unfold m5, m4, m3, m2. rewrite !load64_store64_other by lia.
        apply load64_store64_same. lia.
      * unfold m5, m4, m3. rewrite !load64_store64_other by lia.
        apply load64_store64_same. lia.
    + cbn [mem heap_lo]. unfold dll. cbn [dllf]. unfold nxt, prv, m5.
      replace (lo + 8 + 16) with (lo + 24) by lia.
      replace (lo + 8 + 8) with (lo + 16) by lia.
      split.
      * apply load64_store64_same. exact R8.
      * rewrite load64_store64_other by lia.
        apply load64_store64_same. exact R8.
    + constructor.
    + intros a [].
  - cbn. auto.
Qed.

(** ** No two adjacent free blocks *)

Lemma naf_cons b l :
  naf (b :: l) <->
  (blk_alloc b = true \/ blk_alloc (first_block l) = true) /\ naf l.
Proof.
  cbn [naf]. destruct l as [|b' l]; cbn [first_block hd edge blk_alloc snd].
  - intuition.
  - reflexivity.
Qed.

Lemma naf_app : forall l1 l2,
  naf (l1 ++ l2) <->
  naf l1 /\ naf l2 /\
  (blk_alloc (last_block l1) = true \/ blk_alloc (first_block l2) = true).
Proof.
  induction l1 as [|b l1 IH]; intros l2.
  - cbn. intuition.
  - change ((b :: l1) ++ l2) with (b :: (l1 ++ l2)).
    rewrite !naf_cons, IH.
    destruct l1 as [|b' l1].
    + cbn [app last_block last first_block hd naf edge blk_alloc snd]. intuition.
    + change (last_block (b :: b' :: l1)) with (last_block (b' :: l1)).
      cbn [app first_block hd]. intuition.
Qed.

Lemma naf_no_adjacent_free bl : naf bl <-> no_adjacent_free bl.
Proof.
  split.
  - intros H pre b1 b2 post ->.
    apply naf_app in H. destruct H as (_ & H & _).
    apply naf_cons in H. cbn [first_block hd] in H. tauto.
  - induction bl as [|b bl IH]; intros H; [exact I|].
    apply naf_cons. split.
    + destruct bl as [|b' bl]; [right; reflexivity|].
      apply (H [] b b' bl). reflexivity.
    + apply IH. intros pre b1 b2 post E.
      apply (H (b :: pre) b1 b2 post). rewrite E. reflexivity.
Qed.

(** ** Initialisation, continued *)

Lemma WF_empty s : heap s [] [] -> WF s [] [].
Proof. intros H. constructor; [exact H|intros a sz []|exact I]. Qed.

Lemma mm_init_full s :
  fresh s -> heap_lo s + 40 <= heap_max s ->
  let fit := heap_lo s + 4136 <=? heap_max s in
  exists s',
    mm_init s = Ok fit s' /\
    WF s' (if fit then [(heap_lo s + 40, 4096, false)] else [])
          (if fit then [heap_lo s + 40] else []) /\
    heap_lo s' = heap_lo s /\ heap_max s' = heap_max s /\
    (heap_brk s' = if fit then heap_lo s + 4136 else heap_lo s + 40) /\
    slack s' (if fit then [heap_lo s + 40] else []) = counter_global s.
Proof.
  intros Hf Hroom fit. subst fit.
  destruct (mm_init_prefix s Hf Hroom) as (s1 & E1 & H1 & L1 & M1 & K1 & C1).
  rewrite E1.
  destruct (Z.leb_spec (heap_lo s + 4136) (heap_max s)) as [Hfit|Hno].
  - destruct (extend_heap_full s1 [] [] chunksize H1)
      as (s2 & E2 & H2 & K2 & L2 & M2 & _ & S2).
    + unfold chunksize. cbn. lia.
    + unfold chunksize. cbn. lia.
    + change (round_up chunksize dsize) with 4096. lia.
    + change (round_up chunksize dsize) with 4096 in *. rewrite K1 in *.
      cbn [app] in H2, S2.
      exists s2. split; [|split; [|repeat split; try congruence; try lia]].
      * erewrite bind_ok by exact E2.
        destruct (Z.eqb_spec (heap_lo s + 40) NULL) as [E|_]; [|reflexivity].
        destruct Hf as (_ & _ & ? & _). unfold NULL in E. lia.
      * constructor; [exact H2| |cbn; auto].
        intros a sz [Hin|[]]. inversion Hin. left. reflexivity.
      * rewrite S2. unfold slack. cbn [length]. lia.
  - exists s1. split; [|split; [apply WF_empty; exact H1|]].
    + erewrite bind_ok.
      2:{ apply extend_heap_fail. change (round_up chunksize dsize) with 4096. lia. }
      reflexivity.
    + repeat split; try assumption. unfold slack. cbn [length]. lia.
Qed.

(** ** First fit *)

Lemma heap_node_size s bl fl a :
  heap s bl fl -> In a fl ->
  exists sz, In (a, sz, false) bl /\ size_at s a = sz /\ 32 <= sz /\
             get_size a s = Ok sz s.
Proof.
  intros H Ha. destruct (h_sound _ _ _ H a Ha) as (sz & Hin).
  pose proof (base_block _ _ _ _ _ (h_base _ _ _ H) Hin) as (B1 & B2 & B3 & B4 & B5 & B6).
  pose proof (heap_bounds _ _ _ H) as (C1 & C2 & C3).
  exists sz. repeat split; try assumption.
  - unfold size_at. rewrite B5. apply extract_size_pack; lia.
  - eapply base_get_size; [apply H|exact Hin].
Qed.

Lemma find_fit_loop_spec s bl fl asize :
  heap s bl fl ->
  forall l x fuel,
    dll (mem s) (heap_lo s + 8) x l -> (forall a, In a l -> In a fl) ->
    (length l < fuel)%nat ->
    find_fit_loop fuel asize (nxt (mem s) x) s = Ok (first_fit s asize l) s.
Proof.
  intros H. pose proof (heap_bounds _ _ _ H) as (B1 & B2 & B3).
  pose proof (h_base _ _ _ H) as Hb.
  induction l as [|y l IH]; intros x fuel Hd Hsub Hfuel;
    (destruct fuel as [|fuel]; [cbn in Hfuel; lia|]);
    unfold dll in Hd; cbn [dllf] in Hd; cbn [find_fit_loop].
  - destruct Hd as (-> & _). unfold get_size.
    erewrite bind_ok by (erewrite bind_ok by (apply load_ok; inb); reflexivity).
    rewrite (b_rhd _ _ Hb). change (extract_size 1) with 0.
    reflexivity.
  - destruct Hd as (-> & _ & Hd).
    destruct (heap_node_size _ _ _ y H) as (sz & Hin & Hsz & H32 & Gs).
    { apply Hsub. left. reflexivity. }
    erewrite bind_ok by exact Gs.
    destruct (Z.gtb_spec sz 0) as [_|]; [|lia].
    erewrite bind_ok by exact Gs.
    unfold first_fit. cbn [find]. rewrite Hsz.
    destruct (asize <=? sz); [reflexivity|].
    pose proof (base_block _ _ _ _ _ Hb Hin) as (C1 & C2 & _).
    unfold get_next_free, next_offset. rewrite padd_small by lia.
    erewrite bind_ok by (apply load_ok; inb).
    fold (nxt (mem s) y). apply IH; [exact Hd| |cbn in Hfuel; lia].
    intros a Ha. apply Hsub. right. exact Ha.
Qed.

Lemma find_fit_spec s bl fl asize fuel :
  heap s bl fl -> (length fl < fuel)%nat ->
  find_fit fuel asize s = Ok (first_fit s asize fl) s.
Proof.
  intros H Hfuel. pose proof (heap_bounds _ _ _ H) as (B1 & B2 & B3).
  unfold find_fit. erewrite bind_ok by reflexivity.
  rewrite (b_root _ _ (h_base _ _ _ H)).
  unfold get_next_free, next_offset. rewrite padd_small by lia.
  erewrite bind_ok by (apply load_ok; inb).
  fold (nxt (mem s) (heap_lo s + 8)).
  eapply find_fit_loop_spec; [exact H|apply H|auto|exact Hfuel].
Qed.

(** What [first_fit] returns: the first node, in list order, whose block
    is large enough, or [NULL] when no block of the list is. *)
Lemma first_fit_cases s bl fl asize :
  heap s bl fl ->
  let r := first_fit s asize fl in
  (r = NULL /\ forall a sz, In a fl -> In (a, sz, false) bl -> sz < asize) \/
  (exists l1 l2 sz,
      fl = l1 ++ r :: l2 /\ In (r, sz, false) bl /\ asize <= sz /\
      forall a sz', In a l1 -> In (a, sz', false) bl -> sz' < asize).
Proof.
  intros H r. subst r. unfold first_fit.
  assert (Hsz : forall a sz, In a fl -> In (a, sz, false) bl -> size_at s a = sz).
  { intros a sz Ha Hin.
    destruct (heap_node_size _ _ _ a H Ha) as (sz' & Hin' & Hs & _).
    pose proof (seg_disjoint _ _ _ _ _ _ _ _ _ _ (b_seg _ _ (h_base _ _ _ H)) Hin Hin') as D.
    pose proof (base_block _ _ _ _ _ (h_base _ _ _ H) Hin).
    pose proof (base_block _ _ _ _ _ (h_base _ _ _ H) Hin').
    assert (sz = sz') by lia. congruence. }
  assert (Hgen : forall l, (forall a, In a l -> In a fl) ->
    match find (fun a => asize <=? size_at s a) l with
    | Some r => exists l1 l2, l = l1 ++ r :: l2 /\ asize <= size_at s r /\
                              forall a, In a l1 -> size_at s a < asize
    | None => forall a, In a l -> size_at s a < asize
    end).
  { induction l as [|y l IH]; intros Hsub; cbn [find].
    - intros a [].
    - destruct (Z.leb_spec asize (size_at s y)) as [Hle|Hlt].
      + exists [], l. split; [reflexivity|]. split; [exact Hle|intros a []].
      + assert (Hsub' : forall a, In a l -> In a fl) by (intros; apply Hsub; right; assumption).
        specialize (IH Hsub').
        destruct (find _ l) as [r|].
        * destruct IH as (l1 & l2 & -> & Hr & Hl1).
          exists (y :: l1), l2. split; [reflexivity|]. split; [exact Hr|].
          intros a [<-|Ha]; [exact Hlt|apply Hl1; exact Ha].
        * intros a [<-|Ha]; [exact Hlt|apply IH; exact Ha]. }
  specialize (Hgen fl (fun a Ha => Ha)).
  destruct (find _ fl) as [r|].
  - right. destruct Hgen as (l1 & l2 & E & Hr & Hl1).
    destruct (heap_node_size _ _ _ r H) as (sz & Hin & Hs & _).
    { rewrite E. apply in_elt. }
    exists l1, l2, sz. split; [exact E|]. split; [exact Hin|]. split; [lia|].
    intros a sz' Ha Hin'. rewrite <- (Hsz a sz'); [apply Hl1; exact Ha| |exact Hin'].
    rewrite E. apply in_or_app. left. exact Ha.
  - left. split; [reflexivity|]. intros a sz Ha Hin.
    rewrite <- (Hsz a sz Ha Hin). apply Hgen. exact Ha.
Qed.

(** ** Placement keeps the invariants *)

Lemma seg_app_before m pre rest a0 e a sz al x sx ax :
  seg m a0 (pre ++ rest) e -> In (a, sz, al) pre -> In (x, sx, ax) rest ->
  a + sz <= x.
Proof.
  intros H Ha Hx. apply seg_app in H. destruct H as (c & H1 & H2).
  eapply seg_in in Ha; [|exact H1]. eapply seg_in in Hx; [|exact H2]. lia.
Qed.

(** A block of the chain other than the one at [b] has another address. *)
Lemma chain_other_addr s pre b bs al post a sz al' :
  base s (pre ++ (b, bs, al) :: post) ->
  In (a, sz, al') (pre ++ post) -> a <> b.
Proof.
  intros Hb Hin. pose proof (b_seg _ _ Hb) as Hseg.
  apply in_app_or in Hin. destruct Hin as [Hin|Hin].
  - pose proof (seg_app_before _ _ _ _ _ _ _ _ b bs al Hseg Hin (or_introl eq_refl)).
    apply seg_app in Hseg. destruct Hseg as (c & H1 & _).
    eapply seg_in in Hin; [|exact H1]. lia.
  - change (pre ++ (b, bs, al) :: post) with (pre ++ [(b, bs, al)] ++ post) in Hseg.
    rewrite app_assoc in Hseg.
    assert (Hb_in : In (b, bs, al) (pre ++ [(b, bs, al)])) by (apply in_elt).
    pose proof (seg_app_before _ _ _ _ _ _ _ _ _ _ _ Hseg Hb_in Hin).
    apply seg_app in Hseg. destruct Hseg as (c & H1 & _).
    eapply seg_in in Hb_in; [|exact H1]. lia.
Qed.

Lemma place_WF_full s pre post fl b bs asize :
  heap s (pre ++ (b, bs, false) :: post) fl ->
  (forall a sz, In (a, sz, false) (pre ++ (b, bs, false) :: post) -> In a fl) ->
  naf pre -> naf post -> blk_alloc (first_block post) = true ->
  32 <= asize -> asize mod 16 = 0 -> asize <= bs ->
  exists s', place b asize s = Ok tt s' /\ same_region s s' /\
             WF s' (place_bl pre b bs post asize) (place_fl fl b bs asize) /\
             keeps_allocated s s' (pre ++ post) /\
             slack s' (place_fl fl b bs asize) = slack s fl.
Proof.
  intros H Hc Hn1 Hn2 Hfa Ha1 Ha2 Ha3.
  assert (Hin : In b fl) by (apply (Hc b bs); apply in_elt).
  destruct (place_full s pre post fl b bs asize H Hin Ha1 Ha2 Ha3)
    as (s' & E & R & H' & K & S).
  exists s'. split; [exact E|]. split; [exact R|].
  split; [|split; [exact K|exact S]].
  assert (Hother : forall a sz, In (a, sz, false) (pre ++ post) ->
                                In a (remove Z.eq_dec b fl)).
  { intros a sz Ha. apply in_remove_other.
    - apply (Hc a sz). apply in_app_or in Ha. apply in_or_app.
      destruct Ha as [Ha|Ha]; [left|right; right]; exact Ha.
    - eapply chain_other_addr; [apply H|exact Ha]. }
  unfold place_bl, place_fl.
  destruct (32 <=? bs - asize).
  - constructor; [exact H'| |].
    + intros a sz Ha. apply in_or_app.
      apply in_app_or in Ha. destruct Ha as [Ha|[Ha|[Ha|Ha]]].
      * left. apply (Hother a sz). apply in_or_app. left. exact Ha.
      * inversion Ha.
      * inversion Ha. right. left. reflexivity.
      * left. apply (Hother a sz). apply in_or_app. right. exact Ha.
    + apply naf_app. split; [exact Hn1|]. split.
      * apply naf_cons. split; [left; reflexivity|].
        apply naf_cons. split; [right; exact Hfa|exact Hn2].
      * right. reflexivity.
  - constructor; [exact H'| |].
    + intros a sz Ha.
      apply in_app_or in Ha. destruct Ha as [Ha|[Ha|Ha]].
      * apply (Hother a sz). apply in_or_app. left. exact Ha.
      * inversion Ha.
      * apply (Hother a sz). apply in_or_app. right. exact Ha.
    + apply naf_app. split; [exact Hn1|]. split.
      * apply naf_cons. split; [left; reflexivity|exact Hn2].
      * right. reflexivity.
Qed.

(** ** [malloc] *)

Lemma round_up_id x :
  0 <= x -> x + 15 < 2 ^ 64 -> x mod 16 = 0 -> round_up x dsize = x.
Proof. intros H0 H1 H2. rewrite round_up_spec by lia. mlia. Qed.

Lemma asize_bounds size :
  0 < size <= 2 ^ 64 - 32 ->
  let asize := round_up (padd size dsize) dsize in
  32 <= asize /\ asize mod 16 = 0 /\ size + 16 <= asize /\ asize < 2 ^ 64 - 15.
Proof.
  intros H asize.
  assert (E : asize = 16 * ((size + 16 + 15) / 16)).
  { unfold asize. replace (padd size dsize) with (size + 16).
    - apply round_up_spec; lia.
    - unfold dsize, wsize. rewrite padd_small; lia. }
  rewrite E. change (2 ^ 64) with 18446744073709551616 in *.
  repeat split; mlia.
Qed.

Lemma max_spec x y : max x y = Z.max x y.
Proof. unfold max. destruct (Z.gtb_spec x y); lia. Qed.

Lemma malloc_initialised s bl fl fuel size :
  heap s bl fl -> malloc fuel size s = malloc_sized fuel size s.
Proof.
  intros H. pose proof (heap_bounds _ _ _ H) as (B1 & B2 & B3).
  unfold malloc. erewrite bind_ok by reflexivity.
  rewrite (b_root _ _ (h_base _ _ _ H)).
  destruct (Z.eqb_spec (heap_lo s + 8) NULL) as [E|_]; [unfold NULL in E; lia|].
  erewrite bind_ok by reflexivity. reflexivity.
Qed.

Lemma malloc_zero s bl fl fuel : heap s bl fl -> malloc fuel 0 s = Ok NULL s.
Proof. intros H. rewrite (malloc_initialised _ _ _ _ _ H). reflexivity. Qed.

(** A fit is found: the request is placed in it. *)
Lemma malloc_found_full s pre post fl b bs fuel size :
  let bl := pre ++ (b, bs, false) :: post in
  let asize := round_up (padd size dsize) dsize in
  WF s bl fl -> 0 < size <= 2 ^ 64 - 32 -> (length fl < fuel)%nat ->
  first_fit s asize fl = b -> asize <= bs ->
  exists s', malloc fuel size s = Ok (b + 8) s' /\ same_region s s' /\
             WF s' (place_bl pre b bs post asize) (place_fl fl b bs asize) /\
             keeps_allocated s s' (pre ++ post) /\
             slack s' (place_fl fl b bs asize) = slack s fl.
Proof.
  intros bl asize [H Hc Hn] Hsz Hfuel Hff Hle.
  pose proof (heap_bounds _ _ _ H) as (B1 & B2 & B3).
  pose proof (asize_bounds size Hsz) as (A1 & A2 & A3 & A4). fold asize in A1, A2, A3, A4.
  assert (Hblk : In (b, bs, false) bl) by apply in_elt.
  pose proof (base_block _ _ _ _ _ (h_base _ _ _ H) Hblk) as (C1 & C2 & C3 & C4 & _).
  apply naf_app in Hn. destruct Hn as (Hn1 & Hn2 & _).
  apply naf_cons in Hn2. destruct Hn2 as ([Hx|Hfa] & Hn2); [discriminate|].
  destruct (place_WF_full s pre post fl b bs asize H Hc Hn1 Hn2 Hfa A1 A2 Hle)
    as (s' & E & R & W & K & S).
  exists s'. split; [|split; [exact R|split; [exact W|split; [exact K|exact S]]]].
  rewrite (malloc_initialised _ _ _ _ _ H). unfold malloc_sized.
  destruct (Z.leb_spec size 0) as [|_]; [lia|].
  fold asize.
  erewrite bind_ok by (apply (find_fit_spec _ _ _ _ _ H Hfuel)).
  rewrite Hff.
  destruct (Z.eqb_spec b NULL) as [E0|_]; [unfold NULL in E0; lia|].
  erewrite bind_ok by exact E.
  unfold header_to_payload, content_offset. rewrite padd_small by lia.
  reflexivity.
Qed.

(** No fit and no room to grow: a null result, and nothing has changed. *)
Lemma malloc_fail s bl fl fuel size :
  let asize := round_up (padd size dsize) dsize in
  heap s bl fl -> 0 < size <= 2 ^ 64 - 32 -> (length fl < fuel)%nat ->
  first_fit s asize fl = NULL ->
  heap_max s < heap_brk s + max asize chunksize ->
  malloc fuel size s = Ok NULL s.
Proof.
  intros asize H Hsz Hfuel Hff Hroom.
  pose proof (asize_bounds size Hsz) as (A1 & A2 & A3 & A4). fold asize in A1, A2, A3, A4.
  rewrite (malloc_initialised _ _ _ _ _ H). unfold malloc_sized.
  destruct (Z.leb_spec size 0) as [|_]; [lia|].
  fold asize.
  erewrite bind_ok by (apply (find_fit_spec _ _ _ _ _ H Hfuel)).
  rewrite Hff. cbn [Z.eqb NULL].
  erewrite bind_ok.
  2:{ apply extend_heap_fail.
      rewrite round_up_id; [exact Hroom| | |];
        rewrite max_spec in *; change chunksize with 4096 in *; try lia.
      mlia. }
  reflexivity.
Qed.

(** No fit, room to grow: the heap grows by [max asize chunksize], the new
    block goes to the list as it is, and the request is placed at its
    start. *)
Lemma malloc_extend_full s bl fl fuel size :
  let asize := round_up (padd size dsize) dsize in
  let ext := max asize chunksize in
  WF s bl fl -> 0 < size <= 2 ^ 64 - 32 -> (length fl < fuel)%nat ->
  first_fit s asize fl = NULL ->
  heap_brk s + ext <= heap_max s ->
  exists s',
    malloc fuel size s = Ok (heap_brk s + 8) s' /\
    heap_brk s' = heap_brk s + ext /\
    heap_lo s' = heap_lo s /\ heap_max s' = heap_max s /\
    WF s' (place_bl bl (heap_brk s) ext [] asize)
          (place_fl (fl ++ [heap_brk s]) (heap_brk s) ext asize) /\
    keeps_allocated s s' bl /\
    slack s' (place_fl (fl ++ [heap_brk s]) (heap_brk s) ext asize) = slack s fl.
Proof.
  intros asize ext [H Hc Hn] Hsz Hfuel Hff Hroom.
  pose proof (heap_bounds _ _ _ H) as (B1 & B2 & B3).
  pose proof (b_max _ _ (h_base _ _ _ H)) as Hmax.
  pose proof (asize_bounds size Hsz) as (A1 & A2 & A3 & A4). fold asize in A1, A2, A3, A4.
  assert (Hext : 4096 <= ext /\ asize <= ext /\ ext mod 16 = 0 /\ ext = Z.max asize 4096).
  { unfold ext. rewrite max_spec. change chunksize with 4096.
    repeat split; try lia. mlia. }
  destruct Hext as (X1 & X2 & X3 & X4).
  assert (Hru : round_up ext dsize = ext) by (apply round_up_id; lia).
  destruct (extend_heap_full s bl fl ext H)
    as (s1 & E1 & H1 & K1 & L1 & M1 & F1 & S1); try lia.
  rewrite Hru in *.
  destruct (place_WF_full s1 bl [] (fl ++ [heap_brk s]) (heap_brk s) ext asize H1)
    as (s2 & E2 & R2 & W2 & F2 & S2); try assumption; try reflexivity; try exact I.
  - intros a sz Ha. apply in_or_app. apply in_app_or in Ha.
    destruct Ha as [Ha|[Ha|[]]].
    + left. apply (Hc a sz). exact Ha.
    + inversion Ha. right. left. reflexivity.
  - destruct R2 as (R21 & R22 & R23 & R24 & R25).
    exists s2.
    split; [|split; [congruence|split; [congruence|split; [congruence|
              split; [exact W2|split]]]]].
    2:{ rewrite app_nil_r in F2. intros c csz x Hin Hx.
        rewrite (F2 c csz x Hin Hx). apply (F1 c csz x Hin Hx). }
    2:{ rewrite S2. exact S1. }
    rewrite (malloc_initialised _ _ _ _ _ H). unfold malloc_sized.
    destruct (Z.leb_spec size 0) as [|_]; [lia|].
    fold asize.
    erewrite bind_ok by (apply (find_fit_spec _ _ _ _ _ H Hfuel)).
    rewrite Hff. cbn [Z.eqb NULL]. fold ext.
    erewrite bind_ok by exact E1.
    destruct (Z.eqb_spec (heap_brk s) NULL) as [E0|_]; [unfold NULL in E0; lia|].
    erewrite bind_ok by exact E2.
    unfold header_to_payload, content_offset. rewrite padd_small by lia.
    reflexivity.
Qed.

Lemma malloc_extend s bl fl fuel size :
  let asize := round_up (padd size dsize) dsize in
  let ext := max asize chunksize in
  WF s bl fl -> 0 < size <= 2 ^ 64 - 32 -> (length fl < fuel)%nat ->
  first_fit s asize fl = NULL ->
  heap_brk s + ext <= heap_max s ->
  exists s',
    malloc fuel size s = Ok (heap_brk s + 8) s' /\
    heap_brk s' = heap_brk s + ext /\
    heap_lo s' = heap_lo s /\ heap_max s' = heap_max s /\
    WF s' (place_bl bl (heap_brk s) ext [] asize)
          (place_fl (fl ++ [heap_brk s]) (heap_brk s) ext asize).
Proof.
  intros asize ext W Hsz Hfuel Hff Hroom.
  destruct (malloc_extend_full _ _ _ _ _ W Hsz Hfuel Hff Hroom)
    as (s' & E & K & L & M & W' & _).
  eauto 6.
Qed.

Lemma place_bl_block_le pre b bs post asize :
  asize <= bs ->
  exists bs', In (b, bs', true) (place_bl pre b bs post asize) /\
              asize <= bs' <= bs.
Proof.
  intros H. unfold place_bl. destruct (32 <=? bs - asize).
  - exists asize. split; [apply in_elt|lia].
  - exists bs. split; [apply in_elt|lia].
Qed.

Lemma place_bl_keeps pre b bs post asize x :
  In x (pre ++ post) -> In x (place_bl pre b bs post asize).
Proof.
  intros H. unfold place_bl. apply in_app_or in H.
  destruct (32 <=? bs - asize); apply in_or_app; simpl; tauto.
Qed.

(** [malloc] on a well-formed heap: either a null result and nothing has
    changed, or the payload of an allocated block that is large enough, in
    a heap that is again well formed and has kept its allocated blocks. *)
Lemma malloc_WF_full s bl fl fuel size :
  WF s bl fl -> 0 < size <= 2 ^ 64 - 32 -> (length fl < fuel)%nat ->
  exists r s',
    malloc fuel size s = Ok r s' /\
    ((r = NULL /\ s' = s) \/
     (exists b bs bl' fl',
        r = b + 8 /\ WF s' bl' fl' /\ In (b, bs, true) bl' /\
        size + 16 <= bs /\
        (forall x, In x bl -> blk_alloc x = true -> In x bl') /\
        heap_lo s' = heap_lo s /\ heap_max s' = heap_max s /\
        keeps_allocated s s' bl /\ slack s' fl' = slack s fl /\
        (forall c csz, In (c, csz, true) bl -> c + csz <= b \/ b + bs <= c) /\
        heap_brk s <= heap_brk s')).
Proof.
  intros W Hsz Hfuel. pose proof (wf_heap _ _ _ W) as H.
  pose proof (asize_bounds size Hsz) as (A1 & A2 & A3 & A4).
  set (asize := round_up (padd size dsize) dsize) in *.
  destruct (first_fit_cases s bl fl asize H)
    as [(Hnull & _)|(l1 & l2 & bs & Efl & Hin & Hle & _)].
  - destruct (Z_le_gt_dec (heap_brk s + max asize chunksize) (heap_max s)) as [Hroom|Hno].
    + destruct (malloc_extend_full s bl fl fuel size W Hsz Hfuel Hnull Hroom)
        as (s' & E & K & L & M & W' & F' & S').
      fold asize in W', S'.
      assert (Hle : asize <= max asize chunksize) by (rewrite max_spec; lia).
      destruct (place_bl_block_le bl (heap_brk s) (max asize chunksize) [] asize Hle)
        as (bs' & Hb' & Hbs').
      exists (heap_brk s + 8), s'. split; [exact E|]. right.
      exists (heap_brk s), bs'. do 2 eexists.
      split; [reflexivity|]. split; [exact W'|]. split; [exact Hb'|].
      split; [lia|]. split; [|split; [exact L|split; [exact M|split; [exact F'|
        split; [exact S'|split]]]]].
      * intros x Hx _. apply place_bl_keeps. rewrite app_nil_r. exact Hx.
      * intros c csz Hin.
        pose proof (base_block _ _ _ _ _ (h_base _ _ _ H) Hin) as (C1 & C2 & _).
        left. exact C2.
      * rewrite K, max_spec. change chunksize with 4096. lia.
    + exists NULL, s. split; [|left; auto].
      apply (malloc_fail s bl fl fuel size H Hsz Hfuel Hnull).
      apply Z.gt_lt. exact Hno.
  - set (b := first_fit s asize fl) in *.
    destruct (in_split _ _ Hin) as (pre & post & Ebl). subst bl.
    pose proof (b_seg _ _ (h_base _ _ _ H)) as Hseg.
    apply seg_app in Hseg. destruct Hseg as (b' & Hpre & Hseg).
    pose proof Hseg as Hseg'. cbn [seg] in Hseg'.
    destruct Hseg' as (Eb' & _ & _ & _ & _ & Hpost). subst b'.
    destruct (malloc_found_full s pre post fl b bs fuel size W Hsz Hfuel eq_refl Hle)
      as (s' & E & R & W' & F' & S').
    fold asize in W', S'.
    destruct (place_bl_block_le pre b bs post asize Hle) as (bs' & Hb' & Hbs').
    destruct R as (R1 & R2 & R3 & R4 & R5).
    assert (Hdrop : forall c csz, In (c, csz, true) (pre ++ (b, bs, false) :: post) ->
                                  In (c, csz, true) (pre ++ post)).
    { intros c csz Hi. apply in_app_or in Hi. apply in_or_app.
      destruct Hi as [Hi|[Hi|Hi]]; [left; exact Hi|discriminate|right; exact Hi]. }
    exists (b + 8), s'. split; [exact E|]. right.
    exists b, bs'. do 2 eexists.
    split; [reflexivity|]. split; [exact W'|]. split; [exact Hb'|].
    split; [lia|]. split; [|split; [exact R1|split; [exact R3|split; [|
      split; [exact S'|split]]]]].
    + intros x Hx Hal. apply place_bl_keeps. apply in_app_or in Hx. apply in_or_app.
      destruct Hx as [Hx|[Hx|Hx]]; [left; exact Hx| |right; exact Hx].
      subst x. discriminate.
    + eapply keeps_allocated_sub; [exact F'|exact Hdrop].
    + intros c csz Hi.
      assert (Ho : c + csz <= b \/ b + bs <= c).
      { eapply alloc_apart; [exact Hpre| |exact Hpost|apply Hdrop; exact Hi].
        instantiate (1 := [(b, bs, false)]). cbn [seg]. cbn [seg] in Hseg.
        repeat split; try tauto. }
      lia.
    + rewrite R2. lia.
Qed.

(** ** [free] *)

Lemma last_block_free pre :
  blk_alloc (last_block pre) = false ->
  exists pre' p psz, pre = pre' ++ [(p, psz, false)].
Proof.
  intros H. destruct (list_end_cases pre) as [->|(pre' & [[p psz] pal] & ->)].
  - discriminate.
  - rewrite last_block_app in H. cbn in H. subst pal. eauto.
Qed.

Lemma first_block_free post :
  blk_alloc (first_block post) = false ->
  exists n nsz post', post = (n, nsz, false) :: post'.
Proof.
  destruct post as [|[[n nsz] nal] post']; cbn; intros H; [discriminate|].
  subst nal. eauto.
Qed.

Lemma free_full s pre post fl b sz :
  WF s (pre ++ (b, sz, true) :: post) fl ->
  exists s' bl' fl',
    free (b + 8) s = Ok tt s' /\ WF s' bl' fl' /\ same_region s s' /\
    (forall x, In x (pre ++ post) -> blk_alloc x = true -> In x bl') /\
    keeps_allocated s s' (pre ++ post) /\ slack s' fl' = slack s fl /\
    (exists p psz, In (p, psz, false) bl' /\ p <= b /\ b + sz <= p + psz) /\
    (length fl' <= length fl + 1)%nat.
Proof.
  intros [H Hc Hn].
  pose proof (heap_bounds _ _ _ H) as (B1 & B2 & B3).
  assert (Hblk : In (b, sz, true) (pre ++ (b, sz, true) :: post)) by apply in_elt.
  pose proof (base_block _ _ _ _ _ (h_base _ _ _ H) Hblk) as (C1 & C2 & C3 & C4 & _).
  pose proof (b_seg _ _ (h_base _ _ _ H)) as Hseg.
  apply seg_app in Hseg. destruct Hseg as (b' & Hpre & Hseg).
  pose proof Hseg as Hseg'. cbn [seg] in Hseg'.
  destruct Hseg' as (<- & _ & _ & _ & _ & Hpost).
  assert (Hfl : forall a, In a fl -> exists sz', In (a, sz', false) (pre ++ post)).
  { intros a Ha. destruct (h_sound _ _ _ H a Ha) as (sz' & Hin). exists sz'.
    apply in_app_or in Hin. apply in_or_app.
    destruct Hin as [Hin|[Hin|Hin]]; [left; exact Hin|inversion Hin|right; exact Hin]. }
  destruct (heap_write_full s pre [(b, sz, true)] post fl b (b + sz) false H Hpre)
    as (s1 & E1 & H1 & R1 & K1 & S1); try assumption.
  { cbn [seg]. cbn [seg] in Hseg. repeat split; tauto. }
  { discriminate. }
  replace (b + sz - b) with sz in * by lia.
  assert (Hnb : ~ In b fl).
  { intros Hin. destruct (Hfl b Hin) as (sz' & Hin').
    eapply chain_other_addr; [apply H|exact Hin'|reflexivity]. }
  assert (Hc1 : forall a sz', In (a, sz', false) (pre ++ post) -> In a fl).
  { intros a sz' Ha. apply (Hc a sz'). apply in_app_or in Ha. apply in_or_app.
    destruct Ha as [Ha|Ha]; [left|right; right]; exact Ha. }
  apply naf_app in Hn. destruct Hn as (Hn1 & Hn2 & _).
  apply naf_cons in Hn2. destruct Hn2 as (_ & Hn2).
  assert (Efree : free (b + 8) s = (_ <- coalesce b ;; ret tt) s1).
  { unfold free, payload_to_header, content_offset. rewrite psub_small by lia.
    replace (b + 8 - 8) with b by lia.
    erewrite bind_ok by (eapply base_get_size; [apply H|exact Hblk]).
    erewrite bind_ok by exact E1. reflexivity. }
  rewrite Efree.
  destruct (blk_alloc (last_block pre)) eqn:Ep;
    destruct (blk_alloc (first_block post)) eqn:En.
  - (* both neighbours allocated *)
    destruct (coalesce_case1_full s1 pre post fl b sz H1 Hnb Ep En)
      as (s2 & E2 & H2 & R2 & K2 & S2).
    exists s2. do 2 eexists. split; [erewrite bind_ok by exact E2; reflexivity|].
    split; [|split; [eapply same_region_trans; eassumption|
      split; [|split; [|split; [|split]]]]].
    + constructor; [exact H2| |].
      * intros a sz' Ha. apply in_or_app. apply in_app_or in Ha.
        destruct Ha as [Ha|[Ha|Ha]].
        -- left. apply (Hc1 a sz'). apply in_or_app. left. exact Ha.
        -- inversion Ha. right. left. reflexivity.
        -- left. apply (Hc1 a sz'). apply in_or_app. right. exact Ha.
      * apply naf_app. split; [exact Hn1|]. split; [|left; exact Ep].
        apply naf_cons. split; [right; exact En|exact Hn2].
    + intros x Hx _. apply in_app_or in Hx. apply in_or_app.
      destruct Hx as [Hx|Hx]; [left|right; right]; exact Hx.
    + intros c csz x Hi Hx. rewrite (K2 c csz x Hi Hx). apply (K1 c csz x Hi Hx).
    + rewrite S2. exact S1.
    + exists b, sz. split; [apply in_elt|lia].
    + rewrite length_app. cbn [length]. lia.
  - (* only the next block is free *)
    destruct (first_block_free _ En) as (n & nsz & post' & ->).
    assert (Hn_in : In n fl).
    { apply (Hc1 n nsz). apply in_or_app. right. left. reflexivity. }
    destruct (coalesce_case2_full s1 pre post' fl b sz n nsz H1 Hnb Hn_in Ep)
      as (s2 & E2 & H2 & R2 & K2 & S2).
    apply naf_cons in Hn2. destruct Hn2 as ([Hx|Hfa] & Hn2); [discriminate|].
    exists s2. do 2 eexists. split; [erewrite bind_ok by exact E2; reflexivity|].
    split; [|split; [eapply same_region_trans; eassumption|
      split; [|split; [|split; [|split]]]]].
    + constructor; [exact H2| |].
      * intros a sz' Ha. apply in_or_app. apply in_app_or in Ha.
        destruct Ha as [Ha|[Ha|Ha]].
        -- left. apply in_remove_other.
           ++ apply (Hc1 a sz'). apply in_or_app. left. exact Ha.
           ++ assert (Ha' : In (a, sz', false) ((pre ++ [(b, sz, true)]) ++ post')).
              { apply in_or_app. left. apply in_or_app. left. exact Ha. }
              eapply chain_other_addr; [|exact Ha'].
              rewrite <- !app_assoc. apply H.
        -- inversion Ha. right. left. reflexivity.
        -- left. apply in_remove_other.
           ++ apply (Hc1 a sz'). apply in_or_app. right. right. exact Ha.
           ++ assert (Ha' : In (a, sz', false) ((pre ++ [(b, sz, true)]) ++ post')).
              { apply in_or_app. right. exact Ha. }
              eapply chain_other_addr; [|exact Ha'].
              rewrite <- !app_assoc. apply H.
      * apply naf_app. split; [exact Hn1|]. split; [|left; exact Ep].
        apply naf_cons. split; [right; exact Hfa|exact Hn2].
    + intros x Hx Hal. apply in_app_or in Hx. apply in_or_app.
      destruct Hx as [Hx|[Hx|Hx]]; [left; exact Hx| |right; right; exact Hx].
      subst x. discriminate.
    + intros c csz x Hi Hx.
      assert (Hi' : In (c, csz, true) (pre ++ post')).
      { apply in_app_or in Hi. apply in_or_app.
        destruct Hi as [Hi|[Hi|Hi]]; [left; exact Hi|discriminate|right; exact Hi]. }
      rewrite (K2 c csz x Hi' Hx). apply (K1 c csz x Hi Hx).
    + rewrite S2. exact S1.
    + exists b, (sz + nsz). split; [apply in_elt|].
      pose proof (seg_in _ _ _ _ n nsz false Hpost (or_introl eq_refl)) as Bn'.
      lia.
    + rewrite length_app. cbn [length].
      pose proof (remove_length_le Z.eq_dec fl n). lia.
  - (* only the previous block is free *)
    destruct (last_block_free _ Ep) as (pre' & p & psz & ->).
    assert (Hp_in : In p fl).
    { apply (Hc1 p psz). apply in_or_app. left. apply in_elt. }
    rewrite <- app_assoc in H1. cbn [app] in H1.
    destruct (coalesce_case3_full s1 pre' post fl p psz b sz H1 Hnb Hp_in En)
      as (s2 & E2 & H2 & R2 & K2 & S2).
    apply naf_app in Hn1. destruct Hn1 as (Hn1 & _ & Hla).
    cbn [first_block hd blk_alloc snd] in Hla.
    destruct Hla as [Hla|Hx]; [|discriminate].
    exists s2. do 2 eexists. split; [erewrite bind_ok by exact E2; reflexivity|].
    split; [|split; [eapply same_region_trans; eassumption|
      split; [|split; [|split; [|split]]]]].
    + constructor; [exact H2| |].
      * intros a sz' Ha. apply in_or_app. apply in_app_or in Ha.
        destruct Ha as [Ha|[Ha|Ha]].
        -- left. apply in_remove_other.
           ++ apply (Hc1 a sz'). apply in_or_app. left. apply in_or_app. left. exact Ha.
           ++ assert (Ha' : In (a, sz', false) (pre' ++ (b, sz, true) :: post)).
              { apply in_or_app. left. exact Ha. }
              eapply chain_other_addr; [|exact Ha'].
              rewrite <- app_assoc in H. apply H.
        -- inversion Ha. right. left. reflexivity.
        -- left. apply in_remove_other.
           ++ apply (Hc1 a sz'). apply in_or_app. right. exact Ha.
           ++ assert (Ha' : In (a, sz', false) (pre' ++ (b, sz, true) :: post)).
              { apply in_or_app. right. right. exact Ha. }
              eapply chain_other_addr; [|exact Ha'].
              rewrite <- app_assoc in H. apply H.
      * apply naf_app. split; [exact Hn1|]. split; [|left; exact Hla].
        apply naf_cons. split; [right; exact En|exact Hn2].
    + intros x Hx Hal. apply in_app_or in Hx. apply in_or_app.
      destruct Hx as [Hx|Hx]; [|right; right; exact Hx].
      apply in_app_or in Hx. destruct Hx as [Hx|[Hx|[]]]; [left; exact Hx|].
      subst x. discriminate.
    + intros c csz x Hi Hx.
      assert (Hi' : In (c, csz, true) (pre' ++ post)).
      { apply in_app_or in Hi. apply in_or_app.
        destruct Hi as [Hi|Hi]; [|right; exact Hi].
        apply in_app_or in Hi.
        destruct Hi as [Hi|[Hi|[]]]; [left; exact Hi|discriminate]. }
      rewrite (K2 c csz x Hi' Hx). apply (K1 c csz x Hi Hx).
    + rewrite S2. exact S1.
    + exists p, (psz + sz). split; [apply in_elt|].
      apply seg_app in Hpre. destruct Hpre as (x & _ & Hx). cbn [seg] in Hx.
      destruct Hx as (Hx1 & Hx2 & _ & _ & _ & Hx3). lia.
    + rewrite length_app. cbn [length].
      pose proof (remove_length_le Z.eq_dec fl p). lia.
  - (* both neighbours are free *)
    destruct (last_block_free _ Ep) as (pre' & p & psz & ->).
    destruct (first_block_free _ En) as (n & nsz & post' & ->).
    assert (Hp_in : In p fl).
    { apply (Hc1 p psz). apply in_or_app. left. apply in_elt. }
    assert (Hn_in : In n fl).
    { apply (Hc1 n nsz). apply in_or_app. right. left. reflexivity. }
    rewrite <- app_assoc in H1. cbn [app] in H1.
    destruct (coalesce_case4_full s1 pre' post' fl p psz b sz n nsz H1 Hnb Hp_in Hn_in)
      as (s2 & E2 & H2 & R2 & K2 & S2).
    apply naf_app in Hn1. destruct Hn1 as (Hn1 & _ & Hla).
    cbn [first_block hd blk_alloc snd] in Hla.
    destruct Hla as [Hla|Hx]; [|discriminate].
    apply naf_cons in Hn2. destruct Hn2 as ([Hx|Hfa] & Hn2); [discriminate|].
    exists s2. do 2 eexists. split; [erewrite bind_ok by exact E2; reflexivity|].
    split; [|split; [eapply same_region_trans; eassumption|
      split; [|split; [|split; [|split]]]]].
    + constructor; [exact H2| |].
      * assert (Hp_addr : forall a sz', In (a, sz', false) (pre' ++ post') -> a <> p).
        { intros a sz' Ha.
          assert (Ha' : In (a, sz', false) (pre' ++ (b, sz, true) :: (n, nsz, false) :: post')).
          { apply in_app_or in Ha. apply in_or_app. simpl. tauto. }
          eapply chain_other_addr; [|exact Ha'].
          rewrite <- app_assoc in H. apply H. }
        assert (Hn_addr : forall a sz', In (a, sz', false) (pre' ++ post') -> a <> n).
        { intros a sz' Ha.
          assert (Ha' : In (a, sz', false) ((pre' ++ [(p, psz, false); (b, sz, true)]) ++ post')).
          { apply in_app_or in Ha. apply in_or_app.
            destruct Ha as [Ha|Ha]; [left; apply in_or_app; left; exact Ha|right; exact Ha]. }
          eapply chain_other_addr; [|exact Ha'].
          rewrite <- !app_assoc in *. apply H. }
        intros a sz' Ha. apply in_or_app. apply in_app_or in Ha.
        destruct Ha as [Ha|[Ha|Ha]].
        -- left. apply in_remove_other; [apply in_remove_other|].
           ++ apply (Hc1 a sz'). apply in_or_app. left. apply in_or_app. left. exact Ha.
           ++ apply (Hp_addr a sz'). apply in_or_app. left. exact Ha.
           ++ apply (Hn_addr a sz'). apply in_or_app. left. exact Ha.
        -- inversion Ha. right. left. reflexivity.
        -- left. apply in_remove_other; [apply in_remove_other|].
           ++ apply (Hc1 a sz'). apply in_or_app. right. right. exact Ha.
           ++ apply (Hp_addr a sz'). apply in_or_app. right. exact Ha.
           ++ apply (Hn_addr a sz'). apply in_or_app. right. exact Ha.
      * apply naf_app. split; [exact Hn1|]. split; [|left; exact Hla].
        apply naf_cons. split; [right; exact Hfa|exact Hn2].
    + intros x Hx Hal. apply in_app_or in Hx. apply in_or_app.
      destruct Hx as [Hx|[Hx|Hx]]; [|subst x; discriminate|right; right; exact Hx].
      apply in_app_or in Hx. destruct Hx as [Hx|[Hx|[]]]; [left; exact Hx|].
      subst x. discriminate.
    + intros c csz x Hi Hx.
      assert (Hi' : In (c, csz, true) (pre' ++ post')).
      { apply in_app_or in Hi. apply in_or_app.
        destruct Hi as [Hi|[Hi|Hi]]; [|discriminate|right; exact Hi].
        apply in_app_or in Hi.
        destruct Hi as [Hi|[Hi|[]]]; [left; exact Hi|discriminate]. }
      rewrite (K2 c csz x Hi' Hx). apply (K1 c csz x Hi Hx).
    + rewrite S2. exact S1.
    + exists p, (psz + sz + nsz). split; [apply in_elt|].
      apply seg_app in Hpre. destruct Hpre as (x & _ & Hx). cbn [seg] in Hx.
      destruct Hx as (Hx1 & Hx2 & _ & _ & _ & Hx3).
      pose proof (seg_in _ _ _ _ n nsz false Hpost (or_introl eq_refl)) as Bn'.
      lia.
    + rewrite length_app. cbn [length].
      pose proof (remove_length_le Z.eq_dec (remove Z.eq_dec p fl) n).
      pose proof (remove_length_le Z.eq_dec fl p). lia.
Qed.

Lemma free_spec s pre post fl b sz :
  WF s (pre ++ (b, sz, true) :: post) fl ->
  exists s' bl' fl',
    free (b + 8) s = Ok tt s' /\ WF s' bl' fl' /\ same_region s s' /\
    (forall x, In x (pre ++ post) -> blk_alloc x = true -> In x bl').
Proof.
  intros W.
  destruct (free_full _ _ _ _ _ _ W) as (s' & bl' & fl' & E & W' & R & Hk & _).
  exists s', bl', fl'. auto.
Qed.

(** ** Writing into a payload *)

Lemma WF_payload_write s pre post fl b sz m' :
  WF s (pre ++ (b, sz, true) :: post) fl ->
  (forall y, y + 8 <= b + 8 \/ b + sz - 8 <= y -> load64 m' y = load64 (mem s) y) ->
  WF (set_mem s m') (pre ++ (b, sz, true) :: post) fl.
Proof.
  intros [H Hc Hn] Hfr. constructor; [|exact Hc|exact Hn].
  pose proof (b_seg _ _ (h_base _ _ _ H)) as Hseg.
  apply seg_app in Hseg. destruct Hseg as (b' & Hpre & Hseg).
  cbn [seg] in Hseg. destruct Hseg as (<- & Hs & Hm & Hh & Hf & Hpost).
  apply (heap_region_rewrite s m' pre [(b, sz, true)] [(b, sz, true)] post fl b (b + sz));
    try assumption.
  - intros a Ha. destruct (h_sound _ _ _ H a Ha) as (sz' & Hin). exists sz'.
    apply in_app_or in Hin. apply in_or_app.
    destruct Hin as [Hin|[Hin|Hin]]; [left; exact Hin|inversion Hin|right; exact Hin].
  - intros y Hy. apply Hfr. lia.
  - cbn [seg]. repeat split; try assumption.
    + rewrite Hfr by lia. exact Hh.
    + rewrite Hfr by lia. exact Hf.
Qed.

Lemma range_in_heap_iff s p n :
  range_in_heap s p n = true <-> n = 0 \/ (heap_lo s <= p /\ p + n <= heap_brk s).
Proof.
  unfold range_in_heap. rewrite orb_true_iff, andb_true_iff, Z.eqb_eq, !Z.leb_le.
  tauto.
Qed.

Lemma memcpy_ok s dst src n :
  range_in_heap s dst n = true -> range_in_heap s src n = true ->
  memcpy dst src n s = Ok tt (set_mem s (copy_bytes (mem s) dst src n)).
Proof. intros H1 H2. unfold memcpy. rewrite H1, H2. reflexivity. Qed.

Lemma memset_ok s dst c n :
  range_in_heap s dst n = true ->
  memset dst c n s = Ok tt (set_mem s (fill_bytes (mem s) dst c n)).
Proof. intros H1. unfold memset. rewrite H1. reflexivity. Qed.

(** ** [realloc] and [calloc] *)

Lemma in_but pre (y : block) post x :
  In x (pre ++ y :: post) -> x <> y -> In x (pre ++ post).
Proof.
  intros H Hne. apply in_app_or in H. apply in_or_app.
  destruct H as [H|[H|H]]; [left; exact H| |right; exact H].
  symmetry in H. contradiction.
Qed.

(** [realloc] of an allocated block to a new size: a null result and
    nothing has changed, or a new allocated block that holds the old
    payload up to the smaller of the two sizes, the old block freed, and
    every other allocated block where and as it was. *)
Lemma realloc_full s bl fl fuel ptr size sz0 :
  WF s bl fl -> In (ptr - 8, sz0, true) bl -> 0 < size <= 2 ^ 64 - 32 ->
  (length fl < fuel)%nat ->
  exists r s',
    realloc fuel ptr size s = Ok r s' /\
    ((r = NULL /\ s' = s) \/
     (r <> NULL /\ exists bl' fl',
        WF s' bl' fl' /\ slack s' fl' = slack s fl /\
        (exists bs, In (r - 8, bs, true) bl' /\ size + 16 <= bs) /\
        (forall i, 0 <= i < Z.min size (sz0 - 16) ->
                   mem s' (r + i) = mem s (ptr + i)) /\
        (forall c csz, In (c, csz, true) bl -> c <> ptr - 8 ->
           In (c, csz, true) bl' /\
           forall x, c <= x < c + csz -> mem s' x = mem s x) /\
        r <> ptr /\
        (exists p psz, In (p, psz, false) bl' /\
                       p <= ptr - 8 /\ ptr - 8 + sz0 <= p + psz))).
Proof.
  intros W Hold Hsz Hfuel.
  pose proof (heap_bounds _ _ _ (wf_heap _ _ _ W)) as (B1 & B2 & B3).
  pose proof (base_block _ _ _ _ _ (h_base _ _ _ (wf_heap _ _ _ W)) Hold)
    as (C1 & C2 & C3 & C4 & _).
  assert (Hp : ptr <> NULL) by (unfold NULL; lia).
  unfold realloc.
  destruct (Z.eqb_spec size 0) as [|_]; [lia|].
  destruct (Z.eqb_spec ptr NULL) as [|_]; [contradiction|].
  destruct (malloc_WF_full s bl fl fuel size W Hsz Hfuel)
    as (r & s1 & E1 & [(-> & ->)|(b & bs & bl1 & fl1 & -> & W1 & Hnew & Hbs &
                                   Hkeep & L1 & M1 & K1 & S1 & Hap & _)]).
  - exists NULL, s. split; [|left; auto].
    erewrite bind_ok by exact E1. reflexivity.
  - pose proof (wf_heap _ _ _ W1) as H1.
    pose proof (heap_bounds _ _ _ H1) as (D1 & D2 & D3).
    pose proof (base_block _ _ _ _ _ (h_base _ _ _ H1) Hnew) as (F1 & F2 & F3 & F4 & _).
    assert (Hold1 : In (ptr - 8, sz0, true) bl1) by (apply Hkeep; [exact Hold|reflexivity]).
    pose proof (base_block _ _ _ _ _ (h_base _ _ _ H1) Hold1) as (G1 & G2 & G3 & G4 & _).
    set (n := if size <? sz0 - 16 then size else sz0 - 16).
    assert (Hn : n = Z.min size (sz0 - 16)).
    { unfold n. destruct (Z.ltb_spec size (sz0 - 16)); lia. }
    set (s2 := set_mem s1 (copy_bytes (mem s1) (b + 8) ptr n)).
    assert (W2 : WF s2 bl1 fl1).
    { destruct (in_split _ _ Hnew) as (pre & post & Ebl1).
      rewrite Ebl1 in *. apply WF_payload_write; [exact W1|].
      intros y Hy. apply load64_copy_other. lia. }
    pose proof (Hap _ _ Hold) as Hapart.
    assert (Hbne : (b, bs, true) <> (ptr - 8, sz0, true)).
    { intros Heq. inversion Heq. lia. }
    destruct (in_split _ _ Hold1) as (pre1 & post1 & Ebl1). subst bl1.
    destruct (free_full s2 pre1 post1 fl1 (ptr - 8) sz0 W2)
      as (s3 & bl3 & fl3 & E3 & W3 & R3 & Hk3 & K3 & S3 & (p & psz & Hpf & Hle) & _).
    replace (ptr - 8 + 8) with ptr in E3 by lia.
    assert (Hnew' : In (b, bs, true) (pre1 ++ post1))
      by (eapply in_but; [exact Hnew|exact Hbne]).
    exists (b + 8), s3. split.
    { erewrite bind_ok by exact E1.
      destruct (Z.eqb_spec (b + 8) NULL) as [E0|_]; [unfold NULL in E0; lia|].
      unfold get_payload_size, payload_to_header, content_offset.
      rewrite (psub_small ptr) by lia.
      erewrite bind_ok.
      2:{ erewrite bind_ok by (eapply base_get_size; [apply H1|exact Hold1]).
          reflexivity. }
      unfold dsize, wsize. change (2 * 8) with 16. rewrite psub_small by lia.
      fold n.
      erewrite bind_ok.
      2:{ apply memcpy_ok; apply range_in_heap_iff; right; lia. }
      erewrite bind_ok by exact E3. reflexivity. }
    right. split; [unfold NULL; lia|]. exists bl3, fl3.
    split; [exact W3|]. split; [rewrite S3; exact S1|].
    split; [|split; [|split; [|split]]].
    4:{ intros Heq. lia. }
    4:{ exists p, psz. split; [exact Hpf|exact Hle]. }
    + exists bs. replace (b + 8 - 8) with b by lia. split; [|lia].
      apply Hk3; [exact Hnew'|reflexivity].
    + intros i Hi. rewrite <- Hn in Hi.
      rewrite (K3 b bs (b + 8 + i) Hnew') by lia.
      cbn [s2 set_mem mem]. unfold copy_bytes.
      destruct (Z.leb_spec (b + 8) (b + 8 + i)); [|lia].
      destruct (Z.ltb_spec (b + 8 + i) (b + 8 + n)); [|lia].
      cbn [andb]. replace (ptr + (b + 8 + i - (b + 8))) with (ptr + i) by lia.
      apply (K1 (ptr - 8) sz0); [exact Hold|lia].
    + intros c csz Hc Hne.
      assert (Hc1 : In (c, csz, true) (pre1 ++ (ptr - 8, sz0, true) :: post1))
        by (apply Hkeep; [exact Hc|reflexivity]).
      assert (Hc' : In (c, csz, true) (pre1 ++ post1)).
      { eapply in_but; [exact Hc1|]. intros Heq. inversion Heq. contradiction. }
      split; [apply Hk3; [exact Hc'|reflexivity]|].
      intros x Hx. rewrite (K3 c csz x Hc' Hx).
      cbn [s2 set_mem mem]. unfold copy_bytes.
      pose proof (Hap _ _ Hc) as Hco.
      destruct (Z.leb_spec (b + 8) x); destruct (Z.ltb_spec x (b + 8 + n));
        cbn [andb]; try (apply (K1 c csz x Hc Hx)).
      lia.
Qed.

(** [calloc] of a product that does not wrap: a null result and nothing
    has changed, or a new allocated block whose payload reads zero, every
    block that was allocated where and as it was. *)
Lemma calloc_full s bl fl fuel elements size :
  WF s bl fl -> 0 < elements < 2 ^ 64 -> 0 <= size < 2 ^ 64 ->
  elements * size <= 2 ^ 64 - 32 -> (length fl < fuel)%nat ->
  exists r s',
    calloc fuel elements size s = Ok r s' /\
    ((r = NULL /\ s' = s) \/
     (r <> NULL /\ exists bl' fl',
        WF s' bl' fl' /\ slack s' fl' = slack s fl /\
        (exists bs, In (r - 8, bs, true) bl' /\ elements * size + 16 <= bs) /\
        (forall i, 0 <= i < elements * size -> mem s' (r + i) = 0) /\
        (forall c csz, In (c, csz, true) bl ->
           In (c, csz, true) bl' /\
           forall x, c <= x < c + csz -> mem s' x = mem s x))).
Proof.
  intros W He Hs Hprod Hfuel.
  pose proof (heap_bounds _ _ _ (wf_heap _ _ _ W)) as (B1 & B2 & B3).
  unfold calloc, udiv.
  destruct (Z.eqb_spec elements 0) as [|_]; [lia|].
  erewrite bind_ok by reflexivity.
  rewrite wmul_small by nia.
  rewrite Z.mul_comm, Z.div_mul by lia.
  rewrite Z.eqb_refl. cbn [negb].
  rewrite (Z.mul_comm size elements).
  destruct (Z.eq_dec (elements * size) 0) as [E0|Hne].
  - rewrite E0. exists NULL, s. split; [|left; auto].
    erewrite bind_ok by (eapply malloc_zero; apply W). reflexivity.
  - destruct (malloc_WF_full s bl fl fuel (elements * size) W ltac:(nia) Hfuel)
      as (r & s1 & E1 & [(-> & ->)|(b & bs & bl1 & fl1 & -> & W1 & Hnew & Hbs &
                                     Hkeep & L1 & M1 & K1 & S1 & Hap & _)]).
    + exists NULL, s. split; [|left; auto].
      erewrite bind_ok by exact E1. reflexivity.
    + pose proof (wf_heap _ _ _ W1) as H1.
      pose proof (heap_bounds _ _ _ H1) as (D1 & D2 & D3).
      pose proof (base_block _ _ _ _ _ (h_base _ _ _ H1) Hnew) as (F1 & F2 & F3 & F4 & _).
      set (s2 := set_mem s1 (fill_bytes (mem s1) (b + 8) 0 (elements * size))).
      assert (W2 : WF s2 bl1 fl1).
      { destruct (in_split _ _ Hnew) as (pre & post & Ebl1).
        rewrite Ebl1 in *. apply WF_payload_write; [exact W1|].
        intros y Hy. apply load64_fill_other. lia. }
      exists (b + 8), s2. split.
      { erewrite bind_ok by exact E1.
        destruct (Z.eqb_spec (b + 8) NULL) as [E0|_]; [unfold NULL in E0; lia|].
        erewrite bind_ok.
        2:{ apply memset_ok. apply range_in_heap_iff. right. lia. }
        reflexivity. }
      right. split; [unfold NULL; lia|]. exists bl1, fl1.
      split; [exact W2|]. split; [exact S1|]. split; [|split].
      * exists bs. replace (b + 8 - 8) with b by lia. split; [exact Hnew|lia].
      * intros i Hi. cbn [s2 set_mem mem]. unfold fill_bytes.
        destruct (Z.leb_spec (b + 8) (b + 8 + i)); [|lia].
        destruct (Z.ltb_spec (b + 8 + i) (b + 8 + elements * size)); [|lia].
        reflexivity.
      * intros c csz Hc. split; [apply Hkeep; [exact Hc|reflexivity]|].
        intros x Hx. cbn [s2 set_mem mem]. unfold fill_bytes.
        pose proof (Hap _ _ Hc) as Hco.
        destruct (Z.leb_spec (b + 8) x);
          destruct (Z.ltb_spec x (b + 8 + elements * size));
          cbn [andb]; try (apply (K1 c csz x Hc Hx)).
        lia.
Qed.

(** ** Every public operation keeps the heap well formed *)

(** Every public operation within the contract keeps the heap well formed
    and [counter_global] in step with the free list. *)
Lemma run_op_full s bl fl fuel o :
  WF s bl fl -> op_ok bl o -> (length fl < fuel)%nat ->
  exists r s' bl' fl',
    run_op fuel o s = Ok r s' /\ WF s' bl' fl' /\ slack s' fl' = slack s fl.
Proof.
  intros W Hok Hfuel.
  assert (Hmalloc : forall size, size_ok size ->
            exists r s' bl' fl',
              malloc fuel size s = Ok r s' /\ WF s' bl' fl' /\
              slack s' fl' = slack s fl).
  { intros size Hsz. destruct (Z.eq_dec size 0) as [->|Hne].
    - exists NULL, s, bl, fl. split; [|split; [exact W|reflexivity]].
      eapply malloc_zero. apply W.
    - destruct (malloc_WF_full s bl fl fuel size W) as
        (r & s' & E & [(-> & ->)|(b & bs & bl' & fl' & _ & W' & _ & _ & _ & _ & _ &
                                  _ & S' & _)]);
        [unfold size_ok in Hsz; lia|exact Hfuel| |]; eauto 10. }
  assert (Hfree : forall ptr, allocated_ptr bl ptr ->
            exists s' bl' fl',
              free ptr s = Ok tt s' /\ WF s' bl' fl' /\ slack s' fl' = slack s fl).
  { intros ptr (sz & Hin). destruct (in_split _ _ Hin) as (pre & post & ->).
    destruct (free_full s pre post fl (ptr - 8) sz W)
      as (s' & bl' & fl' & E & W' & _ & _ & _ & S' & _).
    replace (ptr - 8 + 8) with ptr in E by lia. eauto 10. }
  destruct o as [size|ptr|ptr size|elements size]; cbn [run_op op_ok] in *.
  - apply Hmalloc. exact Hok.
  - destruct (Hfree ptr Hok) as (s' & bl' & fl' & E & W' & S').
    exists NULL, s', bl', fl'. split; [|split; [exact W'|exact S']].
    erewrite bind_ok by exact E. reflexivity.
  - destruct Hok as (Hsz & [Hptr|(-> & Hpos)]).
    + destruct (Z.eq_dec size 0) as [->|Hne].
      * destruct (Hfree ptr Hptr) as (s' & bl' & fl' & E & W' & S').
        exists NULL, s', bl', fl'. split; [|split; [exact W'|exact S']].
        unfold realloc. cbn [Z.eqb]. erewrite bind_ok by exact E. reflexivity.
      * destruct Hptr as (sz0 & Hold).
        destruct (realloc_full s bl fl fuel ptr size sz0 W Hold)
          as (r & s' & E & [(-> & ->)|(_ & bl' & fl' & W' & S' & _)]);
          [unfold size_ok in Hsz; lia|exact Hfuel| |]; eauto 10.
    + unfold realloc. destruct (Z.eqb_spec size 0) as [|_]; [lia|]. cbn [Z.eqb NULL].
      apply Hmalloc. exact Hsz.
  - destruct Hok as (He & Hs & [Hprod|Hover]).
    + destruct (calloc_full s bl fl fuel elements size W He Hs Hprod Hfuel)
        as (r & s' & E & [(-> & ->)|(_ & bl' & fl' & W' & S' & _)]); eauto 10.
    + exists NULL, s, bl, fl. split; [|split; [exact W|reflexivity]].
      apply calloc_overflow; assumption.
Qed.

Lemma run_op_WF s bl fl fuel o :
  WF s bl fl -> op_ok bl o -> (length fl < fuel)%nat ->
  exists r s' bl' fl', run_op fuel o s = Ok r s' /\ WF s' bl' fl'.
Proof.
  intros W Hok Hfuel.
  destruct (run_op_full s bl fl fuel o W Hok Hfuel)
    as (r & s' & bl' & fl' & E & W' & _).
  eauto 10.
Qed.

(** ** What a run that returns has gone through *)

Lemma find_fit_loop_result s bl fl asize :
  heap s bl fl ->
  forall l x fuel r s',
    dll (mem s) (heap_lo s + 8) x l -> (forall a, In a l -> In a fl) ->
    find_fit_loop fuel asize (nxt (mem s) x) s = Ok r s' ->
    s' = s /\ (r = NULL \/ In r l).
Proof.
  intros H.
  induction l as [|y l IH]; intros x fuel r s' Hd Hsub E;
    (destruct fuel as [|fuel]; [discriminate|]);
    unfold dll in Hd; cbn [dllf] in Hd; cbn [find_fit_loop] in E.
  - destruct Hd as (Hx & _). rewrite Hx in E.
    apply bind_inv in E. destruct E as (sz & s1 & E1 & E).
    apply get_size_inv in E1. destruct E1 as (-> & -> & _).
    rewrite (b_rhd _ _ (h_base _ _ _ H)) in E. change (extract_size 1) with 0 in E.
    cbn [Z.gtb Z.compare] in E. apply ret_inv in E. destruct E as (-> & ->). auto.
  - destruct Hd as (Hx & _ & Hd). rewrite Hx in E.
    apply bind_inv in E. destruct E as (sz & s1 & E1 & E).
    apply get_size_inv in E1. destruct E1 as (-> & -> & _).
    destruct (_ >? 0).
    + apply bind_inv in E. destruct E as (sz & s1 & E1 & E).
      apply get_size_inv in E1. destruct E1 as (-> & -> & Hb).
      destruct (asize <=? _).
      * apply ret_inv in E. destruct E as (-> & ->). split; [reflexivity|].
        right. left. reflexivity.
      * apply bind_inv in E. destruct E as (nx & s1 & E1 & E).
        unfold get_next_free, next_offset in E1.
        pose proof (heap_bounds _ _ _ H) as (B1 & B2 & B3).
        assert (Hy : node s bl y).
        { eapply heap_node; [exact H|]. right. apply Hsub. left. reflexivity. }
        pose proof (node_range _ _ _ (h_base _ _ _ H) Hy) as Ry.
        rewrite padd_small in E1 by lia.
        apply load_inv in E1. destruct E1 as (-> & -> & _).
        fold (nxt (mem s) y) in E.
        destruct (IH y fuel r s' Hd) as (-> & [->|Hin]); auto.
        { intros a Ha. apply Hsub. right. exact Ha. }
        split; [reflexivity|]. right. right. exact Hin.
    + apply ret_inv in E. destruct E as (-> & ->). auto.
Qed.

Lemma find_fit_result s bl fl fuel asize r s' :
  heap s bl fl -> find_fit fuel asize s = Ok r s' ->
  s' = s /\ (r = NULL \/ In r fl).
Proof.
  intros H E. pose proof (heap_bounds _ _ _ H) as (B1 & B2 & B3).
  unfold find_fit in E.
  apply bind_inv in E. destruct E as (root & s1 & E1 & E).
  apply gets_inv in E1. destruct E1 as (-> & ->).
  rewrite (b_root _ _ (h_base _ _ _ H)) in E.
  apply bind_inv in E. destruct E as (nx & s1 & E1 & E).
  unfold get_next_free, next_offset in E1. rewrite padd_small in E1 by lia.
  apply load_inv in E1. destruct E1 as (-> & -> & _).
  fold (nxt (mem s) (heap_lo s + 8)) in E.
  eapply find_fit_loop_result; [exact H|apply H|auto|exact E].
Qed.

Lemma extend_heap_result size s r s' :
  extend_heap size s = Ok r s' -> r = NULL \/ r = heap_brk s.
Proof.
  unfold extend_heap, mem_sbrk. unfold bind at 1.
  destruct (_ <=? _).
  - destruct (_ =? SBRK_FAILED).
    + intros E. apply ret_inv in E. tauto.
    + intros E. apply bind_inv in E. destruct E as (u & s1 & _ & E).
      apply bind_inv in E. destruct E as (u' & s2 & _ & E).
      apply ret_inv in E. tauto.
  - rewrite Z.eqb_refl. intros E. apply ret_inv in E. tauto.
Qed.

Lemma w64_mod16 x : x mod 16 = 0 -> w64 x mod 16 = 0.
Proof.
  intros H. unfold w64. rewrite modulus_eq.
  change 18446744073709551616 with (16 * 1152921504606846976).
  rewrite Z.rem_mul_r by lia. rewrite H. mlia.
Qed.

Lemma heap_block_aligned s bl fl b :
  heap s bl fl -> In b fl -> b mod 16 = 8.
Proof.
  intros H Hin. destruct (h_sound _ _ _ H b Hin) as (sz & Hsz).
  eapply seg_aligned; [apply (b_seg _ _ (h_base _ _ _ H))| |exact Hsz].
  pose proof (b_lo_al _ _ (h_base _ _ _ H)). mlia.
Qed.

Lemma heap_brk_aligned s bl fl : heap s bl fl -> heap_brk s mod 16 = 8.
Proof.
  intros H.
  eapply seg_end_aligned; [apply (b_seg _ _ (h_base _ _ _ H))|].
  pose proof (b_lo_al _ _ (h_base _ _ _ H)). mlia.
Qed.

Lemma payload_aligned b : b mod 16 = 8 -> header_to_payload b mod 16 = 0.
Proof.
  intros H. unfold header_to_payload, padd, content_offset.
  apply w64_mod16. mlia.
Qed.

Lemma malloc_sized_aligned s bl fl fuel size r s' :
  heap s bl fl -> malloc_sized fuel size s = Ok r s' -> r <> NULL ->
  r mod 16 = 0.
Proof.
  intros H E Hr. unfold malloc_sized in E.
  destruct (size <=? 0).
  - apply ret_inv in E. destruct E as (-> & _). contradiction.
  - apply bind_inv in E. destruct E as (b & s1 & E1 & E).
    destruct (find_fit_result _ _ _ _ _ _ _ H E1) as (-> & Hb).
    destruct (Z.eqb_spec b NULL) as [Eb|Hne].
    + apply bind_inv in E. destruct E as (b' & s2 & E2 & E).
      apply extend_heap_result in E2.
      destruct (Z.eqb_spec b' NULL) as [Eb'|Hne'].
      * apply ret_inv in E. destruct E as (-> & _). contradiction.
      * destruct E2 as [E2|E2]; [contradiction|]. subst b'.
        apply bind_inv in E. destruct E as (u & s3 & _ & E).
        apply ret_inv in E. destruct E as (-> & _).
        apply payload_aligned. eapply heap_brk_aligned. exact H.
    + destruct Hb as [Hb|Hin]; [contradiction|].
      apply bind_inv in E. destruct E as (u & s3 & _ & E).
      apply ret_inv in E. destruct E as (-> & _).
      apply payload_aligned. eapply heap_block_aligned; eassumption.
Qed.

(** On a heap that has not been initialised and has no room for the root,
    [malloc] returns null or faults. *)
Lemma malloc_no_room s fuel size r s' :
  fresh s -> heap_max s < heap_lo s + 40 ->
  malloc fuel size s = Ok r s' -> r = NULL /\ s' = s.
Proof.
  intros Hf Hno E. pose proof Hf as (F1 & F2 & F3 & F4 & F5 & F6).
  unfold malloc in E.
  apply bind_inv in E. destruct E as (root & s1 & E1 & E).
  apply gets_inv in E1. destruct E1 as (-> & ->).
  rewrite F1 in E. cbn [Z.eqb NULL] in E.
  apply bind_inv in E. destruct E as (u & s1 & E1 & E).
  apply bind_inv in E1. destruct E1 as (ok & s2 & E1 & E2).
  rewrite (mm_init_no_room s Hf Hno) in E1. inversion E1; subst ok s2.
  apply ret_inv in E2. destruct E2 as (_ & ->).
  unfold malloc_sized in E. destruct (size <=? 0).
  - apply ret_inv in E. exact E.
  - exfalso. apply bind_inv in E. destruct E as (b & s2 & E2 & _).
    unfold find_fit in E2.
    apply bind_inv in E2. destruct E2 as (root & s3 & E3 & E2).
    apply gets_inv in E3. destruct E3 as (-> & ->). rewrite F1 in E2.
    apply bind_inv in E2. destruct E2 as (nx & s3 & E3 & _).
    unfold get_next_free in E3. apply load_inv in E3.
    destruct E3 as (_ & _ & Hb). apply in_bounds_iff in Hb.
    change (padd NULL next_offset) with 16 in Hb. lia.
Qed.

(** On a heap that has not been initialised and has room for the root,
    [malloc] first sets up a well-formed heap. *)
Lemma malloc_fresh_full s :
  fresh s -> heap_lo s + 40 <= heap_max s ->
  exists s1 bl fl,
    WF s1 bl fl /\ (length fl <= 1)%nat /\
    heap_lo s1 = heap_lo s /\ heap_max s1 = heap_max s /\
    (forall fuel size, malloc fuel size s = malloc_sized fuel size s1) /\
    slack s1 fl = counter_global s.
Proof.
  intros Hf Hroom. pose proof Hf as (F1 & _).
  destruct (mm_init_full s Hf Hroom) as (s1 & (E & W & L & M & _ & S)).
  do 3 eexists. split; [exact W|].
  split; [|split; [exact L|split; [exact M|split; [|exact S]]]].
  { destruct (_ <=? _); cbn; lia. }
  intros fuel size. unfold malloc.
  erewrite bind_ok by reflexivity. rewrite F1. cbn [Z.eqb NULL].
  erewrite bind_ok by (erewrite bind_ok by exact E; reflexivity).
  reflexivity.
Qed.

Lemma malloc_fresh s :
  fresh s -> heap_lo s + 40 <= heap_max s ->
  exists s1 bl fl,
    WF s1 bl fl /\ (length fl <= 1)%nat /\
    heap_lo s1 = heap_lo s /\ heap_max s1 = heap_max s /\
    forall fuel size, malloc fuel size s = malloc_sized fuel size s1.
Proof.
  intros Hf Hroom.
  destruct (malloc_fresh_full s Hf Hroom)
    as (s1 & bl & fl & W & Hlen & L & M & E & _).
  exists s1, bl, fl. auto.
Qed.

(** ** A failed allocation changes nothing *)

Lemma round_up_range x :
  0 <= round_up x dsize < 18446744073709551616 /\ round_up x dsize mod 16 = 0.
Proof.
  unfold round_up, wmul, dsize, wsize. change (2 * 8) with 16.
  split; [apply w64_range|]. apply w64_mod16.
  rewrite Z.mul_comm. apply Z.mod_mul. lia.
Qed.

Lemma extend_size_bounds x :
  4096 <= round_up (max (round_up x dsize) chunksize) dsize.
Proof.
  pose proof (round_up_range x) as (R1 & R2).
  set (a := round_up x dsize) in *.
  rewrite max_spec. change chunksize with 4096.
  rewrite round_up_id; try lia.
  - change (2 ^ 64) with 18446744073709551616. mlia.
  - mlia.
Qed.

Lemma extend_heap_grown size s r s' :
  extend_heap size s = Ok r s' -> r <> NULL ->
  r = heap_brk s /\ heap_brk s + round_up size dsize <= heap_max s /\
  heap_lo s <= r.
Proof.
  unfold extend_heap, mem_sbrk. unfold bind at 1.
  destruct (Z.leb_spec (heap_brk s + round_up size dsize) (heap_max s)) as [Hle|Hgt].
  - destruct (_ =? SBRK_FAILED).
    + intros E Hr. apply ret_inv in E. tauto.
    + intros E Hr. apply bind_inv in E. destruct E as (u & s1 & E1 & E).
      apply bind_inv in E. destruct E as (u' & s2 & _ & E).
      apply ret_inv in E. destruct E as (-> & _).
      unfold write_block in E1. apply bind_inv in E1.
      destruct E1 as (u'' & s3 & E1 & _). apply store_inv in E1.
      destruct E1 as (_ & Hb). apply in_bounds_iff in Hb. cbn in Hb. lia.
  - rewrite Z.eqb_refl. intros E Hr. apply ret_inv in E. tauto.
Qed.

Lemma extend_heap_null size s s' :
  heap_lo s <= heap_brk s -> 0 < heap_lo s -> heap_max s < 2 ^ 64 ->
  4096 <= round_up size dsize ->
  extend_heap size s = Ok NULL s' -> s' = s.
Proof.
  intros H1 H2 H3 H4. unfold extend_heap, mem_sbrk. unfold bind at 1.
  destruct (Z.leb_spec (heap_brk s + round_up size dsize) (heap_max s)) as [Hle|Hgt].
  - rewrite SBRK_FAILED_eq.
    destruct (Z.eqb_spec (heap_brk s) 18446744073709551615) as [|_]; [lia|].
    intros E. apply bind_inv in E. destruct E as (u & s1 & E1 & E).
    apply bind_inv in E. destruct E as (u' & s2 & _ & E).
    apply ret_inv in E. destruct E as (E & _). unfold NULL in E. lia.
  - intros E. rewrite Z.eqb_refl in E. apply ret_inv in E. tauto.
Qed.

Lemma malloc_null_unchanged fuel size s s' :
  region_ok s -> free_root s <> NULL ->
  malloc fuel size s = Ok NULL s' -> s' = s.
Proof.
  intros (R1 & R2 & R3 & R4) Hroot E. unfold malloc in E.
  apply bind_inv in E. destruct E as (root & s1 & E1 & E).
  apply gets_inv in E1. destruct E1 as (-> & ->).
  destruct (Z.eqb_spec (free_root s) NULL) as [|_]; [contradiction|].
  apply bind_inv in E. destruct E as (u & s1 & E1 & E).
  apply ret_inv in E1. destruct E1 as (_ & ->).
  unfold malloc_sized in E. destruct (size <=? 0).
  - apply ret_inv in E. tauto.
  - apply bind_inv in E. destruct E as (b & s1 & E1 & E).
    apply find_fit_inv in E1. destruct E1 as (-> & Hb).
    destruct (Z.eqb_spec b NULL) as [Eb|Hne].
    + apply bind_inv in E. destruct E as (b' & s2 & E2 & E).
      destruct (Z.eqb_spec b' NULL) as [Eb'|Hne'].
      * apply ret_inv in E. destruct E as (_ & ->). subst b'.
        eapply extend_heap_null; [| | | |exact E2]; try assumption.
        apply extend_size_bounds.
      * exfalso. destruct (extend_heap_grown _ _ _ _ E2 Hne') as (-> & Hfit & Hlo).
        apply bind_inv in E. destruct E as (u' & s3 & _ & E).
        apply ret_inv in E. destruct E as (E & _).
        unfold header_to_payload, content_offset in E.
        pose proof (extend_size_bounds (padd size dsize)).
        rewrite padd_small in E by lia. unfold NULL in E. lia.
    + exfalso. destruct Hb as [Hb|Hb]; [contradiction|].
      apply in_bounds_iff in Hb.
      apply bind_inv in E. destruct E as (u' & s3 & _ & E).
      apply ret_inv in E. destruct E as (E & _).
      unfold header_to_payload, content_offset in E.
      rewrite padd_small in E by lia. unfold NULL in E. lia.
Qed.

(** ** Concrete heaps *)

(** Establishes [heap s bl fl] for closed [s], [bl] and [fl] by reading the
    words off the memory. *)
Ltac heap_by_compute :=
  constructor;
  [ constructor;
    [ vm_compute; reflexivity
    | vm_compute; reflexivity
    | split; vm_compute; try reflexivity; discriminate
    | vm_compute; reflexivity
    | vm_compute; reflexivity
    | vm_compute; reflexivity
    | vm_compute; reflexivity
    | vm_compute; reflexivity
    | cbn [seg]; repeat split; vm_compute; try reflexivity; discriminate ]
  | unfold dll; cbn [dllf]; repeat split; vm_compute; reflexivity
  | repeat constructor; cbn [In]; intuition discriminate
  | let a := fresh "a" in let H := fresh "H" in
    intros a H; cbn [In] in H;
    repeat (destruct H as [H|H]; [subst a; eexists; cbn [In]; eauto 10|]);
    destruct H ].

Ltac WF_by_compute :=
  constructor;
  [ heap_by_compute
  | let a := fresh "a" in let sz := fresh "sz" in let H := fresh "H" in
    intros a sz H; cbn [In] in H;
    repeat (destruct H as [H|H]; [inversion H; subst; cbn [In]; auto 10|]);
    destruct H
  | cbn; intuition ].

Lemma ex_init_WF : WF ex_init [(4136, 4096, false)] [4136].
Proof. WF_by_compute. Qed.

Lemma ex_abc_WF :
  WF ex_abc [(4136, 32, true); (4168, 32, true); (4200, 32, true);
             (4232, 4000, false)] [4232].
Proof. WF_by_compute. Qed.

Lemma ex_free_a_WF :
  WF ex_free_a [(4136, 32, false); (4168, 32, true); (4200, 32, true);
                (4232, 4000, false)] [4232; 4136].
Proof. WF_by_compute. Qed.

Lemma ex_b_marked_heap :
  heap ex_b_marked [(4136, 32, false); (4168, 32, false); (4200, 4032, false)]
       [4136; 4200].
Proof. heap_by_compute. Qed.

Lemma ex_tight_a_WF :
  WF ex_tight_a [(4136, 32, true); (4168, 4064, false)] [4168].
Proof. WF_by_compute. Qed.

Lemma result_is {A} (c : result A) (d v : A) (ds : state) :
  is_ok c = true -> value_of c d = v -> c = Ok v (state_of c ds).
Proof. destruct c; cbn; [intros _ ->; reflexivity|discriminate]. Qed.

(** ** The first call *)

Lemma malloc_first_call s :
  fresh s -> heap_lo s + 40 <= heap_max s ->
  exists s1 bl fl,
    WF s1 bl fl /\ (length fl <= 1)%nat /\
    forall fuel size, malloc fuel size s = malloc fuel size s1.
Proof.
  intros Hf Hroom.
  destruct (malloc_fresh s Hf Hroom) as (s1 & bl & fl & W & Hlen & _ & _ & E).
  exists s1, bl, fl. split; [exact W|]. split; [exact Hlen|].
  intros fuel size. rewrite E. symmetry.
  eapply malloc_initialised. apply W.
Qed.

Lemma inv_WF s bl fl : WF s bl fl -> inv s.
Proof. intros W. right. eauto. Qed.

Lemma run_op_callable s fuel o :
  callable s fuel o ->
  exists r s', run_op fuel o s = Ok r s' /\ inv s'.
Proof.
  intros [(bl & fl & W & Hok & Hfuel)|(Hf & Hroom & Hok & Hfuel)].
  - destruct (run_op_WF s bl fl fuel o W Hok Hfuel) as (r & s' & bl' & fl' & E & W').
    exists r, s'. split; [exact E|eapply inv_WF; exact W'].
  - destruct (malloc_first_call s Hf Hroom) as (s1 & bl & fl & W & Hlen & Em).
    assert (Hfuel1 : (length fl < fuel)%nat) by lia.
    destruct o as [size|ptr|ptr size|elements size]; cbn [run_op op_ok] in *.
    + rewrite Em.
      destruct (run_op_WF s1 bl fl fuel (OpMalloc size) W Hok Hfuel1)
        as (r & s' & bl' & fl' & E & W').
      exists r, s'. split; [exact E|eapply inv_WF; exact W'].
    + destruct Hok as (sz & []).
    + destruct Hok as (Hsz & [(sz & [])|(-> & Hpos)]).
      unfold realloc. destruct (Z.eqb_spec size 0) as [|_]; [lia|].
      cbn [Z.eqb NULL]. rewrite Em.
      destruct (run_op_WF s1 bl fl fuel (OpMalloc size) W Hsz Hfuel1)
        as (r & s' & bl' & fl' & E & W').
      exists r, s'. split; [exact E|eapply inv_WF; exact W'].
    + destruct Hok as (He & Hs & [Hprod|Hover]).
      * assert (Ec : calloc fuel elements size s = calloc fuel elements size s1).
        { unfold calloc, udiv.
          destruct (Z.eqb_spec elements 0) as [|_]; [lia|].
          erewrite !bind_ok by reflexivity.
          rewrite wmul_small by nia.
          rewrite (Z.mul_comm elements size), Z.div_mul by lia.
          rewrite Z.eqb_refl. cbn [negb]. unfold bind. rewrite Em. reflexivity. }
        rewrite Ec.
        destruct (run_op_WF s1 bl fl fuel (OpCalloc elements size) W
                    (conj He (conj Hs (or_introl Hprod))) Hfuel1)
          as (r & s' & bl' & fl' & E & W').
        exists r, s'. split; [exact E|eapply inv_WF; exact W'].
      * exists NULL, s. split; [apply calloc_overflow; assumption|left; exact Hf].
Qed.

Lemma base_payload_size s bl b sz al :
  base s bl -> In (b, sz, al) bl -> get_payload_size b s = Ok (sz - dsize) s.
Proof.
  intros Hb Hin. pose proof (base_block _ _ _ _ _ Hb Hin) as (B1 & B2 & B3 & B4 & _).
  pose proof (b_max _ _ Hb). pose proof (b_lo_pos _ _ Hb).
  unfold get_payload_size.
  erewrite bind_ok by (eapply base_get_size; eassumption).
  unfold dsize, wsize. rewrite psub_small by lia. reflexivity.
Qed.

(** ** The heap checker, step by step *)

(** One step of the walk of [mm_checkheap], taken from a block of a
    well-formed chain to its successor: the checks of the tags, of the
    alignment and of the size pass, and the step reports a violation
    unless both blocks are allocated. *)
Lemma checkheap_block_spec s pre c csz cal n nsz nal post :
  base s (pre ++ (c, csz, cal) :: (n, nsz, nal) :: post) ->
  checkheap_block c n s = Ok (if cal && nal then inr n else inl false) s.
Proof.
  intros Hb.
  set (bl := pre ++ (c, csz, cal) :: (n, nsz, nal) :: post) in *.
  assert (Hc : In (c, csz, cal) bl) by apply in_elt.
  assert (Hn : In (n, nsz, nal) bl).
  { apply in_or_app. right. right. left. reflexivity. }
  pose proof (base_block _ _ _ _ _ Hb Hc) as (C1 & C2 & C3 & C4 & C5 & C6).
  pose proof (base_block _ _ _ _ _ Hb Hn) as (N1 & N2 & N3 & N4 & N5 & N6).
  pose proof (b_lo_pos _ _ Hb) as Hlo. pose proof (b_max _ _ Hb) as Hmax.
  pose proof (first_block_spec _ _ _ _ _ _ Hb) as [(E & _)|(? & ? & ? & E & _)];
    [discriminate|].
  assert (En : n = c + csz) by congruence. clear E. subst n.
  assert (Hal : c mod 16 = 8).
  { eapply seg_aligned; [apply (b_seg _ _ Hb)| |exact Hc].
    pose proof (b_lo_al _ _ Hb). mlia. }
  unfold checkheap_block, find_prev_footer, wsize.
  erewrite bind_ok by (apply load_ok; inb).
  rewrite psub_small by lia.
  erewrite bind_ok by (apply load_ok; inb).
  erewrite bind_ok by (eapply base_get_alloc; eassumption).
  rewrite C5, C6.
  rewrite Z.eqb_refl. cbn [negb].
  assert (Ha : aligned (header_to_payload c) = true).
  { unfold aligned, align, header_to_payload, content_offset, ALIGNMENT.
    rewrite (padd_small c) by lia. rewrite padd_small by lia.
    rewrite psub_small by lia. rewrite wmul_small by mlia.
    apply Z.eqb_eq. mlia. }
  rewrite Ha. cbn [negb]. rewrite andb_false_r.
  erewrite bind_ok by (eapply base_get_size; eassumption).
  unfold min_block_size, dsize, wsize. change (2 * (2 * 8)) with 32.
  change (2 * 8) with 16.
  destruct (Z.ltb_spec csz 32) as [|_]; [lia|].
  rewrite C4. cbn [Z.eqb negb].
  erewrite bind_ok by (eapply base_get_alloc; eassumption).
  erewrite bind_ok by (eapply base_get_alloc; eassumption).
  destruct cal, nal; reflexivity.
Qed.

(** * The claims *)

(** ** C1 *)

(** C1, as stated, fails: on the heap right after initialisation, whose
    only block, at 4136, is free and too small for 5000 bytes, [malloc]
    returns the payload of the new block at the old top, 8232 + 8, and not
    the payload 4136 + 8 of a block merged with the free predecessor. *)
Lemma extension_leaves_predecessor_apart :
  ~ extension_coalesces_with_predecessor.
Proof.
  intros C.
  assert (E : malloc 2 5000 ex_init = Ok 8240 (then_run ex_init (malloc 2 5000))).
  { apply (result_is _ 0); vm_compute; reflexivity. }
  assert (A : 8240 = 4136 + 8).
  { apply (C ex_init [] 4136 4096 [4136] 2%nat 5000 8240
               (then_run ex_init (malloc 2 5000)) ex_init_WF).
    - lia.
    - cbn. lia.
    - vm_compute. reflexivity.
    - exact E.
    - discriminate. }
  discriminate.
Qed.

(** C1, amended: every public operation that the contract allows completes
    and leaves a heap in which no two physically adjacent blocks are both
    free (or a region still untouched); and when [malloc] finds no fit, it
    extends the heap by [max asize chunksize], keeps the old chain as it
    is, without merging the new block into a free predecessor, places the
    request at the start of the new block and returns the old top plus 8;
    when the region cannot grow by that much it returns null and changes
    nothing. *)
Theorem malloc_grows_without_coalescing s fuel :
  (forall o, callable s fuel o ->
     exists r s', run_op fuel o s = Ok r s' /\
       (fresh s' \/ exists bl' fl', WF s' bl' fl' /\ no_adjacent_free bl')) /\
  (forall bl fl size,
     WF s bl fl -> (length fl < fuel)%nat -> 0 < size <= 2 ^ 64 - 32 ->
     let asize := round_up (padd size dsize) dsize in
     let ext := max asize chunksize in
     first_fit s asize fl = NULL ->
     (heap_brk s + ext <= heap_max s ->
      exists s', malloc fuel size s = Ok (heap_brk s + 8) s' /\
                 heap_brk s' = heap_brk s + ext /\
                 WF s' (place_bl bl (heap_brk s) ext [] asize)
                       (place_fl (fl ++ [heap_brk s]) (heap_brk s) ext asize)) /\
     (heap_max s < heap_brk s + ext -> malloc fuel size s = Ok NULL s)).
Proof.
  split.
  - intros o Hc. destruct (run_op_callable s fuel o Hc) as (r & s' & E & [Hf|(bl' & fl' & W')]).
    + exists r, s'. split; [exact E|left; exact Hf].
    + exists r, s'. split; [exact E|right]. exists bl', fl'. split; [exact W'|].
      apply naf_no_adjacent_free. apply W'.
  - intros bl fl size W Hfuel Hsz asize ext Hff. split.
    + intros Hroom.
      destruct (malloc_extend s bl fl fuel size W Hsz Hfuel Hff Hroom)
        as (s' & E & K & _ & _ & W').
      exists s'. auto.
    + intros Hno. apply (malloc_fail s bl fl fuel size (wf_heap _ _ _ W) Hsz Hfuel Hff Hno).
Qed.

Lemma malloc_grows_without_coalescing_witness :
  WF ex_init [(4136, 4096, false)] [4136] /\
  first_fit ex_init 5024 [4136] = NULL /\
  exists s', malloc 2 5000 ex_init = Ok 8240 s' /\
             heap_brk s' = 13256 /\
             WF s' [(4136, 4096, false); (8232, 5024, true)] [4136].
Proof.
  split; [exact ex_init_WF|]. split; [vm_compute; reflexivity|].
  destruct (proj2 (malloc_grows_without_coalescing ex_init 2)
              [(4136, 4096, false)] [4136] 5000 ex_init_WF) as (Hgrow & _).
  - cbn. lia.
  - lia.
  - vm_compute. reflexivity.
  - destruct Hgrow as (s' & E & K & W).
    + vm_compute. discriminate.
    + exists s'. split; [exact E|]. split; [exact K|exact W].
Defined.

(** ** C2 *)

(** C2: whenever [malloc] returns a non-null result, on a well-formed heap
    or as the first call on an untouched region, the result is a multiple
    of the alignment, 16. *)
Theorem malloc_result_aligned s fuel size r s' :
  inv s -> malloc fuel size s = Ok r s' -> r <> NULL -> r mod ALIGNMENT = 0.
Proof.
  intros [Hf|(bl & fl & W)] E Hr.
  - destruct (Z_le_gt_dec (heap_lo s + 40) (heap_max s)) as [Hroom|Hno].
    + destruct (malloc_fresh s Hf Hroom) as (s1 & bl & fl & W & _ & _ & _ & Em).
      rewrite Em in E. eapply malloc_sized_aligned; [apply W|exact E|exact Hr].
    + destruct (malloc_no_room s fuel size r s' Hf ltac:(lia) E) as (-> & _).
      contradiction.
  - rewrite (malloc_initialised _ _ _ _ _ (wf_heap _ _ _ W)) in E.
    eapply malloc_sized_aligned; [apply W|exact E|exact Hr].
Qed.

Lemma malloc_result_aligned_witness :
  inv ex_fresh /\
  malloc 2 100 ex_fresh = Ok 4144 (then_run ex_fresh (malloc 2 100)) /\
  4144 <> NULL /\ 4144 mod ALIGNMENT = 0.
Proof.
  assert (I : inv ex_fresh).
  { left. unfold fresh. cbn. repeat split; lia. }
  assert (E : malloc 2 100 ex_fresh = Ok 4144 (then_run ex_fresh (malloc 2 100))).
  { apply (result_is _ 0); vm_compute; reflexivity. }
  assert (N : 4144 <> NULL) by discriminate.
  split; [exact I|]. split; [exact E|]. split; [exact N|].
  exact (malloc_result_aligned ex_fresh 2 100 4144 _ I E N).
Defined.

(** ** C3 *)

(** C3, as stated, fails: the allocated block at 4136 of the example heap,
    32 bytes long, has the word 33 both in its header and in its last
    word, and a payload of 16 bytes that ends before that last word. *)
Lemma allocated_block_carries_footer : ~ allocated_blocks_carry_no_footer.
Proof.
  intros C.
  apply (C ex_abc _ _ 4136 32 ex_abc_WF).
  - left. reflexivity.
  - split.
    + vm_compute. reflexivity.
    + eapply base_payload_size; [apply ex_abc_WF|]. left. reflexivity.
Qed.

(** C3, amended: after every public operation that the contract allows,
    every block of the chain, allocated or free, has a header and, in its
    last word, a footer that both hold [pack size alloc], and its payload
    is the [size - dsize] bytes between the two. *)
Theorem every_block_keeps_its_footer s fuel o :
  callable s fuel o ->
  exists r s', run_op fuel o s = Ok r s' /\
    (fresh s' \/
     exists bl' fl', WF s' bl' fl' /\
       forall b sz al, In (b, sz, al) bl' ->
         load64 (mem s') b = pack sz al /\
         load64 (mem s') (b + sz - wsize) = pack sz al /\
         get_payload_size b s' = Ok (sz - dsize) s').
Proof.
  intros Hc. destruct (run_op_callable s fuel o Hc) as (r & s' & E & [Hf|(bl' & fl' & W')]).
  - exists r, s'. split; [exact E|left; exact Hf].
  - exists r, s'. split; [exact E|right]. exists bl', fl'. split; [exact W'|].
    intros b sz al Hin.
    pose proof (h_base _ _ _ (wf_heap _ _ _ W')) as Hb.
    pose proof (base_block _ _ _ _ _ Hb Hin) as (_ & _ & _ & _ & Hh & Hf).
    split; [exact Hh|]. split; [exact Hf|].
    eapply base_payload_size; eassumption.
Qed.

Lemma every_block_keeps_its_footer_witness :
  callable ex_abc 2 (OpFree 4144) /\
  exists r s', run_op 2 (OpFree 4144) ex_abc = Ok r s' /\
    (fresh s' \/
     exists bl' fl', WF s' bl' fl' /\
       forall b sz al, In (b, sz, al) bl' ->
         load64 (mem s') b = pack sz al /\
         load64 (mem s') (b + sz - wsize) = pack sz al /\
         get_payload_size b s' = Ok (sz - dsize) s').
Proof.
  assert (Hc : callable ex_abc 2 (OpFree 4144)).
  { left. do 2 eexists. split; [exact ex_abc_WF|]. split.
    - exists 32. left. reflexivity.
    - cbn. lia. }
  split; [exact Hc|].
  exact (every_block_keeps_its_footer ex_abc 2 (OpFree 4144) Hc).
Defined.

(** ** C4 *)

(** C4: [find_fit] reads the free list from the root's successor on and
    returns the first node, in list order, whose block holds [asize]
    bytes, or null when no block of the list does; and since
    [add_to_list] puts a block behind all the others, the list order is
    the order of insertion, whatever the addresses. *)
Theorem find_fit_first_in_list_order s bl fl asize fuel :
  heap s bl fl -> (length fl < fuel)%nat ->
  (exists r, find_fit fuel asize s = Ok r s /\
     ((r = NULL /\
       forall a sz, In a fl -> In (a, sz, false) bl -> sz < asize) \/
      (exists l1 l2 sz,
         fl = l1 ++ r :: l2 /\ In (r, sz, false) bl /\ asize <= sz /\
         forall a sz', In a l1 -> In (a, sz', false) bl -> sz' < asize))) /\
  (forall new, (exists sz, In (new, sz, false) bl) -> ~ In new fl ->
     exists s', add_to_list new s = Ok tt s' /\ heap s' bl (fl ++ [new])).
Proof.
  intros H Hfuel. split.
  - exists (first_fit s asize fl). split.
    + apply (find_fit_spec _ _ _ _ _ H Hfuel).
    + apply (first_fit_cases s bl fl asize H).
  - intros new Hnew Hnin.
    destruct (add_to_list_spec s bl fl new H Hnew Hnin) as (s' & E & H' & _).
    exists s'. auto.
Qed.

(** In the example the list reads 4232, 4136: the remainder came first, the
    freed block A later.  Both hold 32 bytes; the one at the higher
    address, first in the list, is returned. *)
Lemma find_fit_first_in_list_order_witness :
  heap ex_free_a [(4136, 32, false); (4168, 32, true); (4200, 32, true);
                  (4232, 4000, false)] [4232; 4136] /\
  (length [4232; 4136] < 3)%nat /\
  find_fit 3 32 ex_free_a = Ok 4232 ex_free_a.
Proof.
  pose proof (wf_heap _ _ _ ex_free_a_WF) as H.
  assert (L : (length [4232; 4136] < 3)%nat) by (cbn; lia).
  split; [exact H|]. split; [exact L|].
  destruct (proj1 (find_fit_first_in_list_order ex_free_a _ _ 32 3 H L))
    as (r & E & _).
  rewrite E. f_equal.
  assert (V : value_of (find_fit 3 32 ex_free_a) 0 = 4232) by (vm_compute; reflexivity).
  rewrite E in V. exact V.
Defined.

(** ** C5 *)

Lemma list_count_once (fl : list Z) (p : Z) :
  NoDup fl -> In p fl -> count_occ Z.eq_dec fl p = 1%nat.
Proof. intros Hnd Hin. apply NoDup_count_occ'; assumption. Qed.

(** C5: [coalesce], called on a block that [free] has just marked free and
    that is not on the list, with its free neighbours on the list.  When
    both neighbours are free, it takes both off the list, writes one free
    block at the previous block's address whose size is the sum of the
    three, and puts that block on the list, once, and returns it.  When
    only one neighbour is free it does the same with that neighbour alone,
    and when none is it puts the block on the list as it is. *)
Theorem coalesce_merges_free_neighbours s pre post fl b sz :
  heap s (pre ++ (b, sz, false) :: post) fl -> ~ In b fl ->
  (forall a sz', In (a, sz', false) (pre ++ post) -> In a fl) ->
  (forall pre' p psz n nsz post',
     pre = pre' ++ [(p, psz, false)] -> post = (n, nsz, false) :: post' ->
     let fl' := remove Z.eq_dec n (remove Z.eq_dec p fl) ++ [p] in
     exists s', coalesce b s = Ok p s' /\
       heap s' (pre' ++ (p, psz + sz + nsz, false) :: post') fl' /\
       load64 (mem s') p = psz + sz + nsz /\
       load64 (mem s') (p + (psz + sz + nsz) - wsize) = psz + sz + nsz /\
       count_occ Z.eq_dec fl' p = 1%nat /\ ~ In b fl' /\ ~ In n fl') /\
  (forall pre' p psz,
     pre = pre' ++ [(p, psz, false)] -> blk_alloc (first_block post) = true ->
     let fl' := remove Z.eq_dec p fl ++ [p] in
     exists s', coalesce b s = Ok p s' /\
       heap s' (pre' ++ (p, psz + sz, false) :: post) fl' /\
       count_occ Z.eq_dec fl' p = 1%nat /\ ~ In b fl') /\
  (forall n nsz post',
     blk_alloc (last_block pre) = true -> post = (n, nsz, false) :: post' ->
     let fl' := remove Z.eq_dec n fl ++ [b] in
     exists s', coalesce b s = Ok b s' /\
       heap s' (pre ++ (b, sz + nsz, false) :: post') fl' /\
       count_occ Z.eq_dec fl' b = 1%nat /\ ~ In n fl') /\
  (blk_alloc (last_block pre) = true -> blk_alloc (first_block post) = true ->
     exists s', coalesce b s = Ok b s' /\
       heap s' (pre ++ (b, sz, false) :: post) (fl ++ [b]) /\
       count_occ Z.eq_dec (fl ++ [b]) b = 1%nat).
Proof.
  intros H Hnb Hc.
  assert (Hneq : forall x sz' al', In (x, sz', al') (pre ++ post) -> x <> b).
  { intros x sz' al' Hx. eapply chain_other_addr; [apply H|exact Hx]. }
  split; [|split; [|split]].
  - intros pre' p psz n nsz post' -> -> fl'.
    rewrite <- app_assoc in H. cbn [app] in H.
    assert (Hp : In p fl).
    { apply (Hc p psz). apply in_or_app. left. apply in_elt. }
    assert (Hn : In n fl).
    { apply (Hc n nsz). apply in_or_app. right. left. reflexivity. }
    assert (Hpb : p <> b).
    { apply (Hneq p psz false). apply in_or_app. left. apply in_elt. }
    assert (Hnb' : n <> b).
    { apply (Hneq n nsz false). apply in_or_app. right. left. reflexivity. }
    destruct (coalesce_case4 s pre' post' fl p psz b sz n nsz H Hnb Hp Hn)
      as (s' & E & H' & _).
    exists s'. split; [exact E|]. split; [exact H'|].
    assert (Hblk : In (p, psz + sz + nsz, false)
                      (pre' ++ (p, psz + sz + nsz, false) :: post')) by apply in_elt.
    pose proof (base_block _ _ _ _ _ (h_base _ _ _ H') Hblk) as (_ & _ & _ & _ & Hh & Hf).
    split; [exact Hh|]. split; [exact Hf|].
    assert (Hin' : In p fl') by (apply in_or_app; right; left; reflexivity).
    split; [apply list_count_once; [apply H'|exact Hin']|].
    assert (Hnn : ~ In n (remove Z.eq_dec n (remove Z.eq_dec p fl))) by apply remove_In.
    assert (Hn_ne_p : n <> p).
    { eapply chain_other_addr; [apply (h_base _ _ _ H)|].
      apply in_or_app. right. right. left. reflexivity. }
    split.
    + intros Hi. apply in_app_or in Hi. destruct Hi as [Hi|[Hi|[]]]; [|congruence].
      apply in_remove in Hi. destruct Hi as (Hi & _).
      apply in_remove in Hi. destruct Hi as (Hi & _). contradiction.
    + intros Hi. apply in_app_or in Hi. destruct Hi as [Hi|[Hi|[]]]; [|congruence].
      contradiction.
  - intros pre' p psz -> Hfa fl'.
    rewrite <- app_assoc in H. cbn [app] in H.
    assert (Hp : In p fl).
    { apply (Hc p psz). apply in_or_app. left. apply in_elt. }
    assert (Hpb : p <> b).
    { apply (Hneq p psz false). apply in_or_app. left. apply in_elt. }
    destruct (coalesce_case3 s pre' post fl p psz b sz H Hnb Hp Hfa)
      as (s' & E & H' & _).
    exists s'. split; [exact E|]. split; [exact H'|].
    assert (Hin' : In p fl') by (apply in_or_app; right; left; reflexivity).
    split; [apply list_count_once; [apply H'|exact Hin']|].
    intros Hi. apply in_app_or in Hi. destruct Hi as [Hi|[Hi|[]]]; [|congruence].
    apply in_remove in Hi. destruct Hi as (Hi & _). contradiction.
  - intros n nsz post' Hla -> fl'.
    assert (Hn : In n fl).
    { apply (Hc n nsz). apply in_or_app. right. left. reflexivity. }
    assert (Hnb' : n <> b).
    { apply (Hneq n nsz false). apply in_or_app. right. left. reflexivity. }
    destruct (coalesce_case2 s pre post' fl b sz n nsz H Hnb Hn Hla)
      as (s' & E & H' & _).
    exists s'. split; [exact E|]. split; [exact H'|].
    assert (Hin' : In b fl') by (apply in_or_app; right; left; reflexivity).
    split; [apply list_count_once; [apply H'|exact Hin']|].
    intros Hi. apply in_app_or in Hi. destruct Hi as [Hi|[Hi|[]]]; [|congruence].
    revert Hi. apply remove_In.
  - intros Hla Hfa.
    destruct (coalesce_case1 s pre post fl b sz H Hnb Hla Hfa) as (s' & E & H' & _).
    exists s'. split; [exact E|]. split; [exact H'|].
    apply list_count_once; [apply H'|]. apply in_or_app. right. left. reflexivity.
Qed.

(** In the example A at 4136 and the merged C at 4200 are free and on the
    list, and B at 4168 between them has just been marked free. *)
Lemma coalesce_merges_free_neighbours_witness :
  heap ex_b_marked ([(4136, 32, false)] ++ (4168, 32, false) :: [(4200, 4032, false)])
       [4136; 4200] /\
  ~ In 4168 [4136; 4200] /\
  exists s', coalesce 4168 ex_b_marked = Ok 4136 s' /\
             heap s' [(4136, 4096, false)] [4136] /\
             load64 (mem s') 4136 = 4096 /\ load64 (mem s') 8224 = 4096.
Proof.
  pose proof ex_b_marked_heap as H.
  assert (Hnb : ~ In 4168 [4136; 4200]) by (cbn; intuition discriminate).
  split; [exact H|]. split; [exact Hnb|].
  destruct (proj1 (coalesce_merges_free_neighbours ex_b_marked
                     [(4136, 32, false)] [(4200, 4032, false)] [4136; 4200]
                     4168 32 H Hnb
                     ltac:(cbn; intros a sz' [E|[E|[]]]; inversion E; auto))
              [] 4136 32 4200 4032 [] eq_refl eq_refl)
    as (s' & E & H' & L1 & L2 & _).
  exists s'. split; [exact E|]. split; [exact H'|]. split; [exact L1|exact L2].
Defined.

(** ** C6 *)

(** C6: when [realloc] is called with a non-null pointer and a non-zero
    size on an initialised heap and its fresh allocation fails, it returns
    null and the whole state, the old block and its payload included, is
    what it was. *)
Theorem realloc_failure_changes_nothing fuel ptr size s s' :
  region_ok s -> free_root s <> NULL -> ptr <> NULL -> size <> 0 ->
  malloc fuel size s = Ok NULL s' ->
  realloc fuel ptr size s = Ok NULL s.
Proof.
  intros Hr Hroot Hp Hs E.
  pose proof (malloc_null_unchanged fuel size s s' Hr Hroot E) as ->.
  unfold realloc.
  destruct (Z.eqb_spec size 0) as [|_]; [contradiction|].
  destruct (Z.eqb_spec ptr NULL) as [|_]; [contradiction|].
  erewrite bind_ok by exact E. reflexivity.
Qed.

(** In the example the region is full: the request for 5000 bytes fits no
    free block and the heap cannot grow. *)
Lemma realloc_failure_changes_nothing_witness :
  region_ok ex_tight_a /\ free_root ex_tight_a <> NULL /\
  4144 <> NULL /\ 5000 <> 0 /\
  malloc 2 5000 ex_tight_a = Ok NULL ex_tight_a /\
  realloc 2 4144 5000 ex_tight_a = Ok NULL ex_tight_a.
Proof.
  assert (R : region_ok ex_tight_a).
  { unfold region_ok. repeat split; vm_compute; try reflexivity; discriminate. }
  assert (F : free_root ex_tight_a <> NULL) by (vm_compute; discriminate).
  assert (P : 4144 <> NULL) by discriminate.
  assert (S : 5000 <> 0) by discriminate.
  assert (E : malloc 2 5000 ex_tight_a = Ok NULL ex_tight_a).
  { apply (malloc_fail ex_tight_a _ _ 2 5000 (wf_heap _ _ _ ex_tight_a_WF)).
    - lia.
    - cbn. lia.
    - vm_compute. reflexivity.
    - vm_compute. reflexivity. }
  repeat (split; [assumption|]).
  exact (realloc_failure_changes_nothing 2 4144 5000 ex_tight_a ex_tight_a R F P S E).
Defined.

(** ** C7 *)

(** C7: when [elements * size] does not fit in 64 bits, the guard
    [asize / elements != size] of [calloc] fires on the wrapped product,
    and [calloc] returns null without allocating or growing the heap: the
    state is what it was. *)
Theorem calloc_overflow_returns_null fuel elements size s :
  0 < elements < 2 ^ 64 -> 0 <= size < 2 ^ 64 -> 2 ^ 64 <= elements * size ->
  wmul elements size / elements <> size /\
  calloc fuel elements size s = Ok NULL s.
Proof.
  intros He Hs Ho. split; [|apply calloc_overflow; assumption].
  intros Hq.
  pose proof (calloc_overflow fuel elements size s He Hs Ho) as E.
  unfold calloc, udiv in E.
  destruct (Z.eqb_spec elements 0) as [|_]; [lia|].
  unfold wmul, w64 in Hq. rewrite modulus_eq in Hq.
  change (2 ^ 64) with 18446744073709551616 in *.
  assert (H1 : (elements * size) mod 18446744073709551616
               <= elements * size - 18446744073709551616).
  { pose proof (Z.div_mod (elements * size) 18446744073709551616).
    assert (1 <= elements * size / 18446744073709551616)
      by (apply Z.div_le_lower_bound; lia).
    lia. }
  assert (H2 : (elements * size) mod 18446744073709551616 / elements < size).
  { apply Z.div_lt_upper_bound; [lia|]. nia. }
  lia.
Qed.

(** [calloc(SIZE_MAX, 2)]. *)
Lemma calloc_overflow_returns_null_witness :
  0 < 2 ^ 64 - 1 < 2 ^ 64 /\ 0 <= 2 < 2 ^ 64 /\ 2 ^ 64 <= (2 ^ 64 - 1) * 2 /\
  calloc 2 (2 ^ 64 - 1) 2 ex_init = Ok NULL ex_init.
Proof.
  assert (A : 0 < 2 ^ 64 - 1 < 2 ^ 64) by lia.
  assert (B : 0 <= 2 < 2 ^ 64) by lia.
  assert (C : 2 ^ 64 <= (2 ^ 64 - 1) * 2) by lia.
  repeat (split; [assumption|]).
  exact (proj2 (calloc_overflow_returns_null 2 (2 ^ 64 - 1) 2 ex_init A B C)).
Defined.

(** ** C8 *)

(** C8 does not hold of [mm_checkheap].  The heap [ex_zeroed] is well
    formed, yet the checker, which starts its walk [5 * wsize] words, not
    bytes, after the prologue and so in the middle of a payload, reports a
    violation.  And on the well-formed heap [ex_abc] one step of the walk
    from the allocated block at 4200 to the free block at 4232 reports two
    adjacent free blocks, because the test is [!curr_alloc || !next_alloc]
    ([checkheap_block_spec] has the general statement). *)
Theorem checkheap_rejects_sound_heaps :
  (exists bl fl, WF ex_zeroed bl fl) /\
  mm_checkheap 10 ex_zeroed = Ok false ex_zeroed /\
  padd (prologue ex_zeroed) (wmul (wmul 5 wsize) wsize) = heap_lo ex_zeroed + 320 /\
  WF ex_abc [(4136, 32, true); (4168, 32, true); (4200, 32, true);
             (4232, 4000, false)] [4232] /\
  checkheap_block 4200 4232 ex_abc = Ok (inl false) ex_abc.
Proof.
  split; [|split; [|split; [|split]]].
  - exists [(4136, 4016, true); (8152, 80, false)], [8152]. WF_by_compute.
  - vm_compute. reflexivity.
  - vm_compute. reflexivity.
  - exact ex_abc_WF.
  - vm_compute. reflexivity.
Qed.

(** ** C9 *)

(** C9: with [elements = 0] the guard of [calloc] divides by zero: the call
    ends in the division fault and returns nothing, whatever the size and
    the state. *)
Theorem calloc_zero_elements_divides_by_zero fuel size s :
  calloc fuel 0 size s = Err DivideByZero.
Proof. reflexivity. Qed.

(** ** C10 *)

(** C10: [realloc] tests the size first, so [realloc(NULL, 0)] calls
    [free(NULL)], which takes the word 8 bytes before address 0 for a
    block header and reads it: an access outside the heap.  With a
    non-zero size, [realloc(NULL, size)] is [malloc(size)]. *)
Theorem realloc_null_zero_frees_null fuel s :
  heap_brk s < 2 ^ 64 ->
  payload_to_header NULL = 2 ^ 64 - 8 /\
  free NULL s = Err (BadAccess (payload_to_header NULL)) /\
  realloc fuel NULL 0 s = Err (BadAccess (payload_to_header NULL)) /\
  (forall size, size <> 0 -> realloc fuel NULL size s = malloc fuel size s).
Proof.
  intros Hb.
  assert (F : free NULL s = Err (BadAccess (payload_to_header NULL))).
  { unfold free, get_size, load, bind.
    assert (Hin : in_bounds s (payload_to_header NULL) = false).
    { unfold in_bounds. change (payload_to_header NULL) with 18446744073709551608.
      change (2 ^ 64) with 18446744073709551616 in Hb.
      destruct (Z.leb_spec (18446744073709551608 + 8) (heap_brk s)); [lia|].
      apply andb_false_r. }
    rewrite Hin. reflexivity. }
  split; [reflexivity|]. split; [exact F|]. split.
  - unfold realloc. cbn [Z.eqb]. unfold bind. rewrite F. reflexivity.
  - intros size Hs. unfold realloc.
    destruct (Z.eqb_spec size 0) as [|_]; [contradiction|]. reflexivity.
Qed.

Lemma realloc_null_zero_frees_null_witness :
  heap_brk ex_init < 2 ^ 64 /\
  realloc 2 NULL 0 ex_init = Err (BadAccess (2 ^ 64 - 8)).
Proof.
  assert (B : heap_brk ex_init < 2 ^ 64) by (vm_compute; reflexivity).
  split; [exact B|].
  exact (proj1 (proj2 (proj2 (realloc_null_zero_frees_null 2 ex_init B)))).
Defined.

(** * Further properties of mm.c *)

(** ** Boundary tags and rounding *)

(** X1: a boundary tag gives back what was packed into it: for every size
    that is a multiple of 16 and fits a word, [extract_size] of
    [pack size alloc] is [size] and [extract_alloc] of it is [alloc]. *)
Theorem pack_extract_round_trip (size : Z) (is_allocated : bool) :
  0 <= size < 2 ^ 64 -> size mod 16 = 0 ->
  extract_size (pack size is_allocated) = size /\
  extract_alloc (pack size is_allocated) = is_allocated.
Proof.
  intros Hr Hm. split.
  - apply extract_size_pack; [lia|exact Hm].
  - apply extract_alloc_pack. exact Hm.
Qed.

Lemma pack_extract_round_trip_witness :
  (0 <= 4096 < 2 ^ 64 /\ 4096 mod 16 = 0) /\
  extract_size (pack 4096 true) = 4096 /\
  extract_alloc (pack 4096 true) = true.
Proof.
  split; [split; [lia|reflexivity]|].
  apply (pack_extract_round_trip 4096 true); [lia|reflexivity].
Defined.

(** X2: [round_up size dsize] is the least multiple of 16 that is not
    below [size] as long as [size + 15] fits a word; for the fifteen
    sizes above [2^64 - 16] the sum wraps around and the result is 0. *)
Theorem round_up_least_multiple_or_wraps (size : Z) :
  0 <= size < 2 ^ 64 ->
  (size <= 2 ^ 64 - 16 ->
     round_up size dsize mod 16 = 0 /\
     size <= round_up size dsize < size + 16) /\
  (2 ^ 64 - 16 < size -> round_up size dsize = 0).
Proof.
  intros Hr. split.
  - intros Hs. rewrite round_up_spec by lia. split; mlia.
  - intros Hs. unfold round_up, dsize, wsize. change (2 * 8) with 16.
    rewrite (psub_small 16 1) by lia.
    unfold padd, w64. rewrite modulus_eq.
    replace ((size + (16 - 1)) mod 18446744073709551616)
      with (size + 15 - 18446744073709551616) by mlia.
    rewrite Z.div_small by lia. reflexivity.
Qed.

Lemma round_up_least_multiple_or_wraps_witness :
  0 <= 2 ^ 64 - 1 < 2 ^ 64 /\
  round_up 100 dsize = 112 /\ round_up (2 ^ 64 - 1) dsize = 0.
Proof.
  split; [lia|]. split; [reflexivity|].
  apply (round_up_least_multiple_or_wraps (2 ^ 64 - 1)); lia.
Defined.

(** X3: [header_to_payload] and [payload_to_header] undo each other on
    every word, the wrap-around at both ends of the address space
    included. *)
Theorem header_payload_round_trip (p : Z) :
  0 <= p < 2 ^ 64 ->
  payload_to_header (header_to_payload p) = p /\
  header_to_payload (payload_to_header p) = p.
Proof.
  intros Hr. unfold payload_to_header, header_to_payload, content_offset,
    padd, psub, w64. rewrite modulus_eq. split; mlia.
Qed.

Lemma header_payload_round_trip_witness :
  0 <= NULL < 2 ^ 64 /\
  payload_to_header NULL = 2 ^ 64 - 8 /\
  header_to_payload (payload_to_header NULL) = NULL.
Proof.
  split; [unfold NULL; lia|]. split; [reflexivity|].
  apply (header_payload_round_trip NULL). unfold NULL. lia.
Defined.

(** X4: [aligned p] holds exactly of the multiples of 16. *)
Theorem aligned_iff_multiple_of_16 (p : Z) :
  0 <= p < 2 ^ 64 -> (aligned p = true <-> p mod 16 = 0).
Proof.
  intros Hr. unfold aligned, align, ALIGNMENT, padd, psub, wmul, w64.
  rewrite modulus_eq. rewrite Z.eqb_eq. split; intros H; mlia.
Qed.

Lemma aligned_iff_multiple_of_16_witness :
  0 <= 4144 < 2 ^ 64 /\ (aligned 4144 = true <-> 4144 mod 16 = 0).
Proof.
  split; [lia|]. apply (aligned_iff_multiple_of_16 4144). lia.
Defined.

(** ** Initialisation and the first call *)

(** X5: the three outcomes of [mm_init] on an untouched region.  Without
    room for the five words of prologue and root it returns false and
    changes nothing.  With room for them but not for the first chunk it
    still returns false, yet leaves the root set up over an empty chain.
    With room for both it returns true and leaves one free block of 4096
    bytes, the only node of the free list, and [counter_global] one up. *)
Theorem mm_init_outcomes (s : state) :
  fresh s ->
  (heap_max s < heap_lo s + 40 -> mm_init s = Ok false s) /\
  (heap_lo s + 40 <= heap_max s < heap_lo s + 4136 ->
     exists s', mm_init s = Ok false s' /\ WF s' [] [] /\
                free_root s' = heap_lo s + 8 /\
                heap_brk s' = heap_lo s + 40 /\
                counter_global s' = counter_global s) /\
  (heap_lo s + 4136 <= heap_max s ->
     exists s', mm_init s = Ok true s' /\
                WF s' [(heap_lo s + 40, 4096, false)] [heap_lo s + 40] /\
                free_root s' = heap_lo s + 8 /\
                heap_brk s' = heap_lo s + 4136 /\
                counter_global s' = counter_global s + 1).
Proof.
  intros Hf. split; [|split].
  - intros Hno. apply mm_init_no_room; assumption.
  - intros (Hroom & Hno).
    destruct (mm_init_full s Hf Hroom) as (s' & E & W & L & M & K & S).
    destruct (Z.leb_spec (heap_lo s + 4136) (heap_max s)) as [|_]; [lia|].
    exists s'. split; [exact E|]. split; [exact W|].
    split; [rewrite (b_root _ _ (h_base _ _ _ (wf_heap _ _ _ W))); lia|].
    split; [exact K|]. unfold slack in S. cbn [length] in S. lia.
  - intros Hfit.
    destruct (mm_init_full s Hf ltac:(lia)) as (s' & E & W & L & M & K & S).
    destruct (Z.leb_spec (heap_lo s + 4136) (heap_max s)) as [_|]; [|lia].
    exists s'. split; [exact E|]. split; [exact W|].
    split; [rewrite (b_root _ _ (h_base _ _ _ (wf_heap _ _ _ W))); lia|].
    split; [exact K|]. unfold slack in S. cbn [length] in S. lia.
Qed.

Lemma fresh_empty_region lo cap :
  0 < lo -> lo mod 16 = 0 -> 0 <= cap -> lo + cap < 2 ^ 64 ->
  fresh (empty_region lo cap).
Proof.
  intros H1 H2 H3 H4. unfold fresh, empty_region.
  cbn [free_root heap_brk heap_lo heap_max]. repeat split; try assumption; lia.
Qed.

Lemma ex_fresh_fresh : fresh ex_fresh.
Proof. apply fresh_empty_region; [lia|reflexivity|lia|lia]. Qed.

Lemma mm_init_outcomes_witness :
  fresh ex_fresh /\ heap_lo ex_fresh + 4136 <= heap_max ex_fresh /\
  exists s', mm_init ex_fresh = Ok true s' /\
             WF s' [(heap_lo ex_fresh + 40, 4096, false)] [heap_lo ex_fresh + 40] /\
             free_root s' = heap_lo ex_fresh + 8 /\
             heap_brk s' = heap_lo ex_fresh + 4136 /\
             counter_global s' = counter_global ex_fresh + 1.
Proof.
  split; [exact ex_fresh_fresh|]. split; [cbn; lia|].
  apply (mm_init_outcomes ex_fresh ex_fresh_fresh). cbn. lia.
Defined.

(** X6: [malloc] does not look at what [mm_init] returns.  On an untouched
    region without room for the root, a request for a non-zero size goes
    on to [find_fit], which reads the successor of the null root: the run
    ends in an access to address 16, outside the heap, not in a null
    result. *)
Theorem malloc_without_root_faults (s : state) (fuel : nat) (size : Z) :
  fresh s -> heap_max s < heap_lo s + 40 -> 0 < size ->
  malloc fuel size s = Err (BadAccess 16).
Proof.
  intros Hf Hno Hsz. pose proof Hf as (F1 & F2 & F3 & F4 & F5 & F6).
  unfold malloc. erewrite bind_ok by reflexivity. rewrite F1. cbn [Z.eqb NULL].
  erewrite bind_ok.
  2:{ erewrite bind_ok by (apply mm_init_no_room; assumption). reflexivity. }
  unfold malloc_sized. destruct (Z.leb_spec size 0) as [|_]; [lia|].
  unfold find_fit. unfold bind at 1. unfold bind at 1. unfold gets at 1.
  rewrite F1. unfold bind at 1. unfold get_next_free, load.
  change (padd NULL next_offset) with 16.
  assert (Hb : in_bounds s 16 = false).
  { destruct (in_bounds s 16) eqn:E; [|reflexivity].
    apply in_bounds_iff in E. lia. }
  rewrite Hb. reflexivity.
Qed.

Lemma malloc_without_root_faults_witness :
  fresh (empty_region 4096 32) /\
  heap_max (empty_region 4096 32) < heap_lo (empty_region 4096 32) + 40 /\
  0 < 16 /\
  malloc 2 16 (empty_region 4096 32) = Err (BadAccess 16).
Proof.
  assert (Hf : fresh (empty_region 4096 32))
    by (apply fresh_empty_region; [lia|reflexivity|lia|lia]).
  split; [exact Hf|]. split; [cbn; lia|]. split; [lia|].
  apply (malloc_without_root_faults (empty_region 4096 32) 2 16 Hf); cbn; lia.
Defined.

(** X7: a request for zero bytes returns null.  An initialised heap is left
    exactly as it is.  As the first call on an untouched region with room
    for the root, the request still runs [mm_init]: it returns null and
    leaves the well-formed heap that [mm_init] sets up. *)
Theorem malloc_zero_returns_null (s : state) (fuel : nat) :
  (forall bl fl, heap s bl fl -> malloc fuel 0 s = Ok NULL s) /\
  (fresh s -> heap_lo s + 40 <= heap_max s ->
   exists s' bl fl,
     malloc fuel 0 s = Ok NULL s' /\ WF s' bl fl /\
     mm_init s = Ok (heap_lo s + 4136 <=? heap_max s) s').
Proof.
  split.
  - intros bl fl H. eapply malloc_zero. exact H.
  - intros Hf Hroom. pose proof Hf as (F1 & _).
    destruct (mm_init_full s Hf Hroom) as (s' & E & W & _).
    do 3 eexists. split; [|split; [exact W|exact E]].
    unfold malloc. erewrite bind_ok by reflexivity.
    rewrite F1. cbn [Z.eqb NULL].
    erewrite bind_ok by (erewrite bind_ok by exact E; reflexivity).
    reflexivity.
Qed.

Lemma malloc_zero_returns_null_witness :
  fresh ex_fresh /\ heap_lo ex_fresh + 40 <= heap_max ex_fresh /\
  exists s' bl fl,
    malloc 2 0 ex_fresh = Ok NULL s' /\ WF s' bl fl /\
    mm_init ex_fresh =
      Ok (heap_lo ex_fresh + 4136 <=? heap_max ex_fresh) s'.
Proof.
  split; [exact ex_fresh_fresh|]. split; [cbn; lia|].
  apply (malloc_zero_returns_null ex_fresh 2); [exact ex_fresh_fresh|cbn; lia].
Defined.

(** ** Placement and the free list *)

(** X8: [place b asize] on a listed free block of [bs >= asize] bytes
    takes the block off the list and, when at least 32 bytes would be left
    over, splits it: the head of [asize] bytes is allocated and the rest
    becomes a free block at the tail of the list; with less left over the
    whole block is allocated.  No allocated block is written to. *)
Theorem place_splits_or_fills s pre post fl b bs asize :
  heap s (pre ++ (b, bs, false) :: post) fl -> In b fl ->
  32 <= asize -> asize mod 16 = 0 -> asize <= bs ->
  exists s', place b asize s = Ok tt s' /\
    (if 32 <=? bs - asize then
       heap s' (pre ++ (b, asize, true) :: (b + asize, bs - asize, false) :: post)
            (remove Z.eq_dec b fl ++ [b + asize])
     else
       heap s' (pre ++ (b, bs, true) :: post) (remove Z.eq_dec b fl)) /\
    keeps_allocated s s' (pre ++ post) /\
    heap_brk s' = heap_brk s.
Proof.
  intros H Hin Ha1 Ha2 Ha3.
  destruct (place_full _ _ _ _ _ _ _ H Hin Ha1 Ha2 Ha3)
    as (s' & E & R & H' & K & _).
  exists s'. split; [exact E|]. split; [exact H'|]. split; [exact K|].
  apply R.
Qed.

Lemma place_splits_or_fills_witness :
  exists s', place 4136 48 ex_init = Ok tt s' /\
    heap s' ([] ++ [(4136, 48, true); (4136 + 48, 4096 - 48, false)])
         (remove Z.eq_dec 4136 [4136] ++ [4136 + 48]) /\
    keeps_allocated ex_init s' ([] ++ []) /\
    heap_brk s' = heap_brk ex_init.
Proof.
  apply (place_splits_or_fills ex_init [] [] [4136] 4136 4096 48).
  - exact (wf_heap _ _ _ ex_init_WF).
  - left. reflexivity.
  - lia.
  - reflexivity.
  - lia.
Defined.

(** X9: appending a free block to the list and removing it again gives the
    list back: [add_to_list new] makes the list [fl ++ [new]], and
    [remove_from_list new] after it makes it [fl] again, with
    [counter_global] back at its value and the chain untouched. *)
Theorem add_then_remove_restores_list s bl fl new nsz :
  heap s bl fl -> In (new, nsz, false) bl -> ~ In new fl ->
  exists s1 s2,
    add_to_list new s = Ok tt s1 /\ heap s1 bl (fl ++ [new]) /\
    remove_from_list new s1 = Ok tt s2 /\ heap s2 bl fl /\
    counter_global s2 = counter_global s /\ keeps_allocated s s2 bl.
Proof.
  intros H Hnew Hnin.
  destruct (add_to_list_full s bl fl new H (ex_intro _ nsz Hnew) Hnin)
    as (s1 & E1 & H1 & R1 & K1 & S1).
  destruct (remove_from_list_full s1 bl fl new [] H1)
    as (s2 & E2 & H2 & R2 & K2 & S2).
  rewrite app_nil_r in H2, S2.
  exists s1, s2. split; [exact E1|]. split; [exact H1|].
  split; [exact E2|]. split; [exact H2|]. split.
  - unfold slack in *. rewrite length_app in *. cbn [length] in *. lia.
  - eapply keeps_allocated_step; [exact K1|exact K2|auto].
Qed.

Lemma add_then_remove_restores_list_witness :
  exists s1 s2,
    add_to_list 4168 ex_b_marked = Ok tt s1 /\
    heap s1 [(4136, 32, false); (4168, 32, false); (4200, 4032, false)]
         ([4136; 4200] ++ [4168]) /\
    remove_from_list 4168 s1 = Ok tt s2 /\
    heap s2 [(4136, 32, false); (4168, 32, false); (4200, 4032, false)]
         [4136; 4200] /\
    counter_global s2 = counter_global ex_b_marked /\
    keeps_allocated ex_b_marked s2
      [(4136, 32, false); (4168, 32, false); (4200, 4032, false)].
Proof.
  apply (add_then_remove_restores_list ex_b_marked _ _ 4168 32 ex_b_marked_heap).
  - right. left. reflexivity.
  - cbn [In]. intuition discriminate.
Defined.

(** ** What the public operations give and what they leave alone *)

(** X10: a non-null result of [malloc] is new memory of sufficient
    capacity.  On a well-formed heap, for a size up to [2^64 - 32], the
    call returns; a null result leaves the state as it was; a non-null
    result [r] is the payload of an allocated block of the new chain with
    at least [size] payload bytes before its footer, inside the heap, and
    that block overlaps no block that was allocated before the call, each
    of which is still in the chain. *)
Theorem malloc_returns_new_memory s bl fl fuel size :
  WF s bl fl -> 0 < size <= 2 ^ 64 - 32 -> (length fl < fuel)%nat ->
  exists r s',
    malloc fuel size s = Ok r s' /\
    ((r = NULL /\ s' = s) \/
     (r <> NULL /\ exists bl' fl' bs,
        WF s' bl' fl' /\ In (r - 8, bs, true) bl' /\
        size <= bs - 16 /\
        heap_lo s' + 48 <= r /\ r + size <= heap_brk s' - 8 /\
        forall c csz, In (c, csz, true) bl ->
          In (c, csz, true) bl' /\ (c + csz <= r - 8 \/ r - 8 + bs <= c))).
Proof.
  intros W Hsz Hfuel.
  destruct (malloc_WF_full s bl fl fuel size W Hsz Hfuel)
    as (r & s' & E & [Hn|(b & bs & bl' & fl' & -> & W' & Hin & Hbs & Hk & _ & _ &
                          _ & _ & Hap & _)]).
  - exists r, s'. split; [exact E|left; exact Hn].
  - pose proof (base_block _ _ _ _ _ (h_base _ _ _ (wf_heap _ _ _ W')) Hin)
      as (B1 & B2 & _).
    pose proof (heap_bounds _ _ _ (wf_heap _ _ _ W')) as (D1 & D2 & D3).
    exists (b + 8), s'. split; [exact E|right]. split; [unfold NULL; lia|].
    exists bl', fl', bs. replace (b + 8 - 8) with b by lia.
    split; [exact W'|]. split; [exact Hin|]. split; [lia|].
    split; [lia|]. split; [lia|].
    intros c csz Hc. split; [apply Hk; [exact Hc|reflexivity]|].
    apply (Hap c csz Hc).
Qed.

Lemma malloc_returns_new_memory_witness :
  exists r s',
    malloc 3 16 ex_free_a = Ok r s' /\
    ((r = NULL /\ s' = ex_free_a) \/
     (r <> NULL /\ exists bl' fl' bs,
        WF s' bl' fl' /\ In (r - 8, bs, true) bl' /\
        16 <= bs - 16 /\
        heap_lo s' + 48 <= r /\ r + 16 <= heap_brk s' - 8 /\
        forall c csz,
          In (c, csz, true) [(4136, 32, false); (4168, 32, true);
                             (4200, 32, true); (4232, 4000, false)] ->
          In (c, csz, true) bl' /\ (c + csz <= r - 8 \/ r - 8 + bs <= c))).
Proof.
  apply (malloc_returns_new_memory ex_free_a _ _ 3 16 ex_free_a_WF).
  - lia.
  - cbn. lia.
Defined.



(** X12: [free] of the payload of an allocated block returns the block to
    the free list and touches nothing else that is allocated.  The heap
    is well formed again, the bytes of the block lie inside one free block
    of the new chain (the block itself or what it was merged into), every
    other allocated block is still in the chain with every byte as it was,
    and the heap keeps its bounds. *)
Theorem free_releases_only_its_block s pre post fl b sz :
  WF s (pre ++ (b, sz, true) :: post) fl ->
  exists s' bl' fl',
    free (b + 8) s = Ok tt s' /\ WF s' bl' fl' /\
    (exists p psz, In (p, psz, false) bl' /\ In p fl' /\
                   p <= b /\ b + sz <= p + psz) /\
    (forall c csz, In (c, csz, true) (pre ++ post) ->
       In (c, csz, true) bl' /\
       forall x, c <= x < c + csz -> mem s' x = mem s x) /\
    heap_lo s' = heap_lo s /\ heap_brk s' = heap_brk s.
Proof.
  intros W.
  destruct (free_full s pre post fl b sz W)
    as (s' & bl' & fl' & E & W' & R & Hk & K & _ & (p & psz & Hp & Hle) & _).
  exists s', bl', fl'. split; [exact E|]. split; [exact W'|]. split; [|split].
  - exists p, psz. split; [exact Hp|]. split; [|exact Hle].
    apply (wf_complete _ _ _ W' p psz Hp).
  - intros c csz Hc. split; [apply Hk; [exact Hc|reflexivity]|].
    intros x Hx. apply (K c csz x Hc Hx).
  - destruct R as (R1 & R2 & _). auto.
Qed.

Lemma free_releases_only_its_block_witness :
  exists s' bl' fl',
    free (4168 + 8) ex_abc = Ok tt s' /\ WF s' bl' fl' /\
    (exists p psz, In (p, psz, false) bl' /\ In p fl' /\
                   p <= 4168 /\ 4168 + 32 <= p + psz) /\
    (forall c csz,
       In (c, csz, true) ([(4136, 32, true)] ++
                          [(4200, 32, true); (4232, 4000, false)]) ->
       In (c, csz, true) bl' /\
       forall x, c <= x < c + csz -> mem s' x = mem ex_abc x) /\
    heap_lo s' = heap_lo ex_abc /\ heap_brk s' = heap_brk ex_abc.
Proof.
  apply (free_releases_only_its_block ex_abc [(4136, 32, true)]
           [(4200, 32, true); (4232, 4000, false)] [4232] 4168 32).
  exact ex_abc_WF.
Defined.



(** X14: [calloc] hands out zeroed memory.  For a product
    [elements * size] up to [2^64 - 32] the call returns; a null result
    leaves the state as it was; a non-null result [r] is the payload of an
    allocated block with room for the product, every one of its
    [elements * size] bytes reads 0, and every block that was allocated
    before is still allocated, byte for byte. *)
Theorem calloc_returns_zeroed_memory s bl fl fuel elements size :
  WF s bl fl -> 0 < elements < 2 ^ 64 -> 0 <= size < 2 ^ 64 ->
  elements * size <= 2 ^ 64 - 32 -> (length fl < fuel)%nat ->
  exists r s',
    calloc fuel elements size s = Ok r s' /\
    ((r = NULL /\ s' = s) \/
     (r <> NULL /\ exists bl' fl',
        WF s' bl' fl' /\
        (exists bs, In (r - 8, bs, true) bl' /\ elements * size + 16 <= bs) /\
        (forall i, 0 <= i < elements * size -> mem s' (r + i) = 0) /\
        (forall c csz, In (c, csz, true) bl ->
           In (c, csz, true) bl' /\
           forall x, c <= x < c + csz -> mem s' x = mem s x))).
Proof.
  intros W He Hs Hprod Hfuel.
  destruct (calloc_full s bl fl fuel elements size W He Hs Hprod Hfuel)
    as (r & s' & E & [Hn|(Hr & bl' & fl' & W' & _ & Hb & Hz & Hk)]).
  - exists r, s'. split; [exact E|left; exact Hn].
  - exists r, s'. split; [exact E|right]. split; [exact Hr|].
    exists bl', fl'. auto.
Qed.

Lemma calloc_returns_zeroed_memory_witness :
  exists r s',
    calloc 3 4 6 ex_free_a = Ok r s' /\
    ((r = NULL /\ s' = ex_free_a) \/
     (r <> NULL /\ exists bl' fl',
        WF s' bl' fl' /\
        (exists bs, In (r - 8, bs, true) bl' /\ 4 * 6 + 16 <= bs) /\
        (forall i, 0 <= i < 4 * 6 -> mem s' (r + i) = 0) /\
        (forall c csz,
           In (c, csz, true) [(4136, 32, false); (4168, 32, true);
                              (4200, 32, true); (4232, 4000, false)] ->
           In (c, csz, true) bl' /\
           forall x, c <= x < c + csz -> mem s' x = mem ex_free_a x))).
Proof.
  apply (calloc_returns_zeroed_memory ex_free_a _ _ 3 4 6 ex_free_a_WF).
  - lia.
  - lia.
  - lia.
  - cbn. lia.
Defined.



(** ** Invariants between calls *)

(** X16: the structure every call leaves behind.  After every public
    operation that the contract allows, the blocks tile the heap from the
    first block address [heap_lo + 40] to the top, each at least 32 bytes,
    a multiple of 16 in size and with a 16-byte aligned payload, and the
    free list holds exactly the free blocks, each once. *)
Theorem structure_kept_by_every_call s fuel o :
  callable s fuel o ->
  exists r s', run_op fuel o s = Ok r s' /\
    (fresh s' \/
     exists bl' fl', WF s' bl' fl' /\
       (forall b sz al, In (b, sz, al) bl' ->
          heap_lo s' + 40 <= b /\ b + sz <= heap_brk s' /\
          32 <= sz /\ sz mod 16 = 0 /\ header_to_payload b mod 16 = 0) /\
       total_size bl' = heap_brk s' - (heap_lo s' + 40) /\
       NoDup fl' /\
       (forall a, In a fl' <-> exists sz, In (a, sz, false) bl')).
Proof.
  intros Hc.
  destruct (run_op_callable s fuel o Hc) as (r & s' & E & [Hf|(bl' & fl' & W')]).
  - exists r, s'. split; [exact E|left; exact Hf].
  - exists r, s'. split; [exact E|right]. exists bl', fl'. split; [exact W'|].
    pose proof (wf_heap _ _ _ W') as H'. pose proof (h_base _ _ _ H') as Hb.
    split; [|split; [|split]].
    + intros b sz al Hin.
      pose proof (base_block _ _ _ _ _ Hb Hin) as (B1 & B2 & B3 & B4 & _).
      repeat split; try assumption.
      apply payload_aligned.
      eapply seg_aligned; [apply (b_seg _ _ Hb)| |exact Hin].
      pose proof (b_lo_al _ _ Hb). mlia.
    + pose proof (seg_total _ _ _ _ (b_seg _ _ Hb)). lia.
    + apply (h_nodup _ _ _ H').
    + intros a. split.
      * apply (h_sound _ _ _ H').
      * intros (sz & Hin). apply (wf_complete _ _ _ W' a sz Hin).
Qed.

Lemma structure_kept_by_every_call_witness :
  callable ex_abc 2 (OpFree 4176) /\
  exists r s', run_op 2 (OpFree 4176) ex_abc = Ok r s' /\
    (fresh s' \/
     exists bl' fl', WF s' bl' fl' /\
       (forall b sz al, In (b, sz, al) bl' ->
          heap_lo s' + 40 <= b /\ b + sz <= heap_brk s' /\
          32 <= sz /\ sz mod 16 = 0 /\ header_to_payload b mod 16 = 0) /\
       total_size bl' = heap_brk s' - (heap_lo s' + 40) /\
       NoDup fl' /\
       (forall a, In a fl' <-> exists sz, In (a, sz, false) bl')).
Proof.
  assert (Hc : callable ex_abc 2 (OpFree 4176)).
  { left. do 2 eexists. split; [exact ex_abc_WF|]. split.
    - exists 32. right. left. reflexivity.
    - cbn. lia. }
  split; [exact Hc|].
  exact (structure_kept_by_every_call ex_abc 2 (OpFree 4176) Hc).
Defined.



(** ** The heap checker on sound heaps *)

Lemma chain_next s pre c csz cal X :
  base s (pre ++ (c, csz, cal) :: X) ->
  c + csz = match X with [] => heap_brk s | b :: _ => blk_addr b end.
Proof.
  intros Hb. pose proof (b_seg _ _ Hb) as Hseg.
  apply seg_app in Hseg. destruct Hseg as (c' & _ & Hseg).
  cbn [seg] in Hseg. destruct Hseg as (-> & _ & _ & _ & _ & Hrest).
  destruct X as [|[[n nsz] nal] X']; cbn [seg] in Hrest.
  - exact Hrest.
  - destruct Hrest as (-> & _). reflexivity.
Qed.

Lemma checkheap_blocks_spec s : forall X pre c csz cal fuel,
  base s (pre ++ (c, csz, cal) :: X) -> heap_brk s + 24 < 2 ^ 64 ->
  (length X < fuel)%nat ->
  checkheap_blocks fuel (heap_brk s - 1) c s =
  Ok (match X with [] => true | _ => cal && forallb blk_alloc X end) s.
Proof.
  induction X as [|[[n nsz] nal] X' IH]; intros pre c csz cal fuel Hb Htop Hfuel;
    (destruct fuel as [|fuel]; [cbn in Hfuel; lia|]);
    pose proof (chain_next _ _ _ _ _ _ Hb) as Hnext;
    pose proof (b_lo_pos _ _ Hb) as Hlo.
  - assert (Hc0 : In (c, csz, cal) (pre ++ [(c, csz, cal)])) by apply in_elt.
    pose proof (base_block _ _ _ _ _ Hb Hc0) as (B1 & B2 & B3 & _).
    cbn [checkheap_blocks]. unfold get_next_block.
    erewrite bind_ok.
    2:{ erewrite bind_ok by (eapply base_get_size; [exact Hb|exact Hc0]).
        reflexivity. }
    rewrite (padd_small c csz) by lia. rewrite Hnext.
    change (1 * sizeof_block) with 24. rewrite padd_small by lia.
    destruct (Z.ltb_spec (heap_brk s + 24) (heap_brk s - 1)); [lia|reflexivity].
  - assert (Hc1 : In (c, csz, cal) (pre ++ (c, csz, cal) :: (n, nsz, nal) :: X'))
      by apply in_elt.
    assert (Hn1 : In (n, nsz, nal) (pre ++ (c, csz, cal) :: (n, nsz, nal) :: X')).
    { apply in_or_app. right. right. left. reflexivity. }
    pose proof (base_block _ _ _ _ _ Hb Hc1) as (B1 & B2 & B3 & _).
    pose proof (base_block _ _ _ _ _ Hb Hn1) as (C1 & C2 & C3 & _).
    cbn [blk_addr fst] in Hnext.
    cbn [checkheap_blocks]. unfold get_next_block.
    erewrite bind_ok.
    2:{ erewrite bind_ok by (eapply base_get_size; [exact Hb|exact Hc1]).
        reflexivity. }
    rewrite (padd_small c csz) by lia. rewrite Hnext.
    change (1 * sizeof_block) with 24. rewrite padd_small by lia.
    destruct (Z.ltb_spec (n + 24) (heap_brk s - 1)); [|lia].
    erewrite bind_ok by (apply (checkheap_block_spec _ _ _ _ _ _ _ _ _ Hb)).
    cbn [forallb blk_alloc snd].
    destruct cal; cbn [andb]; [|reflexivity].
    destruct nal; cbn [andb]; [|reflexivity].
    assert (Hb' : base s ((pre ++ [(c, csz, true)]) ++ (n, nsz, true) :: X')).
    { rewrite <- app_assoc. exact Hb. }
    rewrite (IH _ n nsz true fuel Hb' Htop) by (cbn in Hfuel; lia).
    destruct X'; reflexivity.
Qed.

Lemma mem_heap_hi_ok s bl :
  base s bl -> mem_heap_hi s = Ok (heap_brk s - 1) s.
Proof.
  intros Hb. pose proof (base_brk _ _ Hb). pose proof (b_lo_pos _ _ Hb).
  pose proof (b_max _ _ Hb).
  unfold mem_heap_hi, gets. rewrite w64_small by lia. reflexivity.
Qed.

(** X18: the block walk of [mm_checkheap] on a sound chain.  Started at a
    block of a well-formed chain, with fuel for the blocks that follow and
    a heap that ends at least 24 bytes below [2^64], the walk ends and
    returns true only if that block is the last one or it and all the
    blocks after it are allocated: one free block among them, which the
    invariants allow, makes the checker report a violation. *)
Theorem checkheap_walk_accepts_only_allocated_blocks
    s pre c csz cal X fuel :
  base s (pre ++ (c, csz, cal) :: X) -> heap_brk s + 24 < 2 ^ 64 ->
  (length X < fuel)%nat ->
  (hi <- mem_heap_hi ;; checkheap_blocks fuel hi c) s =
  Ok (match X with
      | [] => true
      | _ => forallb blk_alloc ((c, csz, cal) :: X)
      end) s.
Proof.
  intros Hb Htop Hfuel.
  erewrite bind_ok by (eapply mem_heap_hi_ok; exact Hb).
  rewrite (checkheap_blocks_spec s X pre c csz cal fuel Hb Htop Hfuel).
  destruct X; reflexivity.
Qed.

Lemma checkheap_walk_accepts_only_allocated_blocks_witness :
  (hi <- mem_heap_hi ;; checkheap_blocks 4 hi 4136) ex_abc =
  Ok (forallb blk_alloc [(4136, 32, true); (4168, 32, true); (4200, 32, true);
                         (4232, 4000, false)]) ex_abc.
Proof.
  apply (checkheap_walk_accepts_only_allocated_blocks ex_abc [] 4136 32 true
           [(4168, 32, true); (4200, 32, true); (4232, 4000, false)] 4).
  - exact (h_base _ _ _ (wf_heap _ _ _ ex_abc_WF)).
  - vm_compute. reflexivity.
  - cbn. lia.
Defined.

Lemma checkheap_free_spec s bl fl :
  heap s bl fl ->
  forall l x fuel,
    dllf (nxt (mem s)) (prv (mem s)) (heap_lo s + 8) x l ->
    (forall a, In a l -> In a fl) -> In x (heap_lo s + 8 :: fl) ->
    (length l < fuel)%nat ->
    checkheap_free fuel (heap_lo s) (heap_brk s - 1) (nxt (mem s) x) s =
    Ok true s.
Proof.
  intros H. pose proof (h_base _ _ _ H) as Hb.
  pose proof (heap_bounds _ _ _ H) as (B1 & B2 & B3).
  induction l as [|y l IH]; intros x fuel Hd Hsub Hx Hfuel;
    (destruct fuel as [|fuel]; [cbn in Hfuel; lia|]); cbn [dllf] in Hd.
  - destruct Hd as (Hn & _). rewrite Hn. cbn [checkheap_free].
    unfold get_size.
    erewrite bind_ok.
    2:{ erewrite bind_ok by (apply load_ok; inb). reflexivity. }
    rewrite (b_rhd _ _ Hb). reflexivity.
  - destruct Hd as (Hn & _ & Hd). rewrite Hn. cbn [checkheap_free].
    assert (Hy : In y fl) by (apply Hsub; left; reflexivity).
    destruct (heap_node_size _ _ _ y H Hy) as (sz & Hin & _ & Hsz & Eg).
    pose proof (base_block _ _ _ _ _ Hb Hin) as (C1 & C2 & _).
    erewrite bind_ok by exact Eg.
    destruct (Z.gtb_spec sz 0); [|lia].
    destruct (Z.ltb_spec y (heap_lo s)); [lia|].
    destruct (Z.gtb_spec y (heap_brk s - 1)); [lia|]. cbn [orb].
    unfold get_next_free, next_offset. rewrite padd_small by lia.
    erewrite bind_ok by (apply load_ok; inb).
    fold (nxt (mem s) y).
    apply IH; [exact Hd| |right; exact Hy|cbn in Hfuel; lia].
    intros a Ha. apply Hsub. right. exact Ha.
Qed.

(** X19: the free-list walk of [mm_checkheap] accepts every sound list.  On
    a heap with a well-formed chain and list, the last part of the checker
    (from the root's successor, with fuel beyond the length of the list)
    finds every node inside the heap, comes back to the root and returns
    true. *)
Theorem checkheap_accepts_sound_free_list s bl fl fuel :
  heap s bl fl -> (length fl < fuel)%nat ->
  (lo <- mem_heap_lo ;;
   hi <- mem_heap_hi ;;
   root <- gets free_root ;;
   first <- get_next_free root ;;
   checkheap_free fuel lo hi first) s = Ok true s.
Proof.
  intros H Hfuel. pose proof (h_base _ _ _ H) as Hb.
  pose proof (heap_bounds _ _ _ H) as (B1 & B2 & B3).
  erewrite bind_ok by reflexivity.
  erewrite bind_ok by (eapply mem_heap_hi_ok; exact Hb).
  erewrite bind_ok by reflexivity. rewrite (b_root _ _ Hb).
  unfold get_next_free, next_offset. rewrite padd_small by lia.
  erewrite bind_ok by (apply load_ok; inb).
  fold (nxt (mem s) (heap_lo s + 8)).
  apply (checkheap_free_spec s bl fl H fl).
  - exact (h_dll _ _ _ H).
  - auto.
  - left. reflexivity.
  - exact Hfuel.
Qed.

Lemma checkheap_accepts_sound_free_list_witness :
  (lo <- mem_heap_lo ;;
   hi <- mem_heap_hi ;;
   root <- gets free_root ;;
   first <- get_next_free root ;;
   checkheap_free 3 lo hi first) ex_free_a = Ok true ex_free_a.
Proof.
  apply (checkheap_accepts_sound_free_list ex_free_a _ _ 3
           (wf_heap _ _ _ ex_free_a_WF)).
  cbn. lia.
Defined.

Lemma reads_only_ret {A} (a : A) : reads_only (ret a).
Proof. intros s r s' H. apply ret_inv in H. apply H. Qed.

Lemma reads_only_gets {A} (f : state -> A) : reads_only (gets f).
Proof. intros s r s' H. apply gets_inv in H. apply H. Qed.

Lemma reads_only_load a : reads_only (load a).
Proof. intros s r s' H. apply load_inv in H. apply H. Qed.

Lemma reads_only_bind {A B} (c : M A) (k : A -> M B) :
  reads_only c -> (forall a, reads_only (k a)) -> reads_only (bind c k).
Proof.
  intros Hc Hk s r s' H. apply bind_inv in H. destruct H as (a & s1 & H1 & H2).
  apply Hc in H1. subst s1. apply (Hk a _ _ _ H2).
Qed.

Lemma reads_only_get_size b : reads_only (get_size b).
Proof.
  apply reads_only_bind; [apply reads_only_load|intros; apply reads_only_ret].
Qed.

Lemma reads_only_get_alloc b : reads_only (get_alloc b).
Proof.
  apply reads_only_bind; [apply reads_only_load|intros; apply reads_only_ret].
Qed.

Lemma reads_only_checkheap_block c n : reads_only (checkheap_block c n).
Proof.
  unfold checkheap_block.
  apply reads_only_bind; [apply reads_only_load|intros hdr].
  apply reads_only_bind; [apply reads_only_load|intros ftr].
  apply reads_only_bind; [apply reads_only_get_alloc|intros al].
  destruct (negb (hdr =? ftr)); [apply reads_only_ret|].
  destruct (al && negb (aligned (header_to_payload c))); [apply reads_only_ret|].
  apply reads_only_bind; [apply reads_only_get_size|intros size].
  destruct (size <? min_block_size); [apply reads_only_ret|].
  destruct (negb (size mod dsize =? 0)); [apply reads_only_ret|].
  apply reads_only_bind; [apply reads_only_get_alloc|intros ca].
  apply reads_only_bind; [apply reads_only_get_alloc|intros na].
  destruct (negb ca || negb na); apply reads_only_ret.
Qed.

Lemma reads_only_checkheap_blocks hi : forall fuel curr,
  reads_only (checkheap_blocks fuel hi curr).
Proof.
  induction fuel as [|fuel IH]; intros curr; cbn [checkheap_blocks].
  - intros s r s' H. discriminate.
  - apply reads_only_bind.
    + apply reads_only_bind; [apply reads_only_get_size|intros; apply reads_only_ret].
    + intros next. destruct (padd next (1 * sizeof_block) <? hi);
        [|apply reads_only_ret].
      apply reads_only_bind; [apply reads_only_checkheap_block|].
      intros [b|n]; [apply reads_only_ret|apply IH].
Qed.

Lemma reads_only_checkheap_free lo hi : forall fuel tmp,
  reads_only (checkheap_free fuel lo hi tmp).
Proof.
  induction fuel as [|fuel IH]; intros tmp; cbn [checkheap_free].
  - intros s r s' H. discriminate.
  - apply reads_only_bind; [apply reads_only_get_size|intros sz].
    destruct (sz >? 0); [|apply reads_only_ret].
    destruct ((tmp <? lo) || (tmp >? hi)); [apply reads_only_ret|].
    apply reads_only_bind; [apply reads_only_load|intros next; apply IH].
Qed.

(** X20: [mm_checkheap] only reads.  Whatever the state, sound or not, and
    whatever it reports, a run of the checker that returns leaves memory,
    the heap bounds, the roots and the counter exactly as they were. *)
Theorem mm_checkheap_changes_nothing (fuel : nat) (s : state) (r : bool)
    (s' : state) :
  mm_checkheap fuel s = Ok r s' -> s' = s.
Proof.
  revert s r s'. change (reads_only (mm_checkheap fuel)). unfold mm_checkheap.
  apply reads_only_bind; [apply reads_only_gets|intros lo].
  apply reads_only_bind; [apply reads_only_gets|intros hi].
  apply reads_only_bind; [apply reads_only_gets|intros p].
  destruct (padd p (wmul (wmul 5 wsize) wsize) =? NULL); [apply reads_only_ret|].
  apply reads_only_bind; [apply reads_only_checkheap_blocks|intros ok].
  destruct (negb ok); [apply reads_only_ret|].
  apply reads_only_bind; [apply reads_only_gets|intros root].
  apply reads_only_bind; [apply reads_only_load|intros first].
  apply reads_only_checkheap_free.
Qed.

Lemma mm_checkheap_changes_nothing_witness :
  mm_checkheap 10 ex_zeroed = Ok false ex_zeroed /\
  state_of (mm_checkheap 10 ex_zeroed) ex_fresh = ex_zeroed.
Proof.
  assert (E : mm_checkheap 10 ex_zeroed
              = Ok false (state_of (mm_checkheap 10 ex_zeroed) ex_fresh)).
  { apply (result_is _ true); vm_compute; reflexivity. }
  pose proof (mm_checkheap_changes_nothing 10 ex_zeroed false _ E) as Es.
  split; [rewrite <- Es at 2; exact E|exact Es].
Defined.

(** X21: the checker never starts its walk at a block.  Block headers of a
    well-formed heap lie at addresses congruent to 8 modulo 16, and the
    walk starts at [prologue + 5 * wsize] counted in words, 320 bytes
    above the region's 16-byte aligned start: the first "header" the
    checker reads is no header of any block. *)
Theorem checkheap_start_is_no_block s bl b sz al :
  base s bl -> In (b, sz, al) bl ->
  padd (prologue s) (wmul (wmul 5 wsize) wsize) <> b.
Proof.
  intros Hb Hin.
  assert (Hb8 : b mod 16 = 8).
  { eapply seg_aligned; [apply (b_seg _ _ Hb)| |exact Hin].
    pose proof (b_lo_al _ _ Hb). mlia. }
  rewrite (b_prologue _ _ Hb). change (wmul (wmul 5 wsize) wsize) with 320.
  pose proof (b_lo_al _ _ Hb) as Hal. pose proof (b_lo_pos _ _ Hb) as Hlo.
  unfold padd, w64. rewrite modulus_eq. intros E. mlia.
Qed.

Lemma checkheap_start_is_no_block_witness :
  padd (prologue ex_abc) (wmul (wmul 5 wsize) wsize) <> 4200.
Proof.
  apply (checkheap_start_is_no_block ex_abc _ 4200 32 true
           (h_base _ _ _ (wf_heap _ _ _ ex_abc_WF))).
  right. right. left. reflexivity.
Defined.

(** ** Walking the chain *)

(** X22: stepping to the next block and back.  For two neighbours of a
    well-formed chain, [get_next_block] of the first is the second, and
    [get_prev_block] of the second, which reads the size from the footer
    in the word before it, is the first. *)
Theorem next_block_then_prev_block s pre b sz al n nsz nal post :
  base s (pre ++ (b, sz, al) :: (n, nsz, nal) :: post) ->
  get_next_block b s = Ok n s /\ get_prev_block n s = Ok b s.
Proof.
  intros Hb.
  assert (Hb_in : In (b, sz, al) (pre ++ (b, sz, al) :: (n, nsz, nal) :: post))
    by apply in_elt.
  pose proof (base_block _ _ _ _ _ Hb Hb_in) as (B1 & B2 & B3 & B4 & B5 & B6).
  pose proof (chain_next _ _ _ _ _ _ Hb) as Hn. cbn [blk_addr fst] in Hn.
  pose proof (b_lo_pos _ _ Hb) as Hlo. pose proof (b_max _ _ Hb) as Hmax.
  split.
  - unfold get_next_block.
    erewrite bind_ok by (eapply base_get_size; [exact Hb|exact Hb_in]).
    rewrite padd_small by lia. rewrite Hn. reflexivity.
  - unfold get_prev_block, find_prev_footer, wsize.
    rewrite psub_small by lia.
    erewrite bind_ok by (apply load_ok; inb).
    replace (n - 8) with (b + sz - 8) by lia. rewrite B6.
    rewrite extract_size_pack by lia.
    rewrite psub_small by lia. replace (n - sz) with b by lia. reflexivity.
Qed.

Lemma next_block_then_prev_block_witness :
  get_next_block 4168 ex_abc = Ok 4200 ex_abc /\
  get_prev_block 4200 ex_abc = Ok 4168 ex_abc.
Proof.
  apply (next_block_then_prev_block ex_abc [(4136, 32, true)] 4168 32 true
           4200 32 true [(4232, 4000, false)]).
  exact (h_base _ _ _ (wf_heap _ _ _ ex_abc_WF)).
Defined.

(** ** Writing and reading boundary tags *)

(** X23: what [write_block] writes can be read back.  For a block other
    than the root that lies in the heap, with a size of at least 16 that is
    a multiple of 16, [write_block] stores the tag in the header and in the
    last word of the block; afterwards [get_size] and [get_alloc] return
    the size and the flag that were written, and no byte outside those two
    words has changed. *)
Theorem write_block_then_read_back s b sz al :
  b <> free_root s -> 0 <= heap_lo s <= b -> 16 <= sz -> sz mod 16 = 0 ->
  b + sz <= heap_brk s -> heap_brk s < 2 ^ 64 ->
  exists s',
    write_block b sz al s = Ok tt s' /\
    get_size b s' = Ok sz s' /\ get_alloc b s' = Ok al s' /\
    load64 (mem s') (b + sz - 8) = pack sz al /\
    (forall x, x < b \/ b + 8 <= x < b + sz - 8 \/ b + sz <= x ->
               mem s' x = mem s x).
Proof.
  intros Hr Hlo Hsz Hm Hfit Htop.
  assert (Rp : 0 <= pack sz al < 18446744073709551616)
    by (apply pack_range; [lia|exact Hm]).
  eexists. split; [apply write_block_ok; lia|].
  assert (Hh : load64 (store64 (store64 (mem s) b (pack sz al))
                               (b + sz - 8) (pack sz al)) b = pack sz al).
  { destruct (Z.eq_dec sz 16) as [->|Hne].
    - rewrite load64_store64_other by lia. apply load64_store64_same. exact Rp.
    - rewrite load64_store64_other by lia. apply load64_store64_same. exact Rp. }
  split; [|split; [|split]].
  - unfold get_size. erewrite bind_ok by (apply load_ok; inb).
    cbn [set_mem mem]. rewrite Hh. rewrite extract_size_pack by lia.
    reflexivity.
  - unfold get_alloc. erewrite bind_ok by (apply load_ok; inb).
    cbn [set_mem mem]. rewrite Hh. rewrite extract_alloc_pack by exact Hm.
    reflexivity.
  - cbn [set_mem mem]. apply load64_store64_same. exact Rp.
  - intros x Hx. cbn [set_mem mem]. unfold store64.
    rewrite !store_le_other by (simpl; lia). reflexivity.
Qed.

Lemma write_block_then_read_back_witness :
  exists s',
    write_block 4168 32 false ex_abc = Ok tt s' /\
    get_size 4168 s' = Ok 32 s' /\ get_alloc 4168 s' = Ok false s' /\
    load64 (mem s') (4168 + 32 - 8) = pack 32 false /\
    (forall x, x < 4168 \/ 4168 + 8 <= x < 4168 + 32 - 8 \/ 4168 + 32 <= x ->
               mem s' x = mem ex_abc x).
Proof.
  apply (write_block_then_read_back ex_abc 4168 32 false).
  - vm_compute. discriminate.
  - vm_compute. split; discriminate.
  - lia.
  - reflexivity.
  - vm_compute. discriminate.
  - vm_compute. reflexivity.
Defined.

(** ** Sizes that wrap around *)

Lemma asize_wraps_to_zero size :
  2 ^ 64 - 31 <= size <= 2 ^ 64 - 16 ->
  round_up (padd size dsize) dsize = 0.
Proof.
  intros H. unfold round_up, dsize, wsize. change (2 * 8) with 16.
  rewrite (psub_small 16 1) by lia.
  unfold padd, w64. rewrite modulus_eq.
  rewrite Zplus_mod_idemp_l.
  replace ((size + 16 + (16 - 1)) mod 18446744073709551616)
    with (size + 31 - 18446744073709551616) by mlia.
  rewrite Z.div_small by lia. reflexivity.
Qed.

(** X24: a request within 31 bytes of [2^64] is not refused.  For
    [2^64 - 31 <= size <= 2^64 - 16] the adjusted size [size + 16], rounded
    up, wraps around to 0; every free block fits 0 bytes, so on a
    well-formed heap with a non-empty free list [malloc] returns the
    payload of the first listed block, a non-null pointer, and "splits off"
    the whole block as the remainder: after the call that block is at the
    tail of the free list and its header still gives its full size and
    says free. *)
Theorem malloc_of_wrapping_size_returns_free_block s bl f fl fuel size :
  WF s bl (f :: fl) -> 2 ^ 64 - 31 <= size <= 2 ^ 64 - 16 ->
  (length (f :: fl) < fuel)%nat ->
  exists s' fs,
    malloc fuel size s = Ok (f + 8) s' /\ f + 8 <> NULL /\
    In (f, fs, false) bl /\
    get_size f s' = Ok fs s' /\ get_alloc f s' = Ok false s' /\
    get_prev_free (free_root s') s' = Ok f s'.
Proof.
  intros W Hsz Hfuel. pose proof (wf_heap _ _ _ W) as H.
  pose proof (h_base _ _ _ H) as Hb.
  pose proof (heap_bounds _ _ _ H) as (B1 & B2 & B3).
  pose proof (b_max _ _ Hb) as Hmax.
  assert (Hf : In f (f :: fl)) by (left; reflexivity).
  destruct (heap_node_size _ _ _ f H Hf) as (fs & Hin & Hsize & Hfs & Eg).
  pose proof (base_block _ _ _ _ _ Hb Hin) as (C1 & C2 & C3 & C4 & C5 & C6).
  destruct (remove_from_list_full s bl [] f fl H)
    as (s1 & E1 & H1 & R1 & _ & _).
  cbn [app] in H1. destruct R1 as (Rlo & Rbrk & Rmax & Rroot & Rpro).
  pose proof (h_base _ _ _ H1) as Hb1.
  pose proof (b_root _ _ Hb1) as Hroot1.
  set (root := heap_lo s + 8) in *.
  pose proof (dllf_tail _ _ _ _ _ (h_dll _ _ _ H1)) as Htl.
  rewrite Rlo in Htl. fold root in Htl.
  set (tl := tail_of root fl) in *.
  assert (Htl_in : In tl (root :: fl)) by apply tail_of_in.
  assert (Hfn : ~ In f fl).
  { pose proof (h_nodup _ _ _ H) as Hnd. apply NoDup_cons_iff in Hnd. tauto. }
  assert (Htl_node : node s bl tl).
  { apply (heap_node _ _ _ _ H). destruct Htl_in as [Ht|Ht]; [left; exact Ht|].
    right. right. exact Ht. }
  assert (Hf_node : node s bl f) by (right; eauto).
  pose proof (node_range _ _ _ Hb Htl_node) as Rt.
  assert (Htf : tl + 32 <= f \/ f + 32 <= tl).
  { destruct (node_spaced _ _ _ _ Hb Htl_node Hf_node) as [Et|Hd]; [|exact Hd].
    exfalso. destruct Htl_in as [Ht|Ht].
    - unfold root in Ht. lia.
    - apply Hfn. rewrite <- Et. exact Ht. }
  assert (Rfs : 0 <= fs < 18446744073709551616) by lia.
  set (m1 := mem s1).
  set (m2 := store64 (store64 m1 f 1) (f - 8) 1).
  set (m3 := store64 (store64 m2 f fs) (f + fs - 8) fs).
  set (m4 := store64 (store64 (store64 (store64 m3 (tl + 16) f) (f + 16) root)
                        (root + 8) f) (f + 8) tl).
  assert (Epl : place f 0 s =
                Ok tt (set_counter (set_mem s1 m4) (counter_global s1 + 1))).
  { unfold place. erewrite bind_ok by exact Eg.
    rewrite psub_small by lia. unfold min_block_size, dsize, wsize.
    change (2 * (2 * 8)) with 32. replace (fs - 0) with fs by lia.
    destruct (Z.geb_spec fs 32) as [_|]; [|lia].
    erewrite bind_ok by exact E1.
    (* write_block f 0 true *)
    erewrite bind_ok.
    2:{ unfold write_block. change (pack 0 true) with 1.
        erewrite bind_ok by (apply store_ok; inb).
        erewrite bind_ok by reflexivity.
        cbn [set_mem free_root]. rewrite Hroot1, Rlo. fold root.
        destruct (Z.eqb_spec f root) as [Ef|_]; [unfold root in Ef; lia|].
        unfold get_size.
        erewrite bind_ok by (erewrite bind_ok by (apply load_ok; inb); reflexivity).
        cbn [set_mem mem]. rewrite load64_store64_same by lia.
        change (extract_size 1) with 0.
        unfold header_to_payload, content_offset, dsize, wsize.
        rewrite (padd_small f 8) by lia. rewrite padd_small by lia.
        change (2 * 8) with 16. rewrite psub_small by lia.
        replace (f + 8 + 0 - 16) with (f - 8) by lia.
        rewrite store_ok by inb. reflexivity. }
    cbn [set_mem mem]. fold m1. fold m2.
    (* get_next_block f *)
    unfold get_next_block, get_size.
    erewrite bind_ok.
    2:{ erewrite bind_ok.
        2:{ erewrite bind_ok by (apply load_ok; inb). reflexivity. }
        reflexivity. }
    cbn [set_mem mem].
    assert (Em2 : load64 m2 f = 1).
    { unfold m2. rewrite load64_store64_other by lia.
      apply load64_store64_same. lia. }
    rewrite !Em2.
    change (extract_size 1) with 0. rewrite padd_small by lia.
    replace (f + 0) with f by lia.
    destruct (Z.eqb_spec f NULL) as [E0|_]; [unfold NULL in E0; lia|].
    (* write_block f fs false *)
    erewrite bind_ok.
    2:{ apply write_block_ok; cbn [set_mem free_root heap_lo heap_brk];
          rewrite ?Hroot1, ?Rlo, ?Rbrk; first [exact C4|unfold root in *; lia]. }
    cbn [set_mem mem pack]. fold m3.
    (* add_to_list f *)
    unfold add_to_list, get_prev_free, set_next_free, set_prev_free,
      prev_offset, next_offset.
    erewrite bind_ok by reflexivity.
    cbn [set_mem free_root]. rewrite Hroot1, Rlo. fold root.
    rewrite !(padd_small root), !(padd_small f) by (unfold root; lia).
    erewrite bind_ok by (apply load_ok; unfold root; inb).
    cbn [set_mem mem].
    assert (Eprv : load64 m3 (root + 8) = tl).
    { unfold m3, m2. rewrite !load64_store64_other by (unfold root; lia).
      unfold m1. fold (prv (mem s1) root). exact Htl. }
    rewrite Eprv. rewrite (padd_small tl) by lia.
    erewrite bind_ok by (apply store_ok; inb).
    erewrite bind_ok by (apply store_ok; inb).
    erewrite bind_ok by (apply store_ok; unfold root; inb).
    erewrite bind_ok by (apply store_ok; inb).
    reflexivity. }
  set (s4 := set_counter (set_mem s1 m4) (counter_global s1 + 1)) in *.
  assert (Hhdr : load64 (mem s4) f = fs).
  { cbn [s4 set_counter set_mem mem]. unfold m4, m3.
    rewrite !load64_store64_other by (unfold root; lia).
    apply load64_store64_same. exact Rfs. }
  exists s4, fs. split; [|split; [unfold NULL; lia|split; [exact Hin|split; [|split]]]].
  - rewrite (malloc_initialised _ _ _ _ _ H). unfold malloc_sized.
    destruct (Z.leb_spec size 0) as [|_]; [lia|].
    rewrite (asize_wraps_to_zero size Hsz).
    erewrite bind_ok by (apply (find_fit_spec _ _ _ _ _ H Hfuel)).
    unfold first_fit. cbn [find]. rewrite Hsize.
    destruct (Z.leb_spec 0 fs) as [_|]; [|lia].
    destruct (Z.eqb_spec f NULL) as [E0|_]; [unfold NULL in E0; lia|].
    erewrite bind_ok by exact Epl.
    unfold header_to_payload, content_offset. rewrite padd_small by lia.
    reflexivity.
  - unfold get_size.
    erewrite bind_ok by (apply load_ok; unfold s4; inb).
    rewrite Hhdr. change fs with (pack fs false).
    rewrite extract_size_pack by lia. reflexivity.
  - unfold get_alloc.
    erewrite bind_ok by (apply load_ok; unfold s4; inb).
    rewrite Hhdr. change fs with (pack fs false) at 1.
    rewrite extract_alloc_pack by exact C4. reflexivity.
  - unfold get_prev_free, prev_offset.
    cbn [s4 set_counter set_mem free_root]. rewrite Hroot1, Rlo. fold root.
    rewrite padd_small by (unfold root; lia).
    rewrite load_ok by (unfold root, s4; inb).
    cbn [s4 set_counter set_mem mem]. unfold m4.
    rewrite load64_store64_other by (unfold root; lia).
    rewrite load64_store64_same by lia. reflexivity.
Qed.

Lemma malloc_of_wrapping_size_returns_free_block_witness :
  exists s' fs,
    malloc 3 (2 ^ 64 - 20) ex_free_a = Ok (4232 + 8) s' /\ 4232 + 8 <> NULL /\
    In (4232, fs, false) [(4136, 32, false); (4168, 32, true);
                          (4200, 32, true); (4232, 4000, false)] /\
    get_size 4232 s' = Ok fs s' /\ get_alloc 4232 s' = Ok false s' /\
    get_prev_free (free_root s') s' = Ok 4232 s'.
Proof.
  apply (malloc_of_wrapping_size_returns_free_block ex_free_a _ 4232 [4136] 3
           (2 ^ 64 - 20) ex_free_a_WF).
  - lia.
  - cbn. lia.
Defined.

(** ** The links of the free list *)

Lemma dllf_adjacent nx pv root : forall l x0 l1 x y l2,
  dllf nx pv root x0 l ->
  x0 :: l ++ [root] = l1 ++ x :: y :: l2 ->
  nx x = y /\ pv y = x.
Proof.
  induction l as [|z l IH]; intros x0 l1 x y l2 Hd E; cbn [dllf] in Hd.
  - destruct l1 as [|a l1]; cbn in E.
    + inversion E; subst. exact Hd.
    + inversion E as [[Ea E']]. destruct l1; cbn in E'; [discriminate|].
      inversion E' as [[Eb E'']]. destruct l1; discriminate.
  - destruct Hd as (Hn & Hp & Hd). destruct l1 as [|a l1]; cbn in E.
    + inversion E; subst. auto.
    + inversion E as [[Ea E']]. apply (IH z l1 x y l2 Hd E').
Qed.

(** X25: the free list is circular and doubly linked.  On a heap with a
    well-formed chain and list, walking from the root through the list and
    back to the root, any two consecutive nodes point at each other:
    [get_next_free] of the first is the second and [get_prev_free] of the
    second is the first; for an empty list the root points at itself both
    ways. *)
Theorem free_list_links_are_mutual s bl fl l1 x y l2 :
  heap s bl fl ->
  (heap_lo s + 8) :: fl ++ [heap_lo s + 8] = l1 ++ x :: y :: l2 ->
  get_next_free x s = Ok y s /\ get_prev_free y s = Ok x s.
Proof.
  intros H E. pose proof (h_base _ _ _ H) as Hb.
  pose proof (heap_bounds _ _ _ H) as (B1 & B2 & B3).
  destruct (dllf_adjacent _ _ _ _ _ _ _ _ _ (h_dll _ _ _ H) E) as (Hn & Hp).
  assert (Hin : forall z, In z ((heap_lo s + 8) :: fl ++ [heap_lo s + 8]) ->
                          node s bl z).
  { intros z [Hz|Hz]; [left; symmetry; exact Hz|].
    apply in_app_or in Hz. destruct Hz as [Hz|[Hz|[]]].
    - apply (heap_node _ _ _ _ H). right. exact Hz.
    - left. symmetry. exact Hz. }
  assert (Hx : node s bl x).
  { apply Hin. rewrite E. apply in_elt. }
  assert (Hy : node s bl y).
  { apply Hin. rewrite E. apply in_or_app. right. right. left. reflexivity. }
  pose proof (node_range _ _ _ Hb Hx) as Rx.
  pose proof (node_range _ _ _ Hb Hy) as Ry.
  unfold get_next_free, get_prev_free, next_offset, prev_offset.
  rewrite !padd_small by lia. split.
  - rewrite load_ok by inb. fold (nxt (mem s) x). rewrite Hn. reflexivity.
  - rewrite load_ok by inb. fold (prv (mem s) y). rewrite Hp. reflexivity.
Qed.

Lemma free_list_links_are_mutual_witness :
  get_next_free 4232 ex_free_a = Ok 4136 ex_free_a /\
  get_prev_free 4136 ex_free_a = Ok 4232 ex_free_a.
Proof.
  apply (free_list_links_are_mutual ex_free_a _ [4232; 4136] [4104] 4232 4136
           [4104] (wf_heap _ _ _ ex_free_a_WF)).
  reflexivity.
Defined.
